(** * Zinc finite element utilities: [opencmiss/utils/zinc/finiteelement.py]

    A shallow embedding of the utility functions of
    [opencmiss.utils.zinc.finiteelement] and of the parts of the Zinc
    engine they call, followed by the properties of the functions.

    Conventions.
    - Real numbers are values of a type [F] carrying the arithmetic the
      code uses ([Scalar]); the exact laws of arithmetic are a separate
      class ([ExactScalar]) that only the theorems needing them assume.
      The rationals are an exact instance; Python's own binary64 floats
      are an instance that is not exact.
    - Python exceptions are values of [PyExn]; a function that may raise
      returns in the monad [Py].
    - The Zinc engine (node store, templates, parameter accessors) is an
      interface, [Zinc]; [MemZinc] is its in-memory implementation. *)

From Stdlib Require Import ZArith QArith Qcanon Lia.
From Stdlib Require PrimFloat.
From stdpp Require Import base option list sorting gmap sets strings.

Close Scope Q_scope.
Close Scope Qc_scope.
Open Scope Z_scope.
Open Scope nat_scope.
Open Scope stdpp_scope.

(** ** Scalars *)

(** The arithmetic of Python floats used by the module: [0.0], [1.0],
    [+], [*], [/], the running minimum and maximum of the aggregate
    fields, and the conversion of an [int] count. *)
Class Scalar (F : Type) := {
  fzero : F;
  fone : F;
  fadd : F -> F -> F;
  fmul : F -> F -> F;
  fdiv : F -> F -> F;
  fmin : F -> F -> F;
  fmax : F -> F -> F;
  fofnat : nat -> F
}.

(** The laws of exact arithmetic that the identity transformation needs. *)
Class ExactScalar (F : Type) `{Scalar F} : Prop := {
  fadd_0_l : forall x : F, fadd fzero x = x;
  fadd_0_r : forall x : F, fadd x fzero = x;
  fmul_1_l : forall x : F, fmul fone x = x;
  fmul_0_l : forall x : F, fmul fzero x = fzero
}.

(** The rationals in canonical form: an exact instance, with Leibniz
    equality, on which every definition evaluates. *)
#[export] Instance Qc_Scalar : Scalar Qc := {
  fzero := Q2Qc 0;
  fone := Q2Qc 1;
  fadd := Qcplus;
  fmul := Qcmult;
  fdiv := Qcdiv;
  fmin := fun x y => if Qle_bool (this x) (this y) then x else y;
  fmax := fun x y => if Qle_bool (this x) (this y) then y else x;
  fofnat := fun n => Q2Qc (inject_Z (Z.of_nat n))
}.

(** Python's own floats, IEEE 754 binary64: the conversion of a count
    by repeated addition of [1.0] (exact below 2^53), and [min] and
    [max] of two arguments, which keep the first unless the second is
    smaller (larger). *)
Fixpoint float_of_nat (n : nat) : PrimFloat.float :=
  match n with
  | 0 => PrimFloat.zero
  | S n => PrimFloat.add (float_of_nat n) PrimFloat.one
  end.

#[export] Instance float_Scalar : Scalar PrimFloat.float := {
  fzero := PrimFloat.zero;
  fone := PrimFloat.one;
  fadd := PrimFloat.add;
  fmul := PrimFloat.mul;
  fdiv := PrimFloat.div;
  fmin := fun x y => if PrimFloat.ltb y x then y else x;
  fmax := fun x y => if PrimFloat.ltb x y then y else x;
  fofnat := float_of_nat
}.

(** ** Python exceptions *)

Inductive PyExn : Type :=
  | AssertionError
  | TypeError
  | IndexError.

Inductive Py (A : Type) : Type :=
  | Return (a : A)
  | Raise (e : PyExn).
Arguments Return {A} a.
Arguments Raise {A} e.

Definition bindPy {A B : Type} (m : Py A) (k : A -> Py B) : Py B :=
  match m with
  | Return a => k a
  | Raise e => Raise e
  end.

Notation "x <~ m ;; k" := (bindPy m (fun x => k))
  (at level 100, m at next level, right associativity).

(** [assert cond] *)
Definition py_assert (cond : bool) : Py unit :=
  if cond then Return tt else Raise AssertionError.

(** [l[i]] on a Python list: [IndexError] out of range. *)
Definition py_getitem {A : Type} (l : list A) (i : nat) : Py A :=
  match l !! i with
  | Some x => Return x
  | None => Raise IndexError
  end.

(** [l[i] = x] on a Python list: [IndexError] out of range. *)
Definition py_setitem {A : Type} (l : list A) (i : nat) (x : A) : Py (list A) :=
  if decide (i < length l) then Return (<[i:=x]> l) else Raise IndexError.

(** [t[i] = x] on a Python tuple: tuples do not support item
    assignment, whatever the index and the value. *)
Definition tuple_setitem {T A : Type} (t : T) (i : nat) (x : A) : Py T :=
  Raise TypeError.

(** A Python [dict] with [str] keys, in insertion order. *)
Fixpoint dict_get {V : Type} (d : list (string * V)) (k : string) : option V :=
  match d with
  | [] => None
  | (k', v') :: d' => if decide (k' = k) then Some v' else dict_get d' k
  end.

Fixpoint dict_set {V : Type} (d : list (string * V)) (k : string) (v : V)
  : list (string * V) :=
  match d with
  | [] => [(k, v)]
  | (k', v') :: d' =>
      if decide (k' = k) then (k, v) :: d' else (k', v') :: dict_set d' k v
  end.

(** ** Zinc constants and handles *)

(** [opencmiss.zinc.result]: [RESULT_OK] and the error results.
    Modelled from the spec: the result module is not among the sources;
    the errors are those of the spec's taxonomy. *)
Inductive Result : Type :=
  | RESULT_OK
  | RESULT_ERROR_GENERAL
  | RESULT_ERROR_ARGUMENT
  | RESULT_ERROR_INVALID_COMPONENT_COUNT
  | RESULT_ERROR_UNDEFINED_PARAMETER
  | RESULT_ERROR_NOT_EVALUABLE.

#[export] Instance Result_eq_dec : EqDecision Result.
Proof. solve_decision. Defined.

(** [Node.VALUE_LABEL_*] *)
Inductive ValueLabel : Type :=
  | VALUE_LABEL_VALUE
  | VALUE_LABEL_D_DS1
  | VALUE_LABEL_D_DS2
  | VALUE_LABEL_D2_DS1DS2
  | VALUE_LABEL_D_DS3
  | VALUE_LABEL_D2_DS1DS3
  | VALUE_LABEL_D2_DS2DS3
  | VALUE_LABEL_D3_DS1DS2DS3.

#[export] Instance ValueLabel_eq_dec : EqDecision ValueLabel.
Proof. solve_decision. Defined.

Definition ValueLabel_to_nat (d : ValueLabel) : nat :=
  match d with
  | VALUE_LABEL_VALUE => 1
  | VALUE_LABEL_D_DS1 => 2
  | VALUE_LABEL_D_DS2 => 3
  | VALUE_LABEL_D2_DS1DS2 => 4
  | VALUE_LABEL_D_DS3 => 5
  | VALUE_LABEL_D2_DS1DS3 => 6
  | VALUE_LABEL_D2_DS2DS3 => 7
  | VALUE_LABEL_D3_DS1DS2DS3 => 8
  end.

Definition ValueLabel_of_nat (n : nat) : option ValueLabel :=
  match n with
  | 1 => Some VALUE_LABEL_VALUE
  | 2 => Some VALUE_LABEL_D_DS1
  | 3 => Some VALUE_LABEL_D_DS2
  | 4 => Some VALUE_LABEL_D2_DS1DS2
  | 5 => Some VALUE_LABEL_D_DS3
  | 6 => Some VALUE_LABEL_D2_DS1DS3
  | 7 => Some VALUE_LABEL_D2_DS2DS3
  | 8 => Some VALUE_LABEL_D3_DS1DS2DS3
  | _ => None
  end.

#[export] Instance ValueLabel_countable : Countable ValueLabel.
Proof.
  apply (inj_countable ValueLabel_to_nat ValueLabel_of_nat).
  intros []; reflexivity.
Defined.

(** [Field.COORDINATE_SYSTEM_TYPE_*]; only rectangular cartesian is
    distinguished by the module. *)
Inductive CoordinateSystemType : Type :=
  | COORDINATE_SYSTEM_TYPE_RECTANGULAR_CARTESIAN
  | COORDINATE_SYSTEM_TYPE_OTHER (tag : nat).

#[export] Instance CoordinateSystemType_eq_dec : EqDecision CoordinateSystemType.
Proof. solve_decision. Defined.

(** A Zinc [Field] handle: what the module asks of a field. *)
Record Field : Type := {
  getName : string;
  getNumberOfComponents : nat;
  getCoordinateSystemType : CoordinateSystemType;
  isFiniteElement : bool
}.

(** [field.castFiniteElement()]: the finite element field, valid when
    the field is finite-element-typed. *)
Definition castFiniteElement (field : Field) : option Field :=
  if isFiniteElement field then Some field else None.

(** [feField.isValid()] *)
Definition isValid {A : Type} (handle : option A) : bool :=
  match handle with Some _ => true | None => false end.

(** ** Vector operations *)

(** Modelled from the spec: [opencmiss.utils.maths.vectorops] is not
    among the sources; [matrixvectormult] is the matrix-vector product
    (each row dotted with the vector, the sum starting from zero) and
    [add] the componentwise sum.  On operands that are not conformant
    the spec leaves the result undefined; here the longer operand is
    cut to the shorter. *)
Module vectorops.
Section Defs.
Context {F : Type} `{Scalar F}.

(** Modelled from the spec: the dot product inside [matrixvectormult],
    a sum that starts from zero. *)
Definition dot (u v : list F) : F :=
  foldl fadd fzero (zip_with fmul u v).

(** Modelled from the spec: [vectorops.matrixvectormult(matrix, vector)],
    the matrix-vector product. *)
Definition matrixvectormult (m : list (list F)) (v : list F) : list F :=
  map (fun row_m => dot row_m v) m.

(** Modelled from the spec: [vectorops.add(vectorA, vectorB)], the
    componentwise sum. *)
Definition add (u v : list F) : list F :=
  zip_with fadd u v.
End Defs.
End vectorops.

(** ** Field caches *)

(** A [Fieldcache]: the time and the node an evaluation is bound to. *)
Record Fieldcache (F Node : Type) : Type := {
  cacheTime : F;
  cacheNode : option Node
}.
Arguments cacheTime {F Node} _.
Arguments cacheNode {F Node} _.

(** [fieldmodule.createFieldcache()] *)
Definition createFieldcache {F Node : Type} `{Scalar F} : Fieldcache F Node :=
  {| cacheTime := fzero; cacheNode := None |}.

(** [cache.setNode(node)] *)
Definition setNode {F Node : Type} (cache : Fieldcache F Node) (node : Node)
  : Fieldcache F Node :=
  {| cacheTime := cacheTime cache; cacheNode := Some node |}.

(** [cache.setTime(time)] *)
Definition setTime {F Node : Type} (cache : Fieldcache F Node) (time : F)
  : Fieldcache F Node :=
  {| cacheTime := time; cacheNode := cacheNode cache |}.

(** ** Searching and averaging over a nodeset *)

Section Nodeset.
Context {F : Type} `{Scalar F} {Node : Type}.

(** The field evaluator of the engine: [field.evaluateString(cache)],
    [None] when the string is undefined, and
    [field.evaluateReal(cache, count)]. *)
Variable evaluateString : Field -> Fieldcache F Node -> option string.
Variable evaluateReal : Field -> Fieldcache F Node -> nat -> Result * list F.

(** The [while node.isValid()] loop of [findNodeWithName] over the
    nodes the iterator yields.  A node handle is a true value. *)
Fixpoint findNodeWithName_loop (nameField : Field) (name : option string)
    (fieldcache : Fieldcache F Node) (nodeWithName : option Node)
    (nodeiter : list Node) : option Node :=
  match nodeiter with
  | [] => nodeWithName
  | node :: nodeiter =>
      let fieldcache := setNode fieldcache node in
      let tempName := evaluateString nameField fieldcache in
      if decide (tempName = name) then
        match nodeWithName with
        | Some _ => None
        | None =>
            findNodeWithName_loop nameField name fieldcache (Some node) nodeiter
        end
      else findNodeWithName_loop nameField name fieldcache nodeWithName nodeiter
  end.

Definition findNodeWithName (nodeset : list Node) (nameField : Field)
    (name : option string) : option Node :=
  let fieldcache := createFieldcache in
  findNodeWithName_loop nameField name fieldcache None nodeset.

(** [name and ...]: a string is true when it is defined and not empty. *)
Definition str_truthy (name : option string) : bool :=
  match name with
  | Some s => negb (String.eqb s "")
  | None => false
  end.

(** [for c in range(componentsCount): nameCentre[c] += coordinates[c]] *)
Fixpoint add_components (cs : list nat) (nameCentre coordinates : list F)
  : Py (list F) :=
  match cs with
  | [] => Return nameCentre
  | c :: cs =>
      x <~ py_getitem nameCentre c ;;
      y <~ py_getitem coordinates c ;;
      nameCentre <~ py_setitem nameCentre c (fadd x y) ;;
      add_components cs nameCentre coordinates
  end.

(** [for c in range(componentsCount): nameCentre[c] *= scale] *)
Fixpoint scale_components (cs : list nat) (nameCentre : list F) (scale : F)
  : Py (list F) :=
  match cs with
  | [] => Return nameCentre
  | c :: cs =>
      x <~ py_getitem nameCentre c ;;
      nameCentre <~ py_setitem nameCentre c (fmul x scale) ;;
      scale_components cs nameCentre scale
  end.

(** The body of the first loop of [getNodeNameCentres] for one node.
    A name record is the tuple [(coordinates, count)]. *)
Definition getNodeNameCentres_node (coordinatesField nameField : Field)
    (componentsCount : nat) (fieldcache : Fieldcache F Node)
    (nameRecords : list (string * (list F * nat))) (node : Node)
  : Py (list (string * (list F * nat))) :=
  let fieldcache := setNode fieldcache node in
  let name := evaluateString nameField fieldcache in
  let '(coordinatesResult, coordinates) :=
    evaluateReal coordinatesField fieldcache componentsCount in
  if str_truthy name && bool_decide (coordinatesResult = RESULT_OK) then
    let name := default ""%string name in
    match dict_get nameRecords name with
    | Some nameRecord =>
        let nameCentre := fst nameRecord in
        nameCentre <~
          add_components (seq 0 componentsCount) nameCentre coordinates ;;
        nameRecord <~
          tuple_setitem (nameCentre, snd nameRecord) 1 (snd nameRecord + 1) ;;
        Return (dict_set nameRecords name nameRecord)
    | None => Return (dict_set nameRecords name (coordinates, 1))
    end
  else Return nameRecords.

Fixpoint getNodeNameCentres_nodes (coordinatesField nameField : Field)
    (componentsCount : nat) (fieldcache : Fieldcache F Node)
    (nameRecords : list (string * (list F * nat))) (nodeiter : list Node)
  : Py (list (string * (list F * nat))) :=
  match nodeiter with
  | [] => Return nameRecords
  | node :: nodeiter =>
      nameRecords <~
        getNodeNameCentres_node coordinatesField nameField componentsCount
          fieldcache nameRecords node ;;
      getNodeNameCentres_nodes coordinatesField nameField componentsCount
        (setNode fieldcache node) nameRecords nodeiter
  end.

(** The second loop: [for name in nameRecords: ...]. *)
Fixpoint getNodeNameCentres_divide (componentsCount : nat)
    (nameRecords : list (string * (list F * nat)))
    (nameCentres : list (string * list F)) : Py (list (string * list F)) :=
  match nameRecords with
  | [] => Return nameCentres
  | (name, nameRecord) :: nameRecords =>
      let nameCount := snd nameRecord in
      let nameCentre := fst nameRecord in
      nameCentre <~
        (if decide (1 < nameCount) then
           let scale := fdiv fone (fofnat nameCount) in
           scale_components (seq 0 componentsCount) nameCentre scale
         else Return nameCentre) ;;
      getNodeNameCentres_divide componentsCount nameRecords
        (dict_set nameCentres name nameCentre)
  end.

Definition getNodeNameCentres (nodeset : list Node)
    (coordinatesField nameField : Field) : Py (list (string * list F)) :=
  let componentsCount := getNumberOfComponents coordinatesField in
  let fieldcache := createFieldcache in
  let nameRecords := [] in
  nameRecords <~
    getNodeNameCentres_nodes coordinatesField nameField componentsCount
      fieldcache nameRecords nodeset ;;
  let nameCentres := [] in
  getNodeNameCentres_divide componentsCount nameRecords nameCentres.

End Nodeset.

(** ** Aggregate fields over a nodeset *)

Section Aggregates.
Context {F : Type} `{Scalar F} {Node : Type}.

Variable evaluateReal : Field -> Fieldcache F Node -> nat -> Result * list F.

(** [fieldmodule.createFieldNodesetMinimum(coordinates, nodeset)] and
    its siblings: the aggregate field remembers its kind, its source
    field and its nodeset. *)
Inductive AggregateKind : Type :=
  | NodesetMinimum
  | NodesetMaximum
  | NodesetMean.

Record AggregateField : Type := {
  aggregateKind : AggregateKind;
  aggregateSource : Field;
  aggregateNodeset : list Node
}.

Definition createFieldNodesetMinimum (coordinates : Field) (nodeset : list Node) :=
  {| aggregateKind := NodesetMinimum; aggregateSource := coordinates;
     aggregateNodeset := nodeset |}.

Definition createFieldNodesetMaximum (coordinates : Field) (nodeset : list Node) :=
  {| aggregateKind := NodesetMaximum; aggregateSource := coordinates;
     aggregateNodeset := nodeset |}.

Definition createFieldNodesetMean (coordinates : Field) (nodeset : list Node) :=
  {| aggregateKind := NodesetMean; aggregateSource := coordinates;
     aggregateNodeset := nodeset |}.

(** Modelled from the spec: the aggregate evaluators of the engine are
    not among the sources.  A single pass over the nodes in iteration
    order keeps the per-component running minimum, maximum or sum
    ([running] is [None] before the first node); a node at which the
    source field does not evaluate makes the pass fail. *)
Fixpoint aggregate_pass (op : F -> F -> F) (source : Field)
    (fieldcache : Fieldcache F Node) (count : nat)
    (running : option (list F)) (nodes : list Node) : Result * option (list F) :=
  match nodes with
  | [] => (RESULT_OK, running)
  | node :: nodes =>
      let fieldcache := setNode fieldcache node in
      let '(result, x) := evaluateReal source fieldcache count in
      if decide (result = RESULT_OK) then
        let running :=
          match running with
          | None => x
          | Some acc => zip_with op acc x
          end in
        aggregate_pass op source fieldcache count (Some running) nodes
      else (result, None)
  end.

(** Modelled from the spec: [aggregate.evaluateReal(cache, count)].
    The mean divides the sum by the number of nodes; over an empty
    nodeset the evaluation fails and no component of the result is
    defined (the values are the empty list). *)
Definition evaluateRealAggregate (aggregate : AggregateField)
    (fieldcache : Fieldcache F Node) (count : nat) : Result * list F :=
  let nodes := aggregateNodeset aggregate in
  let op :=
    match aggregateKind aggregate with
    | NodesetMinimum => fmin
    | NodesetMaximum => fmax
    | NodesetMean => fadd
    end in
  match aggregate_pass op (aggregateSource aggregate) fieldcache count None nodes with
  | (RESULT_OK, Some acc) =>
      match aggregateKind aggregate with
      | NodesetMean =>
          (RESULT_OK, map (fun s => fdiv s (fofnat (length nodes))) acc)
      | _ => (RESULT_OK, acc)
      end
  | (RESULT_OK, None) => (RESULT_ERROR_NOT_EVALUABLE, [])
  | (result, _) => (result, [])
  end.

(** [evaluateNodesetCoordinatesRange]; the [ZincCacheChanges] scope
    batches change notifications and has no effect on values. *)
Definition evaluateNodesetCoordinatesRange (coordinates : Field)
    (nodeset : list Node) : Py (list F * list F) :=
  let componentsCount := getNumberOfComponents coordinates in
  let minCoordinates := createFieldNodesetMinimum coordinates nodeset in
  let maxCoordinates := createFieldNodesetMaximum coordinates nodeset in
  let fieldcache := createFieldcache in
  let '(result, minX) :=
    evaluateRealAggregate minCoordinates fieldcache componentsCount in
  _ <~ py_assert (bool_decide (result = RESULT_OK)) ;;
  let '(result, maxX) :=
    evaluateRealAggregate maxCoordinates fieldcache componentsCount in
  _ <~ py_assert (bool_decide (result = RESULT_OK)) ;;
  Return (minX, maxX).

(** [evaluateNodesetMeanCoordinates] *)
Definition evaluateNodesetMeanCoordinates (coordinates : Field)
    (nodeset : list Node) : Py (list F) :=
  let componentsCount := getNumberOfComponents coordinates in
  let meanCoordinatesField := createFieldNodesetMean coordinates nodeset in
  let fieldcache := createFieldcache in
  let '(result, meanCoordinates) :=
    evaluateRealAggregate meanCoordinatesField fieldcache componentsCount in
  _ <~ py_assert (bool_decide (result = RESULT_OK)) ;;
  _ <~ py_assert (bool_decide (result = RESULT_OK)) ;;
  Return meanCoordinates.

End Aggregates.

(** ** The engine interface used by [transformCoordinates] *)

(** The calls of [transformCoordinates] into the engine, over a state
    [Store] of the region: the nodes of the nodeset in iteration order,
    node templates, and the nodal parameter accessors.  A result other
    than [RESULT_OK] is a failed call. *)
Class Zinc (F Store Node Nodetemplate : Type) := {
  (** [fm.findNodesetByFieldDomainType(Field.DOMAIN_TYPE_NODES)] and
      its node iterator *)
  nodesetNodes : Store -> list Node;
  (** [nodes.createNodetemplate()] *)
  createNodetemplate : Store -> Nodetemplate;
  (** [nodetemplate.defineFieldFromNode(field, node)] *)
  defineFieldFromNode : Store -> Nodetemplate -> Field -> Node -> Nodetemplate;
  (** [nodetemplate.getValueNumberOfVersions(field, component, label)] *)
  getValueNumberOfVersions : Nodetemplate -> Field -> Z -> ValueLabel -> Z;
  (** [field.getNodeParameters(cache, component, label, version, count)] *)
  getNodeParameters :
    Store -> Fieldcache F Node -> Field -> Z -> ValueLabel -> nat -> nat ->
    Result * list F;
  (** [field.setNodeParameters(cache, component, label, version, values)] *)
  setNodeParameters :
    Store -> Fieldcache F Node -> Field -> Z -> ValueLabel -> nat -> list F ->
    Result * Store
}.

(** A call into the engine with what it returned, in program order. *)
Inductive Call (F Node : Type) : Type :=
  | CallSetNode (node : Node)
  | CallGet (node : Node) (field : Field) (derivative : ValueLabel)
      (version : nat) (result : Result) (values : list F)
  | CallSet (node : Node) (field : Field) (derivative : ValueLabel)
      (version : nat) (values : list F) (result : Result).
Arguments CallSetNode {F Node} node.
Arguments CallGet {F Node} node field derivative version result values.
Arguments CallSet {F Node} node field derivative version values result.

(** The state of the sweep: the local [success], the region, and the
    calls made so far. *)
Record Sweep (F Store Node : Type) : Type := {
  success : bool;
  store : Store;
  calls : list (Call F Node)
}.
Arguments success {F Store Node} _.
Arguments store {F Store Node} _.
Arguments calls {F Store Node} _.

(** The labels in the order of the [for derivative in [...]] loop. *)
Definition valueLabels : list ValueLabel :=
  [VALUE_LABEL_VALUE; VALUE_LABEL_D_DS1; VALUE_LABEL_D_DS2;
   VALUE_LABEL_D2_DS1DS2; VALUE_LABEL_D_DS3; VALUE_LABEL_D2_DS1DS3;
   VALUE_LABEL_D2_DS2DS3; VALUE_LABEL_D3_DS1DS2DS3].

Section Transform.
Context {F : Type} `{Scalar F} {Store Node Nodetemplate : Type}
  `{Zinc F Store Node Nodetemplate}.

(** What is written for the values read under a label. *)
Definition transformValues (rotationScale : list (list F)) (offset : list F)
    (derivative : ValueLabel) (values : list F) : list F :=
  let newValues := vectorops.matrixvectormult rotationScale values in
  if decide (derivative = VALUE_LABEL_VALUE) then vectorops.add newValues offset
  else newValues.

(** The body of [for v in range(versions)]. *)
Definition transformCoordinates_version (feField : Field)
    (rotationScale : list (list F)) (offset : list F) (ncomp : nat)
    (cache : Fieldcache F Node) (node : Node) (derivative : ValueLabel)
    (s : Sweep F Store Node) (v : nat) : Sweep F Store Node :=
  let '(result, values) :=
    getNodeParameters (store s) cache feField (-1)%Z derivative (v + 1) ncomp in
  let s := {| success := success s; store := store s;
              calls := calls s ++ [CallGet node feField derivative (v + 1) result values] |} in
  if decide (result <> RESULT_OK) then
    {| success := false; store := store s; calls := calls s |}
  else
    let newValues := transformValues rotationScale offset derivative values in
    let '(result, store') :=
      setNodeParameters (store s) cache feField (-1)%Z derivative (v + 1) newValues in
    {| success := if decide (result <> RESULT_OK) then false else success s;
       store := store';
       calls := calls s ++ [CallSet node feField derivative (v + 1) newValues result] |}.

(** The body of [for derivative in [...]]. *)
Definition transformCoordinates_derivative (feField : Field)
    (rotationScale : list (list F)) (offset : list F) (ncomp : nat)
    (nodetemplate : Nodetemplate) (cache : Fieldcache F Node) (node : Node)
    (s : Sweep F Store Node) (derivative : ValueLabel) : Sweep F Store Node :=
  let versions := getValueNumberOfVersions nodetemplate feField (-1)%Z derivative in
  foldl (transformCoordinates_version feField rotationScale offset ncomp cache
           node derivative)
    s (seq 0 (Z.to_nat versions)).

(** The [while node.isValid()] loop over the nodes the iterator yields. *)
Fixpoint transformCoordinates_nodes (feField : Field)
    (rotationScale : list (list F)) (offset : list F) (ncomp : nat)
    (nodetemplate : Nodetemplate) (cache : Fieldcache F Node)
    (s : Sweep F Store Node) (nodeIter : list Node) : Sweep F Store Node :=
  match nodeIter with
  | [] => s
  | node :: nodeIter =>
      let nodetemplate := defineFieldFromNode (store s) nodetemplate feField node in
      let cache := setNode cache node in
      let s := {| success := success s; store := store s;
                  calls := calls s ++ [CallSetNode node] |} in
      let s :=
        foldl (transformCoordinates_derivative feField rotationScale offset
                 ncomp nodetemplate cache node)
          s valueLabels in
      transformCoordinates_nodes feField rotationScale offset ncomp
        nodetemplate cache s nodeIter
  end.

(** [transformCoordinates(field, rotationScale, offset, time)] on the
    region [fm]: the returned [success], the region afterwards and the
    calls made.  The diagnostics printed are not modelled; the
    [beginChange]/[endChange] pair batches change notifications and has
    no effect on values. *)
Definition transformCoordinates (fm : Store) (field : Field)
    (rotationScale : list (list F)) (offset : list F) (time : F)
  : Sweep F Store Node :=
  let failure : Sweep F Store Node :=
    {| success := false; store := fm; calls := [] |} in
  let ncomp := getNumberOfComponents field in
  if bool_decide (ncomp <> 2) && bool_decide (ncomp <> 3) then failure
  else if bool_decide (length rotationScale <> ncomp)
          || bool_decide (length offset <> ncomp)
  then failure
  else if existsb (fun matRow => bool_decide (length matRow <> ncomp)) rotationScale
  then failure
  else if decide (getCoordinateSystemType field
                  <> COORDINATE_SYSTEM_TYPE_RECTANGULAR_CARTESIAN)
  then failure
  else
    match castFiniteElement field with
    | None => failure
    | Some feField =>
        let success := true in
        let cache := setTime createFieldcache time in
        let nodetemplate := createNodetemplate fm in
        let nodeIter := nodesetNodes fm in
        transformCoordinates_nodes feField rotationScale offset ncomp
          nodetemplate cache
          {| success := success; store := fm; calls := [] |} nodeIter
    end.

End Transform.

(** ** The in-memory engine *)

(** Modelled from the spec: the Zinc engine is not among the sources.
    A node owns, for each field (by name) and value label, the list of
    its versions, version [v] at index [v - 1]; each version is the
    sequence of the components.  The node store maps the identifiers in
    use to their nodes. *)
Abbreviation NodeData F := (gmap (string * ValueLabel) (list (list F))).
Abbreviation NodeStore F := (gmap Z (gmap (string * ValueLabel) (list (list F)))).

(** Modelled from the spec: a node template declares, for a field and
    a value label, the number of components and the number of versions. *)
Abbreviation MemNodetemplate := (gmap (string * ValueLabel) (nat * nat)).

Module MemZinc.
Section Defs.
Context {F : Type} `{Scalar F}.

(** Modelled from the spec: the node iterator yields the identifiers
    in use, ascending. *)
Definition nodeIdentifiers (fm : NodeStore F) : list Z :=
  merge_sort Z.le (elements (dom fm)).

(** Modelled from the spec: [nodeset.createNodetemplate()], with no
    field defined. *)
Definition newNodetemplate (fm : NodeStore F) : MemNodetemplate := ∅.

(** Modelled from the spec: [template.defineField(field)] declares the
    value, version 1, with the component count of the field; it fails
    on a field that is not finite-element-typed. *)
Definition defineField (template : MemNodetemplate) (field : Field)
  : MemNodetemplate :=
  if isFiniteElement field then
    <[(getName field, VALUE_LABEL_VALUE) := (getNumberOfComponents field, 1)]>
      template
  else template.

(** Modelled from the spec: [template.defineFieldFromNode(field, node)]:
    the template takes, for every label, the number of versions the
    node stores for the field. *)
Definition fieldFromNode (fm : NodeStore F) (template : MemNodetemplate)
    (field : Field) (node : Z) : MemNodetemplate :=
  match fm !! node with
  | None => template
  | Some data =>
      foldr (fun derivative template =>
               match data !! (getName field, derivative) with
               | Some versions =>
                   <[(getName field, derivative) :=
                       (getNumberOfComponents field, length versions)]> template
               | None => delete (getName field, derivative) template
               end)
        template valueLabels
  end.

(** Modelled from the spec:
    [template.getValueNumberOfVersions(field, -1, label)]. *)
Definition valueNumberOfVersions (template : MemNodetemplate) (field : Field)
    (component : Z) (derivative : ValueLabel) : Z :=
  match template !! (getName field, derivative) with
  | Some (_, versions) => Z.of_nat versions
  | None => 0
  end.

(** Modelled from the spec: the parameters a node stores for a field
    name, label and version, if any. *)
Definition slot (fm : NodeStore F) (node : Z) (name : string)
    (derivative : ValueLabel) (version : nat) : option (list F) :=
  match version with
  | 0 => None
  | S index =>
      data ← fm !! node;
      versions ← data !! (name, derivative);
      versions !! index
  end.

(** Modelled from the spec:
    [field.getNodeParameters(cache, -1, label, version, count)]: the
    cache must be bound to a node, the slot must be stored and hold
    [count] components. *)
Definition nodeParameters (fm : NodeStore F) (cache : Fieldcache F Z)
    (field : Field) (component : Z) (derivative : ValueLabel) (version : nat)
    (count : nat) : Result * list F :=
  match cacheNode cache with
  | None => (RESULT_ERROR_ARGUMENT, [])
  | Some node =>
      match slot fm node (getName field) derivative version with
      | None => (RESULT_ERROR_UNDEFINED_PARAMETER, [])
      | Some values =>
          if decide (length values = count) then (RESULT_OK, values)
          else (RESULT_ERROR_INVALID_COMPONENT_COUNT, [])
      end
  end.

(** Modelled from the spec: the write of a stored slot of a node. *)
Definition writeSlot (fm : NodeStore F) (node : Z) (name : string)
    (derivative : ValueLabel) (index : nat) (values : list F) : NodeStore F :=
  match fm !! node with
  | None => fm
  | Some data =>
      match data !! (name, derivative) with
      | None => fm
      | Some versions =>
          <[node := <[(name, derivative) := <[index := values]> versions]> data]> fm
      end
  end.

(** Modelled from the spec:
    [field.setNodeParameters(cache, -1, label, version, values)]: the
    cache must be bound to a node, [values] must have the component
    count of the field and the slot must be stored. *)
Definition assignNodeParameters (fm : NodeStore F) (cache : Fieldcache F Z)
    (field : Field) (component : Z) (derivative : ValueLabel) (version : nat)
    (values : list F) : Result * NodeStore F :=
  match cacheNode cache with
  | None => (RESULT_ERROR_ARGUMENT, fm)
  | Some node =>
      if decide (length values = getNumberOfComponents field) then
        match slot fm node (getName field) derivative version with
        | None => (RESULT_ERROR_UNDEFINED_PARAMETER, fm)
        | Some _ =>
            (RESULT_OK,
             writeSlot fm node (getName field) derivative (pred version) values)
        end
      else (RESULT_ERROR_INVALID_COMPONENT_COUNT, fm)
  end.

#[export] Instance MemZinc_Zinc : Zinc F (NodeStore F) Z MemNodetemplate := {
  nodesetNodes := nodeIdentifiers;
  createNodetemplate := newNodetemplate;
  defineFieldFromNode := fieldFromNode;
  getValueNumberOfVersions := valueNumberOfVersions;
  getNodeParameters := nodeParameters;
  setNodeParameters := assignNodeParameters
}.

(** Modelled from the spec: [field.assignReal(cache, values)], the
    write path symmetric to [evaluateReal]: with the cache bound to a
    node that stores the value of the field, version 1, it writes
    [values] there.  The spec names no failure on the number of values:
    as many values as the field has components are taken from the front
    of [values], and the call is refused when there are fewer. *)
Definition assignReal (fm : NodeStore F) (cache : Fieldcache F Z)
    (field : Field) (values : list F) : Result * NodeStore F :=
  match cacheNode cache with
  | None => (RESULT_ERROR_ARGUMENT, fm)
  | Some node =>
      if decide (getNumberOfComponents field <= length values) then
        match slot fm node (getName field) VALUE_LABEL_VALUE 1 with
        | None => (RESULT_ERROR_NOT_EVALUABLE, fm)
        | Some _ =>
            (RESULT_OK,
             writeSlot fm node (getName field) VALUE_LABEL_VALUE 0
               (take (getNumberOfComponents field) values))
        end
      else (RESULT_ERROR_ARGUMENT, fm)
  end.

(** Modelled from the spec: the smallest identifier from [i] on that
    is not in use, looking at
    [fuel] identifiers at most. *)
Fixpoint first_unused (fm : NodeStore F) (fuel : nat) (i : Z) : Z :=
  match fuel with
  | 0 => i
  | S fuel =>
      if decide (is_Some (fm !! i)) then first_unused fm fuel (i + 1)%Z else i
  end.

(** Modelled from the spec: [nodeset.createNode(idHint, template)].
    With [idHint = -1] the
    node gets the smallest unused identifier from 0 on; another hint
    must be an unused identifier.  The node stores, zero-initialised,
    what the template declares.  An invalid node ([None]) is returned
    on failure. *)
Definition createNode (fm : NodeStore F) (idHint : Z) (template : MemNodetemplate)
  : option Z * NodeStore F :=
  let identifier :=
    if decide (idHint = (-1)%Z) then Some (first_unused fm (size fm) 0%Z)
    else if decide ((0 <= idHint)%Z /\ fm !! idHint = None) then Some idHint
    else None in
  match identifier with
  | Some identifier =>
      let data :=
        (fun '(components, versions) =>
           replicate versions (replicate components fzero)) <$> template in
      (Some identifier, <[identifier := data]> fm)
  | None => (None, fm)
  end.

(** The [for node_coordinate in node_coordinate_set] loop of
    [createNodes]. *)
Fixpoint createNodes_loop (finite_element_field : Field)
    (node_template : MemNodetemplate) (field_cache : Fieldcache F Z)
    (fm : NodeStore F) (node_coordinate_set : list (list F)) : NodeStore F :=
  match node_coordinate_set with
  | [] => fm
  | node_coordinate :: node_coordinate_set =>
      let '(node, fm) := createNode fm (-1)%Z node_template in
      let field_cache :=
        {| cacheTime := cacheTime field_cache; cacheNode := node |} in
      let '(_, fm) := assignReal fm field_cache finite_element_field node_coordinate in
      createNodes_loop finite_element_field node_template field_cache fm
        node_coordinate_set
  end.

(** [createNodes(nodeset, finite_element_field, node_coordinate_set)]
    on the region holding the nodeset. *)
Definition createNodes (fm : NodeStore F) (finite_element_field : Field)
    (node_coordinate_set : list (list F)) : Py (NodeStore F) :=
  _ <~ py_assert (isValid (castFiniteElement finite_element_field)) ;;
  let node_template := defineField (newNodetemplate fm) finite_element_field in
  let field_cache := createFieldcache in
  Return (createNodes_loop finite_element_field node_template field_cache fm
            node_coordinate_set).

(** Modelled from the spec: [node.getIdentifier()], -1 for an invalid
    node. *)
Definition getIdentifier (node : option Z) : Z := default (-1)%Z node.

(** The node loop of [createCubeElement] (and of [createSquareElement]),
    which also collects [node_identifiers]. *)
Fixpoint createCubeElement_nodes (finite_element_field : Field)
    (node_template : MemNodetemplate) (field_cache : Fieldcache F Z)
    (fm : NodeStore F) (node_identifiers : list Z)
    (node_coordinate_set : list (list F)) : NodeStore F * list Z :=
  match node_coordinate_set with
  | [] => (fm, node_identifiers)
  | node_coordinate :: node_coordinate_set =>
      let '(node, fm) := createNode fm (-1)%Z node_template in
      let node_identifiers := node_identifiers ++ [getIdentifier node] in
      let field_cache :=
        {| cacheTime := cacheTime field_cache; cacheNode := node |} in
      let '(_, fm) := assignReal fm field_cache finite_element_field node_coordinate in
      createCubeElement_nodes finite_element_field node_template field_cache fm
        node_identifiers node_coordinate_set
  end.

End Defs.
End MemZinc.

(** ** Vocabulary of the properties *)

Section Vocabulary.
Context {F : Type} `{Scalar F} {Node : Type}.

(** The nodes of a nodeset, in iteration order, whose name field
    evaluates to [name]. *)
Definition nodesNamed (evaluateString : Field -> Fieldcache F Node -> option string)
    (nameField : Field) (name : option string) (nodeset : list Node) : list Node :=
  filter (fun node => evaluateString nameField (setNode createFieldcache node) = name)
    nodeset.

(** A node counts for [getNodeNameCentres] when its name is defined and
    not empty and its coordinates evaluate. *)
Definition namedAndEvaluable
    (evaluateString : Field -> Fieldcache F Node -> option string)
    (evaluateReal : Field -> Fieldcache F Node -> nat -> Result * list F)
    (coordinatesField nameField : Field) (node : Node) : bool :=
  let fieldcache := setNode createFieldcache node in
  str_truthy (evaluateString nameField fieldcache)
  && bool_decide
       (fst (evaluateReal coordinatesField fieldcache
               (getNumberOfComponents coordinatesField)) = RESULT_OK).

(** A call that returned [RESULT_OK] (binding the cache cannot fail). *)
Definition callOk (c : Call F Node) : bool :=
  match c with
  | CallSetNode _ => true
  | CallGet _ _ _ _ result _ => bool_decide (result = RESULT_OK)
  | CallSet _ _ _ _ _ result => bool_decide (result = RESULT_OK)
  end.

(** The nodes the cache was bound to, in program order. *)
Definition nodesVisited (l : list (Call F Node)) : list Node :=
  omap (fun c => match c with CallSetNode node => Some node | _ => None end) l.

(** The preconditions of [transformCoordinates]. *)
Definition validArguments (field : Field) (rotationScale : list (list F))
    (offset : list F) : Prop :=
  let ncomp := getNumberOfComponents field in
  (ncomp = 2 \/ ncomp = 3)
  /\ length rotationScale = ncomp
  /\ (forall matRow, matRow ∈ rotationScale -> length matRow = ncomp)
  /\ length offset = ncomp
  /\ getCoordinateSystemType field = COORDINATE_SYSTEM_TYPE_RECTANGULAR_CARTESIAN
  /\ isFiniteElement field = true.



(** Data model invariant: every stored parameter set of the field has
    the component count of the field. *)
Definition storeConforms (field : Field) (fm : NodeStore F) : Prop :=
  forall node data derivative versions values,
    fm !! node = Some data ->
    data !! (getName field, derivative) = Some versions ->
    values ∈ versions ->
    length values = getNumberOfComponents field.

(** A slot the in-memory engine can read with [count] components. *)
Definition readable (fm : NodeStore F) (name : string) (count : nat) (node : Z)
    (derivative : ValueLabel) (version : nat) : Prop :=
  match MemZinc.slot fm node name derivative version with
  | Some values => length values = count
  | None => False
  end.

(** What a sweep of the in-memory engine keeps true of the region and
    of its calls, from the region [fm] it started on: a slot of the
    field changes only if it was readable, and then stays readable; the
    slots of the other fields do not change; only readable slots of the
    field are written; reads fail on slots that were not readable. *)
Record sweepInvariant (field : Field) (fm : NodeStore F)
    (s : Sweep F (NodeStore F) Z) : Prop := {
  unreadable_kept : forall node derivative version,
    ~ readable fm (getName field) (getNumberOfComponents field) node derivative
        version ->
    MemZinc.slot (store s) node (getName field) derivative version
    = MemZinc.slot fm node (getName field) derivative version;
  readable_kept : forall node derivative version,
    readable fm (getName field) (getNumberOfComponents field) node derivative
      version ->
    readable (store s) (getName field) (getNumberOfComponents field) node
      derivative version;
  others_kept : forall node name derivative version,
    name <> getName field ->
    MemZinc.slot (store s) node name derivative version
    = MemZinc.slot fm node name derivative version;
  written_readable : forall node field' derivative version values result,
    CallSet node field' derivative version values result ∈ calls s ->
    field' = field
    /\ readable fm (getName field) (getNumberOfComponents field) node derivative
         version;
  failed_unreadable : forall node field' derivative version result values,
    CallGet node field' derivative version result values ∈ calls s ->
    result <> RESULT_OK ->
    ~ readable fm (getName field) (getNumberOfComponents field) node derivative
        version
}.


End Vocabulary.

(** ** Sample data *)

Module Sample.

Definition q (z : Z) : Qc := Q2Qc (inject_Z z).

(** Nodes are positions in a list of names and of coordinate results. *)
Definition names (l : list (option string)) (field : Field)
    (cache : Fieldcache Qc nat) : option string :=
  match cacheNode cache with
  | Some node => mjoin (l !! node)
  | None => None
  end.

Definition coordinates (l : list (Result * list Qc)) (field : Field)
    (cache : Fieldcache Qc nat) (count : nat) : Result * list Qc :=
  match cacheNode cache with
  | Some node => default (RESULT_ERROR_NOT_EVALUABLE, []) (l !! node)
  | None => (RESULT_ERROR_ARGUMENT, [])
  end.

Definition coordinatesField (components : nat) : Field :=
  {| getName := "coordinates"; getNumberOfComponents := components;
     getCoordinateSystemType := COORDINATE_SYSTEM_TYPE_RECTANGULAR_CARTESIAN;
     isFiniteElement := true |}.

Definition nameField : Field :=
  {| getName := "name"; getNumberOfComponents := 1;
     getCoordinateSystemType := COORDINATE_SYSTEM_TYPE_RECTANGULAR_CARTESIAN;
     isFiniteElement := false |}.

(** Two nodes with one version of the value and of the first
    derivative of a two-component field. *)
Definition twoNodes : NodeStore Qc :=
  {[ 0%Z := {[ ("coordinates"%string, VALUE_LABEL_VALUE) := [[q 1; q 2]];
               ("coordinates"%string, VALUE_LABEL_D_DS1) := [[q 1; q 0]] ]};
     1%Z := {[ ("coordinates"%string, VALUE_LABEL_VALUE) := [[q 3; q 4]];
               ("coordinates"%string, VALUE_LABEL_D_DS1) := [[q 0; q 1]] ]} ]}.

(** The same region when the second node holds a value with three
    components, which a two-component read does not accept. *)
Definition oddNodes : NodeStore Qc :=
  {[ 0%Z := {[ ("coordinates"%string, VALUE_LABEL_VALUE) := [[q 1; q 2]] ]};
     1%Z := {[ ("coordinates"%string, VALUE_LABEL_VALUE) := [[q 3; q 4; q 5]] ]} ]}.



(** The corners of the unit cube and of the unit square. *)
Definition cubeCorners : list (list Qc) :=
  [[q 0; q 0; q 0]; [q 1; q 0; q 0]; [q 0; q 1; q 0]; [q 1; q 1; q 0];
   [q 0; q 0; q 1]; [q 1; q 0; q 1]; [q 0; q 1; q 1]; [q 1; q 1; q 1]].

Definition squareCorners : list (list Qc) :=
  [[q 0; q 0]; [q 1; q 0]; [q 0; q 1]; [q 1; q 1]].

End Sample.

(** ** The shape of the calls of a sweep *)

Section SweepLog.
Context {F : Type} `{Scalar F} {Node : Type}.
Variable feField : Field.
Variable rotationScale : list (list F).
Variable offset : list F.

(** The calls of a sweep: bindings of the cache, reads that failed, and
    reads that succeeded, each followed at once by the write, to the
    slot read, of the transformed values. *)
Inductive sweepLog : list (Call F Node) -> Prop :=
  | sweepLog_nil : sweepLog []
  | sweepLog_node node l :
      sweepLog l -> sweepLog (CallSetNode node :: l)
  | sweepLog_failed node derivative version result values l :
      result <> RESULT_OK ->
      sweepLog l ->
      sweepLog (CallGet node feField derivative version result values :: l)
  | sweepLog_written node derivative version values result l :
      sweepLog l ->
      sweepLog
        (CallGet node feField derivative version RESULT_OK values
         :: CallSet node feField derivative version
              (transformValues rotationScale offset derivative values) result
         :: l).

(** [s'] continues [s] with calls of that shape, binding the cache to
    the nodes [visited]; [success] stays true exactly while every call
    returns [RESULT_OK]. *)
Definition continues {Store : Type} (visited : list Node)
    (s s' : Sweep F Store Node) : Prop :=
  exists l,
    calls s' = calls s ++ l
    /\ sweepLog l
    /\ nodesVisited l = visited
    /\ success s' = success s && forallb callOk l.

End SweepLog.

(** ** The region during a sweep *)

Section SweepProgress.
Context {F : Type} `{Scalar F}.
Variable field : Field.
Variable rotationScale : list (list F).
Variable offset : list F.

(** What a sweep makes of the parameters a slot holds: they are
    transformed when they have the component count of the field, and
    kept when they have not (the read fails). *)
Definition transformSlot (derivative : ValueLabel) (values : list F) : list F :=
  if decide (length values = getNumberOfComponents field)
  then transformValues rotationScale offset derivative values
  else values.

(** The state of a sweep of the in-memory engine that started on [fm],
    once the slots [done] are behind it: those slots hold the
    transformed parameters and the others what they held; the nodes are
    the same; [success] is still true exactly if every slot behind held
    as many components as the field has. *)
Record sweepProgress (fm : NodeStore F) (done : Z -> ValueLabel -> nat -> bool)
    (s : Sweep F (NodeStore F) Z) : Prop := {
  progress_slots : forall node derivative version,
    MemZinc.slot (store s) node (getName field) derivative version
    = if done node derivative version
      then transformSlot derivative
             <$> MemZinc.slot fm node (getName field) derivative version
      else MemZinc.slot fm node (getName field) derivative version;
  progress_nodes : forall node : Z,
    is_Some (store s !! node) <-> is_Some (fm !! node);
  progress_success :
    success s = true
    <-> forall node derivative version values,
          done node derivative version = true ->
          MemZinc.slot fm node (getName field) derivative version = Some values ->
          length values = getNumberOfComponents field
}.

(** The calls of a sweep of the in-memory engine that started on [fm],
    once the slots [done] are behind it.  A read in the log is a read
    of the field at a slot that [fm] stores: it returned what [fm]
    stores there when that has the component count of the field, and
    it failed when it has not.  A write in the log returned
    [RESULT_OK] and wrote the transform of what [fm] stores at its
    slot.  Every slot behind has its read in the log and, when the
    read succeeds, its write. *)
Record sweepCalls (fm : NodeStore F) (done : Z -> ValueLabel -> nat -> bool)
    (s : Sweep F (NodeStore F) Z) : Prop := {
  calls_read : forall node field' derivative version result values,
    CallGet node field' derivative version result values ∈ calls s ->
    field' = field
    /\ exists stored,
         MemZinc.slot fm node (getName field) derivative version = Some stored
         /\ ((length stored = getNumberOfComponents field
              /\ result = RESULT_OK /\ values = stored)
             \/ (length stored <> getNumberOfComponents field
                 /\ result <> RESULT_OK));
  calls_written : forall node field' derivative version values result,
    CallSet node field' derivative version values result ∈ calls s ->
    field' = field
    /\ result = RESULT_OK
    /\ exists stored,
         MemZinc.slot fm node (getName field) derivative version = Some stored
         /\ length stored = getNumberOfComponents field
         /\ values = transformValues rotationScale offset derivative stored;
  calls_behind_read : forall node derivative version stored,
    done node derivative version = true ->
    MemZinc.slot fm node (getName field) derivative version = Some stored ->
    length stored = getNumberOfComponents field ->
    CallGet node field derivative version RESULT_OK stored ∈ calls s
    /\ CallSet node field derivative version
         (transformValues rotationScale offset derivative stored) RESULT_OK
       ∈ calls s;
  calls_behind_failed : forall node derivative version stored,
    done node derivative version = true ->
    MemZinc.slot fm node (getName field) derivative version = Some stored ->
    length stored <> getNumberOfComponents field ->
    exists result values,
      result <> RESULT_OK
      /\ CallGet node field derivative version result values ∈ calls s
}.

End SweepProgress.

(** ** The slots behind a sweep *)

(** The slots behind a sweep, as it advances through the versions of a
    label, the labels of a node, and the nodes. *)
Definition doneVersions (done : Z -> ValueLabel -> nat -> bool) (node : Z)
    (derivative : ValueLabel) (k : nat) : Z -> ValueLabel -> nat -> bool :=
  fun node' derivative' version' =>
    done node' derivative' version'
    || bool_decide (node' = node /\ derivative' = derivative /\ 1 <= version' <= k).

Definition doneLabels (done : Z -> ValueLabel -> nat -> bool) (node : Z)
    (labels : list ValueLabel) : Z -> ValueLabel -> nat -> bool :=
  fun node' derivative' version' =>
    done node' derivative' version'
    || bool_decide (node' = node /\ derivative' ∈ labels).

Definition doneNodes (done : Z -> ValueLabel -> nat -> bool) (nodes : list Z)
    : Z -> ValueLabel -> nat -> bool :=
  fun node' derivative' version' =>
    done node' derivative' version' || bool_decide (node' ∈ nodes).

(** ** Names and coordinates of nodes *)

Section NameVocabulary.
Context {F : Type} `{Scalar F} {Node : Type}.
Variable evaluateString : Field -> Fieldcache F Node -> option string.
Variable evaluateReal : Field -> Fieldcache F Node -> nat -> Result * list F.

(** The name of a node, the empty string when undefined, and the
    coordinates that evaluate at it. *)
Definition nodeName (nameField : Field) (node : Node) : string :=
  default ""%string (evaluateString nameField (setNode createFieldcache node)).

Definition nodeCoordinates (coordinatesField : Field) (node : Node) : list F :=
  snd (evaluateReal coordinatesField (setNode createFieldcache node)
         (getNumberOfComponents coordinatesField)).

End NameVocabulary.

(** ** Elements *)

(** [Element.SHAPE_TYPE_*] *)
Inductive ShapeType : Type :=
  | SHAPE_TYPE_INVALID
  | SHAPE_TYPE_LINE
  | SHAPE_TYPE_SQUARE
  | SHAPE_TYPE_TRIANGLE
  | SHAPE_TYPE_CUBE.

(** [Elementbasis.FUNCTION_TYPE_*] *)
Inductive FunctionType : Type :=
  | FUNCTION_TYPE_LINEAR_LAGRANGE
  | FUNCTION_TYPE_LINEAR_SIMPLEX.

(** [fieldmodule.createElementbasis(dimension, functionType)] *)
Record Elementbasis : Type := {
  basisDimension : nat;
  basisFunctionType : FunctionType
}.

Definition createElementbasis (dimension : nat) (functionType : FunctionType)
  : Elementbasis :=
  {| basisDimension := dimension; basisFunctionType := functionType |}.

(** Modelled from the spec: the node count a basis requires, one node
    for each corner: [dimension + 1] for a simplex, [2 ^ dimension] for
    a Lagrange basis. *)
Definition basisNumberOfNodes (basis : Elementbasis) : nat :=
  match basisFunctionType basis with
  | FUNCTION_TYPE_LINEAR_LAGRANGE => 2 ^ basisDimension basis
  | FUNCTION_TYPE_LINEAR_SIMPLEX => basisDimension basis + 1
  end.

(** [mesh.createElementfieldtemplate(basis)] *)
Record Elementfieldtemplate : Type := {
  eftBasis : Elementbasis
}.

Definition createElementfieldtemplate (basis : Elementbasis) : Elementfieldtemplate :=
  {| eftBasis := basis |}.

(** [mesh.createElementtemplate()] with [setElementShapeType] and
    [defineField(field, component, eft)]. *)
Record Elementtemplate : Type := {
  templateShape : ShapeType;
  templateFields : list (Field * Z * Elementfieldtemplate)
}.

Definition createElementtemplate : Elementtemplate :=
  {| templateShape := SHAPE_TYPE_INVALID; templateFields := [] |}.

Definition setElementShapeType (template : Elementtemplate) (shape : ShapeType)
  : Elementtemplate :=
  {| templateShape := shape; templateFields := templateFields template |}.

Definition elementDefineField (template : Elementtemplate) (field : Field)
    (component : Z) (eft : Elementfieldtemplate) : Elementtemplate :=
  {| templateShape := templateShape template;
     templateFields := templateFields template ++ [(field, component, eft)] |}.

(** Modelled from the spec: an element has a shape, the fields its
    template defined, and the identifiers of its local nodes, in order
    (none until they are set). *)
Record Element : Type := {
  elementShape : ShapeType;
  elementFields : list (Field * Z * Elementfieldtemplate);
  elementNodes : list Z
}.

(** Modelled from the spec: a [Mesh] has a dimension and maps the
    element identifiers in use to their elements. *)
Record Mesh : Type := {
  getDimension : nat;
  meshElements : gmap Z Element
}.

(** Modelled from the spec: the smallest identifier from [i] on that
    is not in use in a map, looking at [fuel] identifiers at most. *)
Fixpoint smallestUnused {V : Type} (m : gmap Z V) (fuel : nat) (i : Z) : Z :=
  match fuel with
  | 0 => i
  | S fuel => if decide (is_Some (m !! i)) then smallestUnused m fuel (i + 1)%Z else i
  end.

(** Modelled from the spec: [mesh.createElement(idHint, template)],
    with the identifier rule of [createNode]. *)
Definition createElement (mesh : Mesh) (idHint : Z) (template : Elementtemplate)
  : option Z * Mesh :=
  let elements := meshElements mesh in
  let identifier :=
    if decide (idHint = (-1)%Z) then Some (smallestUnused elements (size elements) 0%Z)
    else if decide ((0 <= idHint)%Z /\ elements !! idHint = None) then Some idHint
    else None in
  match identifier with
  | Some identifier =>
      let element :=
        {| elementShape := templateShape template;
           elementFields := templateFields template;
           elementNodes := [] |} in
      (Some identifier,
       {| getDimension := getDimension mesh;
          meshElements := <[identifier := element]> elements |})
  | None => (None, mesh)
  end.

Section ElementCreation.
Context {F : Type} `{Scalar F}.
Import MemZinc.

(** Modelled from the spec: [element.setNodesByIdentifier(eft,
    nodeIdentifiers)] binds the local nodes in order; it fails when the
    count is not the one the basis requires or when an identifier is
    not a node of the region. *)
Definition setNodesByIdentifier (mesh : Mesh) (nodes : NodeStore F)
    (element : option Z) (eft : Elementfieldtemplate) (nodeIdentifiers : list Z)
  : Result * Mesh :=
  match element with
  | None => (RESULT_ERROR_ARGUMENT, mesh)
  | Some identifier =>
      match meshElements mesh !! identifier with
      | None => (RESULT_ERROR_ARGUMENT, mesh)
      | Some e =>
          if decide (length nodeIdentifiers = basisNumberOfNodes (eftBasis eft)) then
            if decide (Forall (fun node => is_Some (nodes !! node)) nodeIdentifiers)
            then
              (RESULT_OK,
               {| getDimension := getDimension mesh;
                  meshElements :=
                    <[identifier :=
                        {| elementShape := elementShape e;
                           elementFields := elementFields e;
                           elementNodes := nodeIdentifiers |}]>
                      (meshElements mesh) |})
            else (RESULT_ERROR_ARGUMENT, mesh)
          else (RESULT_ERROR_ARGUMENT, mesh)
      end
  end.

(** The [for element_nodes in element_node_set] loop of
    [createTriangleElements]. *)
Fixpoint createTriangleElements_loop (nodes : NodeStore F)
    (element_template : Elementtemplate) (eft : Elementfieldtemplate)
    (mesh : Mesh) (element_node_set : list (list Z)) : Mesh :=
  match element_node_set with
  | [] => mesh
  | element_nodes :: element_node_set =>
      let '(element, mesh) := createElement mesh (-1)%Z element_template in
      let '(_, mesh) := setNodesByIdentifier mesh nodes element eft element_nodes in
      createTriangleElements_loop nodes element_template eft mesh element_node_set
  end.

(** [createTriangleElements(mesh, finite_element_field, element_node_set)]
    on the mesh and the nodes of its region.  The final
    [fieldmodule.defineAllFaces()] adds elements to the meshes of lower
    dimension, which are not part of this state. *)
Definition createTriangleElements (mesh : Mesh) (nodes : NodeStore F)
    (finite_element_field : Field) (element_node_set : list (list Z)) : Py Mesh :=
  _ <~ py_assert (bool_decide (getDimension mesh = 2)) ;;
  _ <~ py_assert (isValid (castFiniteElement finite_element_field)) ;;
  let element_template := createElementtemplate in
  let element_template := setElementShapeType element_template SHAPE_TYPE_TRIANGLE in
  let linear_basis := createElementbasis 2 FUNCTION_TYPE_LINEAR_SIMPLEX in
  let eft := createElementfieldtemplate linear_basis in
  let element_template :=
    elementDefineField element_template finite_element_field (-1)%Z eft in
  Return (createTriangleElements_loop nodes element_template eft mesh
            element_node_set).

(** [createCubeElement(mesh, finite_element_field, node_coordinate_set)]
    on the mesh and the nodes of its region. *)
Definition createCubeElement (mesh : Mesh) (nodes : NodeStore F)
    (finite_element_field : Field) (node_coordinate_set : list (list F))
  : Py (Mesh * NodeStore F) :=
  _ <~ py_assert (bool_decide (getDimension mesh = 3)) ;;
  _ <~ py_assert (isValid (castFiniteElement finite_element_field)) ;;
  _ <~ py_assert (bool_decide (length node_coordinate_set = 8)) ;;
  let node_template := defineField (newNodetemplate nodes) finite_element_field in
  let element_template := createElementtemplate in
  let element_template := setElementShapeType element_template SHAPE_TYPE_CUBE in
  let linear_basis := createElementbasis 3 FUNCTION_TYPE_LINEAR_LAGRANGE in
  let eft := createElementfieldtemplate linear_basis in
  let element_template :=
    elementDefineField element_template finite_element_field (-1)%Z eft in
  let field_cache := createFieldcache in
  let node_identifiers := [] in
  let '(nodes, node_identifiers) :=
    createCubeElement_nodes finite_element_field node_template field_cache nodes
      node_identifiers node_coordinate_set in
  let '(element, mesh) := createElement mesh (-1)%Z element_template in
  let '(_, mesh) := setNodesByIdentifier mesh nodes element eft node_identifiers in
  Return (mesh, nodes).

(** [createSquareElement(mesh, finite_element_field, node_coordinate_set)]
    on the mesh and the nodes of its region; its node loop is the one
    of [createCubeElement]. *)
Definition createSquareElement (mesh : Mesh) (nodes : NodeStore F)
    (finite_element_field : Field) (node_coordinate_set : list (list F))
  : Py (Mesh * NodeStore F) :=
  _ <~ py_assert (bool_decide (getDimension mesh = 2)) ;;
  _ <~ py_assert (isValid (castFiniteElement finite_element_field)) ;;
  _ <~ py_assert (bool_decide (length node_coordinate_set = 4)) ;;
  let node_template := defineField (newNodetemplate nodes) finite_element_field in
  let element_template := createElementtemplate in
  let element_template := setElementShapeType element_template SHAPE_TYPE_SQUARE in
  let linear_basis := createElementbasis 2 FUNCTION_TYPE_LINEAR_LAGRANGE in
  let eft := createElementfieldtemplate linear_basis in
  let element_template :=
    elementDefineField element_template finite_element_field (-1)%Z eft in
  let field_cache := createFieldcache in
  let node_identifiers := [] in
  let '(nodes, node_identifiers) :=
    createCubeElement_nodes finite_element_field node_template field_cache nodes
      node_identifiers node_coordinate_set in
  let '(element, mesh) := createElement mesh (-1)%Z element_template in
  let '(_, mesh) := setNodesByIdentifier mesh nodes element eft node_identifiers in
  Return (mesh, nodes).

End ElementCreation.

Section ElementVocabulary.
Context {F : Type} `{Scalar F}.

(** The element that [createTriangleElements] makes for the node
    identifiers [element_nodes]: a triangle on these nodes when they
    are three nodes of the region, and a triangle without nodes when
    they are not. *)
Definition triangleElement (nodes : NodeStore F) (finite_element_field : Field)
    (element_nodes : list Z) : Element :=
  {| elementShape := SHAPE_TYPE_TRIANGLE;
     elementFields :=
       [(finite_element_field, (-1)%Z,
         createElementfieldtemplate
           (createElementbasis 2 FUNCTION_TYPE_LINEAR_SIMPLEX))];
     elementNodes :=
       if decide (length element_nodes = 3
                  /\ Forall (fun node => is_Some (nodes !! node)) element_nodes)
       then element_nodes
       else [] |}.

End ElementVocabulary.

(** * Properties *)

(** ** Python dictionaries *)

Lemma dict_get_set {V : Type} (d : list (string * V)) (k k' : string) (v : V) :
  dict_get (dict_set d k v) k' = if decide (k = k') then Some v else dict_get d k'.
Proof.
  induction d as [|[k0 v0] d IH]; simpl.
  - repeat case_decide; congruence.
  - destruct (decide (k0 = k)) as [->|Hne]; simpl.
    + repeat case_decide; congruence.
    + rewrite IH. repeat case_decide; congruence.
Qed.

(** ** Searching and averaging over a nodeset *)

Section NodesetProperties.
Context {F : Type} `{Scalar F} {Node : Type}.
Variable evaluateString : Field -> Fieldcache F Node -> option string.
Variable evaluateReal : Field -> Fieldcache F Node -> nat -> Result * list F.

Lemma setNode_time (c c' : Fieldcache F Node) (node : Node) :
  cacheTime c = cacheTime c' -> setNode c node = setNode c' node.
Proof. unfold setNode. intros ->. reflexivity. Qed.

Lemma findNodeWithName_loop_spec nameField name nodeiter :
  forall fieldcache nodeWithName,
    cacheTime fieldcache = fzero ->
    findNodeWithName_loop evaluateString nameField name fieldcache nodeWithName
      nodeiter
    = match nodeWithName, nodesNamed evaluateString nameField name nodeiter with
      | None, [node] => Some node
      | None, _ => None
      | Some found, [] => Some found
      | Some _, _ :: _ => None
      end.
Proof.
  unfold nodesNamed.
  induction nodeiter as [|node nodeiter IH]; intros fieldcache nodeWithName Ht.
  - destruct nodeWithName; reflexivity.
  - simpl findNodeWithName_loop.
    rewrite (setNode_time fieldcache createFieldcache node) by exact Ht.
    rewrite filter_cons.
    destruct (decide (evaluateString nameField (setNode createFieldcache node) = name))
      as [Heq|Hne].
    + destruct nodeWithName as [found|]; [reflexivity|].
      rewrite IH by reflexivity.
      destruct (filter _ nodeiter) as [|? ?]; reflexivity.
    + apply IH. reflexivity.
Qed.

(** C5. [findNodeWithName] returns the node whose name field evaluates
    to the given name when exactly one node of the nodeset does, and
    [None] both when no node does and when two or more do. *)
Theorem findNodeWithName_unique_or_None (nodeset : list Node) (nameField : Field)
    (name : option string) :
  findNodeWithName evaluateString nodeset nameField name
  = match nodesNamed evaluateString nameField name nodeset with
    | [node] => Some node
    | _ => None
    end.
Proof.
  unfold findNodeWithName.
  rewrite findNodeWithName_loop_spec by reflexivity.
  reflexivity.
Qed.

(** The evaluation of an aggregate field over an empty nodeset fails,
    with no component defined, whatever the kind. *)
Lemma evaluateRealAggregate_empty kind source (fieldcache : Fieldcache F Node) count :
  evaluateRealAggregate evaluateReal
    {| aggregateKind := kind; aggregateSource := source; aggregateNodeset := [] |}
    fieldcache count
  = (RESULT_ERROR_NOT_EVALUABLE, []).
Proof. destruct kind; reflexivity. Qed.

(** C4, as the code has it.  Over an empty nodeset the minimum, the
    maximum and the mean fail with a result that is not [RESULT_OK] and
    defines no component, and [evaluateNodesetCoordinatesRange] and
    [evaluateNodesetMeanCoordinates] do not return it: their
    [assert result == RESULT_OK] raises [AssertionError]. *)
Theorem evaluateNodeset_empty_raises (coordinates : Field) :
  (forall kind (fieldcache : Fieldcache F Node) count,
      evaluateRealAggregate evaluateReal
        {| aggregateKind := kind; aggregateSource := coordinates;
           aggregateNodeset := [] |} fieldcache count
      = (RESULT_ERROR_NOT_EVALUABLE, []))
  /\ evaluateNodesetCoordinatesRange evaluateReal coordinates []
     = Raise AssertionError
  /\ evaluateNodesetMeanCoordinates evaluateReal coordinates []
     = Raise AssertionError.
Proof.
  split; [|split].
  - intros. apply evaluateRealAggregate_empty.
  - reflexivity.
  - reflexivity.
Qed.

End NodesetProperties.

(** C4, as stated, fails: on an empty nodeset
    [evaluateNodesetCoordinatesRange] and
    [evaluateNodesetMeanCoordinates] return no result at all, defined
    or not. *)
Lemma evaluateNodeset_empty_no_result :
  ~ ((exists range,
        evaluateNodesetCoordinatesRange (Sample.coordinates [])
          (Sample.coordinatesField 2) [] = Return range)
     \/ (exists mean,
           evaluateNodesetMeanCoordinates (Sample.coordinates [])
             (Sample.coordinatesField 2) [] = Return mean)).
Proof. intros [[range Hr]|[mean Hm]]; discriminate. Qed.

(** C6, on the input of the spec.  For the nodes named A, A, B at
    (0,0), (2,0), (5,5), [getNodeNameCentres] returns no mapping: the
    second node named A reaches [nameRecord[1] += 1] on the tuple
    [(coordinates, 1)], which raises [TypeError]. *)
Theorem getNodeNameCentres_repeated_name_raises :
  getNodeNameCentres
    (Sample.names [Some "A"; Some "A"; Some "B"]%string)
    (Sample.coordinates
       [(RESULT_OK, [Sample.q 0; Sample.q 0]);
        (RESULT_OK, [Sample.q 2; Sample.q 0]);
        (RESULT_OK, [Sample.q 5; Sample.q 5])])
    [0; 1; 2] (Sample.coordinatesField 2) Sample.nameField
  = Raise TypeError.
Proof. vm_compute. reflexivity. Qed.

Section NameCentresProperties.
Context {F : Type} `{Scalar F} {Node : Type}.
Variable evaluateString : Field -> Fieldcache F Node -> option string.
Variable evaluateReal : Field -> Fieldcache F Node -> nat -> Result * list F.
Variables coordinatesField nameField : Field.

Let componentsCount := getNumberOfComponents coordinatesField.
Let counts := namedAndEvaluable evaluateString evaluateReal coordinatesField nameField.
Let step := getNodeNameCentres_node evaluateString evaluateReal coordinatesField
              nameField componentsCount.
Let loop := getNodeNameCentres_nodes evaluateString evaluateReal coordinatesField
              nameField componentsCount.

(** The loop depends on the cache through its time only. *)
Lemma getNodeNameCentres_nodes_cache nodeiter :
  forall (c c' : Fieldcache F Node) nameRecords,
    cacheTime c = cacheTime c' ->
    loop c nameRecords nodeiter = loop c' nameRecords nodeiter.
Proof.
  unfold loop in *.
  induction nodeiter as [|node nodeiter IH]; intros c c' nameRecords Ht; simpl.
  - reflexivity.
  - unfold getNodeNameCentres_node.
    rewrite (setNode_time c c' node Ht). reflexivity.
Qed.

(** A node that does not count leaves the name records as they are. *)
Lemma getNodeNameCentres_node_skip (c : Fieldcache F Node) nameRecords node :
  cacheTime c = fzero ->
  counts node = false ->
  step c nameRecords node = Return nameRecords.
Proof.
  unfold step, counts in *. unfold getNodeNameCentres_node, namedAndEvaluable.
  intros Ht Hc.
  rewrite (setNode_time c createFieldcache node) by exact Ht.
  fold componentsCount in Hc.
  destruct (evaluateReal coordinatesField (setNode createFieldcache node)
              componentsCount) as [result coordinates].
  simpl in Hc. rewrite Hc. reflexivity.
Qed.

(** A node that counts and whose name already has a record raises: its
    record is a tuple, and [nameRecord[1] += 1] assigns to it. *)
Lemma getNodeNameCentres_node_repeated (c : Fieldcache F Node) nameRecords node
    (s : string) (nameRecord : list F * nat) :
  cacheTime c = fzero ->
  counts node = true ->
  evaluateString nameField (setNode createFieldcache node) = Some s ->
  dict_get nameRecords s = Some nameRecord ->
  exists e, step c nameRecords node = Raise e.
Proof.
  unfold step, counts in *. unfold getNodeNameCentres_node, namedAndEvaluable.
  intros Ht Hc Hs Hget.
  rewrite (setNode_time c createFieldcache node) by exact Ht.
  fold componentsCount in Hc.
  destruct (evaluateReal coordinatesField (setNode createFieldcache node)
              componentsCount) as [result coordinates].
  simpl in Hc. rewrite Hc, Hs. simpl. rewrite Hget.
  destruct (add_components _ _ _) as [nameCentre|e]; simpl; eauto.
Qed.

Lemma getNodeNameCentres_nodes_filter nodeiter :
  forall (c : Fieldcache F Node) nameRecords,
    cacheTime c = fzero ->
    loop c nameRecords nodeiter
    = loop c nameRecords (filter (fun node => counts node = true) nodeiter).
Proof.
  induction nodeiter as [|node nodeiter IH]; intros c nameRecords Ht.
  - reflexivity.
  - rewrite filter_cons. destruct (decide (counts node = true)) as [Hc|Hc].
    + unfold loop in *. simpl.
      destruct (getNodeNameCentres_node _ _ _ _ _ c nameRecords node)
        as [nameRecords'|e]; simpl; [|reflexivity].
      apply IH. exact Ht.
    + apply not_true_is_false in Hc.
      pose proof (getNodeNameCentres_node_skip c nameRecords node Ht Hc) as Hs.
      unfold loop, step in *. simpl. rewrite Hs. simpl.
      rewrite (IH (setNode c node) nameRecords Ht).
      apply getNodeNameCentres_nodes_cache. reflexivity.
Qed.

(** A node that returns records adds no name that only nodes that do
    not count carry. *)
Lemma getNodeNameCentres_node_absent (c : Fieldcache F Node) nameRecords
    nameRecords' node name :
  cacheTime c = fzero ->
  step c nameRecords node = Return nameRecords' ->
  dict_get nameRecords name = None ->
  (evaluateString nameField (setNode createFieldcache node) = Some name ->
   counts node = false) ->
  dict_get nameRecords' name = None.
Proof.
  unfold step, counts in *. unfold getNodeNameCentres_node, namedAndEvaluable.
  intros Ht Hstep Hget Hname.
  rewrite (setNode_time c createFieldcache node) in Hstep by exact Ht.
  fold componentsCount in Hname.
  destruct (evaluateReal coordinatesField (setNode createFieldcache node)
              componentsCount) as [result coordinates].
  simpl in Hname.
  destruct (str_truthy _ && bool_decide (result = RESULT_OK)) eqn:Hc.
  - destruct (evaluateString nameField (setNode createFieldcache node))
      as [s|] eqn:Hs; [|discriminate Hc].
    simpl in Hstep.
    destruct (dict_get nameRecords s) as [nameRecord|].
    + destruct (add_components _ _ _); discriminate Hstep.
    + injection Hstep as <-. rewrite dict_get_set.
      destruct (decide (s = name)) as [->|]; [|exact Hget].
      specialize (Hname eq_refl). congruence.
  - injection Hstep as <-. exact Hget.
Qed.

Lemma getNodeNameCentres_nodes_absent nodeiter name :
  forall (c : Fieldcache F Node) nameRecords nameRecords',
    cacheTime c = fzero ->
    loop c nameRecords nodeiter = Return nameRecords' ->
    dict_get nameRecords name = None ->
    (forall node, node ∈ nodeiter ->
       evaluateString nameField (setNode createFieldcache node) = Some name ->
       counts node = false) ->
    dict_get nameRecords' name = None.
Proof.
  induction nodeiter as [|node nodeiter IH];
    intros c nameRecords nameRecords' Ht Hloop Hget Hall.
  - injection Hloop as <-. exact Hget.
  - unfold loop in *. simpl in Hloop.
    destruct (getNodeNameCentres_node _ _ _ _ _ c nameRecords node)
      as [nameRecords1|e] eqn:Hstep; simpl in Hloop; [|discriminate].
    apply (IH (setNode c node) nameRecords1 nameRecords' Ht Hloop).
    + apply (getNodeNameCentres_node_absent c nameRecords nameRecords1 node name Ht
               Hstep Hget).
      apply Hall. left.
    + intros node' Hin. apply Hall. right. exact Hin.
Qed.

Lemma getNodeNameCentres_divide_absent count (nameRecords : list (string * (list F * nat)))
    name :
  forall nameCentres nameCentres',
    getNodeNameCentres_divide count nameRecords nameCentres = Return nameCentres' ->
    dict_get nameRecords name = None ->
    dict_get nameCentres name = None ->
    dict_get nameCentres' name = None.
Proof.
  induction nameRecords as [|[k nameRecord] nameRecords IH];
    intros nameCentres nameCentres' Hdiv Hrec Hcen.
  - injection Hdiv as <-. exact Hcen.
  - simpl in Hdiv, Hrec.
    destruct (decide (k = name)) as [|Hne]; [discriminate Hrec|].
    match type of Hdiv with
    | bindPy ?m _ = _ => destruct m as [nameCentre|e]
    end; simpl in Hdiv; [|discriminate].
    apply (IH _ _ Hdiv Hrec).
    rewrite dict_get_set. destruct (decide (k = name)); [contradiction|exact Hcen].
Qed.

(** C10. [getNodeNameCentres] gives the same outcome on a nodeset as on
    the nodeset without the nodes whose name is undefined or empty or
    whose coordinates do not evaluate, and a name that only such nodes
    carry is not a key of the mapping returned. *)
Theorem getNodeNameCentres_excludes (nodeset : list Node) :
  getNodeNameCentres evaluateString evaluateReal nodeset coordinatesField nameField
  = getNodeNameCentres evaluateString evaluateReal
      (filter (fun node => counts node = true) nodeset) coordinatesField nameField
  /\ forall name nameCentres,
       getNodeNameCentres evaluateString evaluateReal nodeset coordinatesField
         nameField = Return nameCentres ->
       (forall node, node ∈ nodeset ->
          evaluateString nameField (setNode createFieldcache node) = Some name ->
          counts node = false) ->
       dict_get nameCentres name = None.
Proof.
  split.
  - unfold getNodeNameCentres. fold componentsCount. fold loop.
    rewrite (getNodeNameCentres_nodes_filter nodeset createFieldcache [] eq_refl).
    reflexivity.
  - intros name nameCentres Hret Hall.
    unfold getNodeNameCentres in Hret. fold componentsCount in Hret. fold loop in Hret.
    destruct (loop createFieldcache [] nodeset) as [nameRecords|e] eqn:Hloop;
      simpl in Hret; [|discriminate].
    apply (getNodeNameCentres_divide_absent componentsCount nameRecords name []
             nameCentres Hret); [|reflexivity].
    apply (getNodeNameCentres_nodes_absent nodeset name createFieldcache []
             nameRecords eq_refl Hloop eq_refl Hall).
Qed.

End NameCentresProperties.

(** ** The sweep of [transformCoordinates], over any engine *)

Section TransformProperties.
Context {F : Type} `{Scalar F} {Store Node Nodetemplate : Type}
  `{Zinc F Store Node Nodetemplate}.
Variable field : Field.
Variable rotationScale : list (list F).
Variable offset : list F.

Let ncomp := getNumberOfComponents field.

Lemma sweepLog_app (l1 l2 : list (Call F Node)) :
  sweepLog field rotationScale offset l1 ->
  sweepLog field rotationScale offset l2 ->
  sweepLog field rotationScale offset (l1 ++ l2).
Proof.
  intros Hl1 Hl2. induction Hl1; simpl.
  - exact Hl2.
  - apply sweepLog_node. assumption.
  - apply sweepLog_failed; assumption.
  - apply sweepLog_written. assumption.
Qed.

Lemma nodesVisited_app (l1 l2 : list (Call F Node)) :
  nodesVisited (l1 ++ l2) = nodesVisited l1 ++ nodesVisited l2.
Proof. unfold nodesVisited. apply omap_app. Qed.

Lemma continues_refl (s : Sweep F Store Node) :
  continues field rotationScale offset [] s s.
Proof.
  exists []. rewrite app_nil_r. simpl. rewrite andb_true_r.
  split; [reflexivity|]. split; [apply sweepLog_nil|]. split; reflexivity.
Qed.

Lemma continues_trans visited1 visited2 (s1 s2 s3 : Sweep F Store Node) :
  continues field rotationScale offset visited1 s1 s2 ->
  continues field rotationScale offset visited2 s2 s3 ->
  continues field rotationScale offset (visited1 ++ visited2) s1 s3.
Proof.
  intros (l1 & Hc1 & Hl1 & Hv1 & Hs1) (l2 & Hc2 & Hl2 & Hv2 & Hs2).
  exists (l1 ++ l2). split; [|split; [|split]].
  - rewrite Hc2, Hc1, app_assoc. reflexivity.
  - apply sweepLog_app; assumption.
  - rewrite nodesVisited_app, Hv1, Hv2. reflexivity.
  - rewrite Hs2, Hs1, forallb_app, andb_assoc. reflexivity.
Qed.

Lemma continues_foldl {A : Type} (f : Sweep F Store Node -> A -> Sweep F Store Node)
    (l : list A) :
  (forall s x, continues field rotationScale offset [] s (f s x)) ->
  forall s, continues field rotationScale offset [] s (foldl f s l).
Proof.
  intros Hf. induction l as [|x l IH]; intros s; simpl.
  - apply continues_refl.
  - apply (continues_trans [] [] s (f s x)); [apply Hf|apply IH].
Qed.

Lemma transformCoordinates_version_continues cache node derivative
    (s : Sweep F Store Node) v :
  continues field rotationScale offset [] s
    (transformCoordinates_version field rotationScale offset ncomp cache node
       derivative s v).
Proof.
  unfold transformCoordinates_version.
  destruct (getNodeParameters (store s) cache field (-1)%Z derivative (v + 1) ncomp)
    as [result values].
  simpl. destruct (decide (result <> RESULT_OK)) as [Hr|Hr].
  - eexists. split; [reflexivity|]. simpl. split; [|split].
    + apply sweepLog_failed; [exact Hr|apply sweepLog_nil].
    + reflexivity.
    + rewrite bool_decide_eq_false_2 by exact Hr.
      simpl. rewrite andb_false_r. reflexivity.
  - apply dec_stable in Hr. subst result.
    destruct (setNodeParameters (store s) cache field (-1)%Z derivative (v + 1)
                (transformValues rotationScale offset derivative values))
      as [result store'].
    eexists. split; [simpl; rewrite <- app_assoc; reflexivity|].
    simpl. split; [|split].
    + apply sweepLog_written. apply sweepLog_nil.
    + reflexivity.
    + rewrite andb_true_r.
      destruct (decide (result <> RESULT_OK)) as [Hr|Hr].
      * rewrite bool_decide_eq_false_2 by exact Hr. rewrite andb_false_r. reflexivity.
      * apply dec_stable in Hr. subst result. simpl. rewrite andb_true_r. reflexivity.
Qed.

Lemma transformCoordinates_derivative_continues nodetemplate cache node
    (s : Sweep F Store Node) derivative :
  continues field rotationScale offset [] s
    (transformCoordinates_derivative field rotationScale offset ncomp nodetemplate
       cache node s derivative).
Proof.
  unfold transformCoordinates_derivative.
  apply continues_foldl. intros s' v. apply transformCoordinates_version_continues.
Qed.

Lemma transformCoordinates_nodes_continues nodeIter :
  forall nodetemplate cache (s : Sweep F Store Node),
    continues field rotationScale offset nodeIter s
      (transformCoordinates_nodes field rotationScale offset ncomp nodetemplate
         cache s nodeIter).
Proof.
  induction nodeIter as [|node nodeIter IH]; intros nodetemplate cache s;
    cbn [transformCoordinates_nodes].
  - apply continues_refl.
  - apply (continues_trans [node] nodeIter s
             {| success := success s; store := store s;
                calls := calls s ++ [CallSetNode node] |}).
    + exists [CallSetNode node]. simpl. rewrite andb_true_r.
      split; [reflexivity|]. split; [|split; reflexivity].
      apply sweepLog_node. apply sweepLog_nil.
    + eapply (continues_trans [] nodeIter); [|apply IH].
      apply continues_foldl. intros s' derivative.
      apply transformCoordinates_derivative_continues.
Qed.

(** When the arguments are valid, the function is the sweep. *)
Lemma transformCoordinates_valid (fm : Store) (time : F) :
  validArguments field rotationScale offset ->
  transformCoordinates fm field rotationScale offset time
  = transformCoordinates_nodes field rotationScale offset ncomp
      (createNodetemplate fm) (setTime createFieldcache time)
      {| success := true; store := fm; calls := [] |} (nodesetNodes fm).
Proof.
  intros (Hn & Hm & Hrows & Ho & Hcs & Hfe).
  unfold transformCoordinates. fold ncomp in Hn, Hm, Hrows, Ho |- *.
  replace (bool_decide (ncomp <> 2) && bool_decide (ncomp <> 3)) with false
    by (symmetry; destruct Hn as [->| ->]; reflexivity).
  rewrite (bool_decide_eq_false_2 (length rotationScale <> ncomp)) by tauto.
  rewrite (bool_decide_eq_false_2 (length offset <> ncomp)) by tauto.
  simpl.
  replace (existsb _ rotationScale) with false.
  2:{ symmetry. apply not_true_is_false. intros Hex.
      apply existsb_exists in Hex. destruct Hex as (matRow & Hin & Hlen).
      apply bool_decide_eq_true in Hlen. apply Hlen, Hrows.
      apply list_elem_of_In. exact Hin. }
  destruct (decide (getCoordinateSystemType field
                    <> COORDINATE_SYSTEM_TYPE_RECTANGULAR_CARTESIAN)) as [Hne|_];
    [contradiction|].
  unfold castFiniteElement. rewrite Hfe. reflexivity.
Qed.

(** Otherwise nothing is done. *)
Lemma transformCoordinates_cases (fm : Store) (time : F) :
  transformCoordinates fm field rotationScale offset time
  = {| success := false; store := fm; calls := [] |}
  \/ transformCoordinates fm field rotationScale offset time
     = transformCoordinates_nodes field rotationScale offset ncomp
         (createNodetemplate fm) (setTime createFieldcache time)
         {| success := true; store := fm; calls := [] |} (nodesetNodes fm).
Proof.
  unfold transformCoordinates. fold ncomp.
  destruct (bool_decide (ncomp <> 2) && bool_decide (ncomp <> 3)); [left; reflexivity|].
  destruct (bool_decide (length rotationScale <> ncomp)
            || bool_decide (length offset <> ncomp)); [left; reflexivity|].
  destruct (existsb _ rotationScale); [left; reflexivity|].
  destruct (decide (getCoordinateSystemType field
                    <> COORDINATE_SYSTEM_TYPE_RECTANGULAR_CARTESIAN));
    [left; reflexivity|].
  unfold castFiniteElement.
  destruct (isFiniteElement field); [right|left]; reflexivity.
Qed.

(** C2. When a precondition fails (the component count is neither 2
    nor 3, [rotationScale] is not square of that size, [offset] has not
    that length, the coordinate system is not rectangular cartesian, or
    the field is not finite-element-typed), [transformCoordinates]
    returns [False], makes no call that reads or writes a parameter,
    and leaves the region as it was. *)
Theorem transformCoordinates_invalid_unchanged (fm : Store) (time : F) :
  (getNumberOfComponents field <> 2 /\ getNumberOfComponents field <> 3)
  \/ length rotationScale <> getNumberOfComponents field
  \/ (exists matRow, matRow ∈ rotationScale
        /\ length matRow <> getNumberOfComponents field)
  \/ length offset <> getNumberOfComponents field
  \/ getCoordinateSystemType field <> COORDINATE_SYSTEM_TYPE_RECTANGULAR_CARTESIAN
  \/ isFiniteElement field = false ->
  transformCoordinates fm field rotationScale offset time
  = {| success := false; store := fm; calls := [] |}.
Proof.
  intros Hbad. unfold transformCoordinates. fold ncomp in Hbad |- *.
  destruct (bool_decide (ncomp <> 2) && bool_decide (ncomp <> 3)) eqn:Hn;
    [reflexivity|].
  destruct (bool_decide (length rotationScale <> ncomp)
            || bool_decide (length offset <> ncomp)) eqn:Hlen; [reflexivity|].
  destruct (existsb _ rotationScale) eqn:Hrows; [reflexivity|].
  destruct (decide (getCoordinateSystemType field
                    <> COORDINATE_SYSTEM_TYPE_RECTANGULAR_CARTESIAN)) as [|Hcs];
    [reflexivity|].
  unfold castFiniteElement.
  destruct (isFiniteElement field) eqn:Hfe; [|reflexivity].
  exfalso.
  apply andb_false_iff in Hn. apply orb_false_iff in Hlen.
  destruct Hlen as [Hm Ho].
  apply bool_decide_eq_false in Hm, Ho.
  destruct Hbad as [[H2 H3]|[Hb|[(matRow & Hin & Hb)|[Hb|[Hb|Hb]]]]].
  - destruct Hn as [Hn|Hn]; apply bool_decide_eq_false in Hn; tauto.
  - tauto.
  - assert (existsb (fun matRow => bool_decide (length matRow <> ncomp)) rotationScale
            = true) as Hex; [|congruence].
    apply existsb_exists. exists matRow. split.
    + apply list_elem_of_In. exact Hin.
    + apply bool_decide_eq_true. exact Hb.
  - tauto.
  - tauto.
  - discriminate.
Qed.


Lemma sweepLog_read_then_written (l : list (Call F Node)) :
  sweepLog field rotationScale offset l ->
  forall l1 l2 node field' derivative version values,
    l = l1 ++ CallGet node field' derivative version RESULT_OK values :: l2 ->
    exists result l3,
      l2 = CallSet node field' derivative version
             (transformValues rotationScale offset derivative values) result :: l3.
Proof.
  induction 1 as [|node0 l Hl IH|node0 d0 v0 r0 vals0 l Hr Hl IH
                  |node0 d0 v0 vals0 r0 l Hl IH];
    intros l1 l2 node field' derivative version values Heq.
  - destruct l1; discriminate.
  - destruct l1 as [|c l1]; [discriminate|].
    injection Heq as _ Heq. eapply IH. exact Heq.
  - destruct l1 as [|c l1].
    + injection Heq as _ _ _ _ Hres _ _. congruence.
    + injection Heq as _ Heq. eapply IH. exact Heq.
  - destruct l1 as [|c l1].
    + injection Heq as <- <- <- <- <- <-. eauto.
    + injection Heq as _ Heq. destruct l1 as [|c' l1]; [discriminate|].
      injection Heq as _ Heq. eapply IH. exact Heq.
Qed.

(** Over any engine, on valid arguments, every [getNodeParameters]
    call of the sweep that returns [RESULT_OK] with [values] is
    followed at once by the [setNodeParameters] call to the same node,
    label and version, with [rotationScale · values], plus [offset]
    exactly when the label is [VALUE_LABEL_VALUE]. *)
Lemma sweep_read_then_written (fm : Store) (time : F)
    l1 l2 node field' derivative version values :
  validArguments field rotationScale offset ->
  calls (transformCoordinates fm field rotationScale offset time)
  = l1 ++ CallGet node field' derivative version RESULT_OK values :: l2 ->
  exists result l3,
    l2 = CallSet node field' derivative version
           (if decide (derivative = VALUE_LABEL_VALUE)
            then vectorops.add (vectorops.matrixvectormult rotationScale values)
                   offset
            else vectorops.matrixvectormult rotationScale values)
           result :: l3.
Proof.
  intros Hvalid Hcalls.
  rewrite (transformCoordinates_valid fm time Hvalid) in Hcalls.
  destruct (transformCoordinates_nodes_continues (nodesetNodes fm)
              (createNodetemplate fm) (setTime createFieldcache time)
              {| success := true; store := fm; calls := [] |})
    as (l & Hl & Hlog & _ & _).
  simpl in Hl. rewrite Hl in Hcalls.
  apply (sweepLog_read_then_written l Hlog _ _ _ _ _ _ _ Hcalls).
Qed.

End TransformProperties.

(** ** The in-memory engine: slots *)

Section MemZincProperties.
Context {F : Type} `{Scalar F}.
Import MemZinc.

Lemma slot_writeSlot (fm : NodeStore F) node name derivative index old values
    node' name' derivative' version' :
  slot fm node name derivative (S index) = Some old ->
  slot (writeSlot fm node name derivative index values) node' name' derivative'
    version'
  = if decide (node' = node /\ name' = name /\ derivative' = derivative
               /\ version' = S index)
    then Some values
    else slot fm node' name' derivative' version'.
Proof.
  unfold slot, writeSlot. intros Hold.
  destruct (fm !! node) as [data|] eqn:Hnode; [|discriminate].
  simpl in Hold.
  destruct (data !! (name, derivative)) as [versions|] eqn:Hdata; [|discriminate].
  simpl in Hold.
  destruct version' as [|index'].
  { rewrite decide_False by (intros (_ & _ & _ & ?); discriminate). reflexivity. }
  destruct (decide (node' = node)) as [->|Hn].
  2:{ rewrite lookup_insert_ne by congruence.
      rewrite decide_False by tauto. reflexivity. }
  rewrite lookup_insert_eq. simpl. rewrite Hnode. simpl.
  destruct (decide ((name', derivative') = (name, derivative))) as [Hk|Hk].
  2:{ rewrite lookup_insert_ne by congruence.
      rewrite decide_False; [reflexivity|].
      intros (_ & -> & -> & _). contradiction. }
  injection Hk as -> ->.
  rewrite lookup_insert_eq, Hdata. simpl.
  destruct (decide (index' = index)) as [->|Hi].
  - rewrite decide_True by tauto.
    apply list_lookup_insert_eq. eapply lookup_lt_Some. exact Hold.
  - rewrite list_lookup_insert_ne by congruence.
    rewrite decide_False; [reflexivity|].
    intros (_ & _ & _ & Hv). congruence.
Qed.


(** A read succeeds exactly on a readable slot, and returns what the
    slot holds. *)
Lemma nodeParameters_OK (fm : NodeStore F) cache node field component derivative
    version count values :
  cacheNode cache = Some node ->
  nodeParameters fm cache field component derivative version count
  = (RESULT_OK, values) ->
  slot fm node (getName field) derivative version = Some values
  /\ length values = count.
Proof.
  unfold nodeParameters. intros -> Hget.
  destruct (slot fm node (getName field) derivative version) as [stored|];
    [|discriminate].
  destruct (decide (length stored = count)); [|discriminate].
  injection Hget as <-. split; [reflexivity|assumption].
Qed.

Lemma nodeParameters_readable (fm : NodeStore F) cache node field component
    derivative version :
  cacheNode cache = Some node ->
  fst (nodeParameters fm cache field component derivative version
         (getNumberOfComponents field)) = RESULT_OK
  <-> readable fm (getName field) (getNumberOfComponents field) node derivative
        version.
Proof.
  unfold nodeParameters, readable. intros ->.
  destruct (slot fm node (getName field) derivative version) as [stored|]; simpl.
  - destruct (decide (length stored = getNumberOfComponents field)); simpl;
      split; intros; try assumption; try reflexivity; try discriminate; tauto.
  - split; [discriminate|tauto].
Qed.

Lemma readable_decide (fm : NodeStore F) name count node derivative version :
  readable fm name count node derivative version
  \/ ~ readable fm name count node derivative version.
Proof.
  unfold readable.
  destruct (slot fm node name derivative version) as [values|]; [|tauto].
  destruct (decide (length values = count)); tauto.
Qed.

(** ** The in-memory engine: what a sweep keeps true *)

Section SweepInvariant.
Variable field : Field.
Variable rotationScale : list (list F).
Variable offset : list F.
Variable fm : NodeStore F.

Local Abbreviation ncomp := (getNumberOfComponents field).
Local Abbreviation name := (getName field).

Lemma sweepInvariant_start :
  sweepInvariant field fm {| success := true; store := fm; calls := [] |}.
Proof.
  split; simpl; intros; try reflexivity; try assumption.
  - exfalso. eapply not_elem_of_nil. eassumption.
  - exfalso. eapply not_elem_of_nil. eassumption.
Qed.

Lemma sweepInvariant_bind (s : Sweep F (NodeStore F) Z) (node : Z) :
  sweepInvariant field fm s ->
  sweepInvariant field fm
    {| success := success s; store := store s;
       calls := calls s ++ [CallSetNode node] |}.
Proof.
  intros [Hu Hr Ho Hw Hf]. split; simpl; try assumption.
  - intros node' field' derivative version values result Hin.
    apply elem_of_app in Hin. destruct Hin as [Hin|Hin]; [eauto|].
    apply list_elem_of_singleton in Hin. discriminate.
  - intros node' field' derivative version result values Hin.
    apply elem_of_app in Hin. destruct Hin as [Hin|Hin]; [eauto|].
    apply list_elem_of_singleton in Hin. discriminate.
Qed.

Lemma sweepInvariant_version (cache : Fieldcache F Z) (node : Z)
    (derivative : ValueLabel) (s : Sweep F (NodeStore F) Z) (v : nat) :
  cacheNode cache = Some node ->
  sweepInvariant field fm s ->
  sweepInvariant field fm
    (transformCoordinates_version field rotationScale offset ncomp cache node
       derivative s v).
Proof.
  intros Hcache [Hu Hr Ho Hw Hf].
  unfold transformCoordinates_version.
  cbn [getNodeParameters setNodeParameters MemZinc_Zinc].
  destruct (nodeParameters (store s) cache field (-1)%Z derivative (v + 1) ncomp)
    as [result values] eqn:Hget.
  cbn [success store calls].
  destruct (decide (result <> RESULT_OK)) as [Hres|Hres].
  - (* the read failed: nothing is written *)
    split; cbn [success store calls]; try assumption.
    + intros node' field' derivative' version values' result' Hin.
      apply elem_of_app in Hin. destruct Hin as [Hin|Hin]; [eauto|].
      apply list_elem_of_singleton in Hin. discriminate.
    + intros node' field' derivative' version result' values' Hin Hne.
      apply elem_of_app in Hin. destruct Hin as [Hin|Hin]; [eauto|].
      apply list_elem_of_singleton in Hin.
      injection Hin as -> -> -> -> -> ->.
      intros Hreadable. apply Hr in Hreadable.
      apply (nodeParameters_readable (store s) cache node field (-1)%Z derivative
               (v + 1) Hcache) in Hreadable.
      rewrite Hget in Hreadable. contradiction.
  - (* the read succeeded *)
    apply dec_stable in Hres. subst result.
    destruct (nodeParameters_OK _ _ _ _ _ _ _ _ _ Hcache Hget) as [Hslot Hlen].
    assert (readable fm name ncomp node derivative (v + 1)) as Hreadable.
    { destruct (readable_decide fm name ncomp node derivative (v + 1))
        as [Hyes|Hno]; [exact Hyes|].
      exfalso. apply Hno. unfold readable.
      rewrite <- (Hu _ _ _ Hno). rewrite Hslot. exact Hlen. }
    unfold assignNodeParameters. rewrite Hcache.
    set (newValues := transformValues rotationScale offset derivative values).
    assert (forall (fm' : NodeStore F) result',
      (forall node' name' derivative' version',
          slot fm' node' name' derivative' version'
          = slot (store s) node' name' derivative' version'
          \/ (node' = node /\ name' = name /\ derivative' = derivative
              /\ version' = v + 1
              /\ slot fm' node' name' derivative' version' = Some newValues
              /\ length newValues = ncomp)) ->
      sweepInvariant field fm
        {| success := if decide (result' <> RESULT_OK) then false else success s;
           store := fm';
           calls := (calls s ++ [CallGet node field derivative (v + 1) RESULT_OK values])
                    ++ [CallSet node field derivative (v + 1) newValues result'] |})
      as Hkeep.
    { intros fm' result' Hfm'. split; cbn [success store calls].
      - intros node' derivative' version' Hno.
        destruct (Hfm' node' name derivative' version')
          as [Heq|(-> & _ & -> & -> & _)].
        + rewrite Heq. apply Hu. exact Hno.
        + contradiction.
      - intros node' derivative' version' Hyes.
        destruct (Hfm' node' name derivative' version')
          as [Heq|(-> & _ & -> & -> & Hnew & Hlennew)].
        + unfold readable. rewrite Heq. apply Hr. exact Hyes.
        + unfold readable. rewrite Hnew. exact Hlennew.
      - intros node' name' derivative' version' Hname.
        destruct (Hfm' node' name' derivative' version')
          as [Heq|(_ & -> & _)].
        + rewrite Heq. apply Ho. exact Hname.
        + contradiction.
      - intros node' field' derivative' version' values' result'' Hin.
        apply elem_of_app in Hin. destruct Hin as [Hin|Hin].
        + apply elem_of_app in Hin. destruct Hin as [Hin|Hin]; [eauto|].
          apply list_elem_of_singleton in Hin. discriminate.
        + apply list_elem_of_singleton in Hin.
          injection Hin as -> -> -> -> -> ->. split; [reflexivity|exact Hreadable].
      - intros node' field' derivative' version' result'' values' Hin Hne.
        apply elem_of_app in Hin. destruct Hin as [Hin|Hin].
        + apply elem_of_app in Hin. destruct Hin as [Hin|Hin]; [eauto|].
          apply list_elem_of_singleton in Hin.
          injection Hin as -> -> -> -> -> ->. contradiction.
        + apply list_elem_of_singleton in Hin. discriminate. }
    destruct (decide (length newValues = ncomp)) as [Hnew|Hnew].
    + rewrite Hslot. apply Hkeep.
      intros node' name' derivative' version'.
      replace (v + 1) with (S v) in * by lia. cbn [pred].
      rewrite (slot_writeSlot (store s) node name derivative v values newValues
                 node' name' derivative' version' Hslot).
      destruct (decide (node' = node /\ name' = name /\ derivative' = derivative
                        /\ version' = S v)) as [(-> & -> & -> & ->)|_].
      * right. do 5 (split; [reflexivity|]). exact Hnew.
      * left. reflexivity.
    + apply Hkeep. intros. left. reflexivity.
Qed.

Lemma foldl_preserves {A S : Type} (P : S -> Prop) (f : S -> A -> S) (l : list A) :
  (forall s x, x ∈ l -> P s -> P (f s x)) ->
  forall s, P s -> P (foldl f s l).
Proof.
  induction l as [|x l IH]; intros Hf s Hs; simpl.
  - exact Hs.
  - apply IH.
    + intros s' x' Hin. apply Hf. right. exact Hin.
    + apply Hf; [left|exact Hs].
Qed.

Lemma sweepInvariant_nodes (nodeIter : list Z) :
  forall nodetemplate (cache : Fieldcache F Z) (s : Sweep F (NodeStore F) Z),
    sweepInvariant field fm s ->
    sweepInvariant field fm
      (transformCoordinates_nodes field rotationScale offset ncomp nodetemplate
         cache s nodeIter).
Proof.
  induction nodeIter as [|node nodeIter IH]; intros nodetemplate cache s Hs;
    cbn [transformCoordinates_nodes].
  - exact Hs.
  - apply IH.
    apply (foldl_preserves (sweepInvariant field fm)).
    + intros s' derivative _ Hs'. unfold transformCoordinates_derivative.
      apply (foldl_preserves (sweepInvariant field fm)); [|exact Hs'].
      intros s'' v _ Hs''. apply sweepInvariant_version; [reflexivity|exact Hs''].
    + apply sweepInvariant_bind. exact Hs.
Qed.

Lemma sweepInvariant_transformCoordinates (time : F) :
  sweepInvariant field fm (transformCoordinates fm field rotationScale offset time).
Proof.
  destruct (transformCoordinates_cases field rotationScale offset fm time)
    as [-> | ->].
  - destruct sweepInvariant_start as [Hu Hr Ho Hw Hf]. split; assumption.
  - apply sweepInvariant_nodes. apply sweepInvariant_start.
Qed.

End SweepInvariant.

(** C9. [transformCoordinates] writes nodal parameters of the field it
    is given only: every [setNodeParameters] call is on that field; for
    a slot whose read failed no write is attempted and the slot holds
    what it held; and no parameter of another field, at any node, label
    and version, changes. *)
Theorem transformCoordinates_frame (field : Field) (rotationScale : list (list F))
    (offset : list F) (fm : NodeStore F) (time : F) :
  let r := transformCoordinates fm field rotationScale offset time in
  (forall node field' derivative version values result,
      CallSet node field' derivative version values result ∈ calls r ->
      field' = field)
  /\ (forall node derivative version result values,
        CallGet node field derivative version result values ∈ calls r ->
        result <> RESULT_OK ->
        (forall values' result',
            CallSet node field derivative version values' result' ∉ calls r)
        /\ slot (store r) node (getName field) derivative version
           = slot fm node (getName field) derivative version)
  /\ (forall node name derivative version,
        name <> getName field ->
        slot (store r) node name derivative version
        = slot fm node name derivative version).
Proof.
  intros r.
  destruct (sweepInvariant_transformCoordinates field rotationScale offset fm time)
    as [Hu Hr Ho Hw Hf].
  fold r in Hu, Hr, Ho, Hw, Hf.
  split; [|split].
  - intros node field' derivative version values result Hin.
    apply (Hw _ _ _ _ _ _ Hin).
  - intros node derivative version result values Hin Hne.
    pose proof (Hf _ _ _ _ _ _ Hin Hne) as Hno. split.
    + intros values' result' Hset. apply Hno. apply (Hw _ _ _ _ _ _ Hset).
    + apply Hu. exact Hno.
  - exact Ho.
Qed.

End MemZincProperties.

(** ** The identity transformation *)

Section IdentityTransform.
Context {F : Type} `{ExactScalar F}.
Import MemZinc.




Section Sweep.
Variable field : Field.
Variable fm : NodeStore F.
Hypothesis Hncomp :
  getNumberOfComponents field = 2 \/ getNumberOfComponents field = 3.

Local Abbreviation ncomp := (getNumberOfComponents field).
Local Abbreviation name := (getName field).



Lemma nodeIdentifiers_stored (node : Z) :
  node ∈ nodeIdentifiers fm -> is_Some (fm !! node).
Proof.
  unfold nodeIdentifiers. rewrite merge_sort_Permutation.
  rewrite elem_of_elements. apply elem_of_dom.
Qed.

End Sweep.


End IdentityTransform.

(** ** Creating nodes *)

Section CreateNodes.
Context {F : Type} `{Scalar F}.
Import MemZinc.

Lemma first_unused_spec (fm : NodeStore F) (fuel : nat) :
  forall i : Z,
    let j := first_unused fm fuel i in
    (i <= j <= i + Z.of_nat fuel)%Z
    /\ (forall k, (i <= k < j)%Z -> is_Some (fm !! k))
    /\ ((j < i + Z.of_nat fuel)%Z -> fm !! j = None).
Proof.
  induction fuel as [|fuel IH]; intros i; cbn [first_unused].
  - split; [lia|]. split; [intros k Hk; lia|lia].
  - destruct (decide (is_Some (fm !! i))) as [Hused|Hfree].
    + destruct (IH (i + 1)%Z) as (Hrange & Hbelow & Hj).
      split; [lia|]. split.
      * intros k Hk. destruct (decide (k = i)) as [->|Hne]; [exact Hused|].
        apply Hbelow. lia.
      * intros Hlt. apply Hj. lia.
    + split; [lia|]. split; [intros k Hk; lia|].
      intros _. apply eq_None_not_Some. exact Hfree.
Qed.

(** With hint -1 the new node gets the smallest identifier from 0 on
    that is not in use. *)
Lemma createNode_smallest_unused (fm : NodeStore F) (template : MemNodetemplate) :
  exists identifier data,
    createNode fm (-1)%Z template = (Some identifier, <[identifier := data]> fm)
    /\ (0 <= identifier)%Z
    /\ fm !! identifier = None
    /\ (forall k, (0 <= k < identifier)%Z -> is_Some (fm !! k)).
Proof.
  unfold createNode. rewrite decide_True by reflexivity.
  destruct (first_unused_spec fm (size fm) 0%Z) as (Hrange & Hbelow & Hj).
  set (j := first_unused fm (size fm) 0%Z) in *.
  eexists j, _. split; [reflexivity|]. split; [lia|]. split; [|exact Hbelow].
  destruct (decide (j < 0 + Z.of_nat (size fm))%Z) as [Hlt|Hge]; [apply Hj, Hlt|].
  assert (j = Z.of_nat (size fm)) as Hfull by lia.
  apply not_elem_of_dom.
  assert ((list_to_set (seqZ 0 j) : gset Z) = dom fm) as <-.
  { apply set_subseteq_size_eq.
    - intros k Hk. apply elem_of_list_to_set, elem_of_seqZ in Hk.
      apply elem_of_dom, Hbelow. lia.
    - rewrite size_dom, size_list_to_set by apply NoDup_seqZ.
      rewrite length_seqZ. lia. }
  rewrite elem_of_list_to_set, elem_of_seqZ. lia.
Qed.

(** Assigning parameters neither adds nor removes a node. *)
Lemma assignReal_stored (fm : NodeStore F) cache field values (k : Z) :
  is_Some (snd (assignReal fm cache field values) !! k) <-> is_Some (fm !! k).
Proof.
  unfold assignReal.
  destruct (cacheNode cache) as [node|]; [|reflexivity].
  destruct (decide (getNumberOfComponents field <= length values)); [|reflexivity].
  destruct (slot fm node (getName field) VALUE_LABEL_VALUE 1); [|reflexivity].
  cbn [snd]. unfold writeSlot.
  destruct (fm !! node) as [data|] eqn:Hnode; [|reflexivity].
  destruct (data !! (getName field, VALUE_LABEL_VALUE)); [|reflexivity].
  destruct (decide (k = node)) as [->|Hne].
  - rewrite lookup_insert_eq, Hnode. split; intros _; eexists; reflexivity.
  - rewrite lookup_insert_ne by congruence. reflexivity.
Qed.

(** One turn of the node loops on a region whose identifiers are
    [0..k-1]: the identifier given is [k]. *)
Lemma createNode_next (fm : NodeStore F) (template : MemNodetemplate) (k : nat) :
  (forall j : Z, is_Some (fm !! j) <-> (0 <= j < Z.of_nat k)%Z) ->
  exists data,
    createNode fm (-1)%Z template = (Some (Z.of_nat k), <[Z.of_nat k := data]> fm).
Proof.
  intros Hdom.
  destruct (createNode_smallest_unused fm template)
    as (identifier & data & Hcreate & Hpos & Hfree & Hbelow).
  assert (identifier = Z.of_nat k) as ->.
  { destruct (Z.lt_trichotomy identifier (Z.of_nat k)) as [Hlt|[Heq|Hgt]].
    - assert (is_Some (fm !! identifier)) as Hused by (apply Hdom; lia).
      rewrite Hfree in Hused. destruct Hused; discriminate.
    - exact Heq.
    - assert (is_Some (fm !! Z.of_nat k)) as Hused by (apply Hbelow; lia).
      apply Hdom in Hused. lia. }
  exists data. exact Hcreate.
Qed.

Lemma createNodes_loops (field : Field) (template : MemNodetemplate)
    (coordinates : list (list F)) :
  forall (fm : NodeStore F) (k : nat) (identifiers : list Z) (cache : Fieldcache F Z),
    (forall j : Z, is_Some (fm !! j) <-> (0 <= j < Z.of_nat k)%Z) ->
    createCubeElement_nodes field template cache fm identifiers coordinates
    = (createNodes_loop field template cache fm coordinates,
       identifiers ++ seqZ (Z.of_nat k) (Z.of_nat (length coordinates)))
    /\ (forall j : Z,
          is_Some (createNodes_loop field template cache fm coordinates !! j)
          <-> (0 <= j < Z.of_nat (k + length coordinates))%Z).
Proof.
  induction coordinates as [|coordinate coordinates IH];
    intros fm k identifiers cache Hdom.
  - cbn [createCubeElement_nodes createNodes_loop length].
    rewrite seqZ_nil by lia. rewrite app_nil_r, Nat.add_0_r.
    split; [reflexivity|exact Hdom].
  - cbn [createCubeElement_nodes createNodes_loop length].
    destruct (createNode_next fm template k Hdom) as [data ->].
    change (getIdentifier (Some (Z.of_nat k))) with (Z.of_nat k).
    set (cache' := {| cacheTime := cacheTime cache; cacheNode := Some (Z.of_nat k) |}).
    pose proof (assignReal_stored (<[Z.of_nat k := data]> fm) cache' field coordinate)
      as Hassign.
    destruct (assignReal (<[Z.of_nat k := data]> fm) cache' field coordinate)
      as [result fm'].
    cbn [snd] in Hassign.
    destruct (IH fm' (S k) (identifiers ++ [Z.of_nat k]) cache') as [Hcube Hloop].
    { intros j. rewrite Hassign.
      destruct (decide (j = Z.of_nat k)) as [->|Hne].
      - rewrite lookup_insert_eq. split; [lia|]. intros _. eexists. reflexivity.
      - rewrite lookup_insert_ne by congruence. rewrite Hdom. lia. }
    split.
    + rewrite Hcube. f_equal. rewrite <- app_assoc. f_equal.
      rewrite (seqZ_cons (Z.of_nat k)) by lia. cbn [app]. f_equal. f_equal; lia.
    + intros j. rewrite Hloop. lia.
Qed.

(** C8. On a region without nodes, [createNodes] makes one node for
    each coordinate, with hint -1: the identifiers in use afterwards
    are [0..N-1], those given, in order, are [0, 1, ..., N-1] (the
    list [node_identifiers] that the same loop collects in
    [createCubeElement]), and the node created after [k] others gets
    [k], the smallest identifier from 0 on not in use at that time. *)
Theorem createNodes_identifiers (finite_element_field : Field)
    (node_coordinate_set : list (list F)) :
  isFiniteElement finite_element_field = true ->
  let N := length node_coordinate_set in
  let node_template :=
    defineField (newNodetemplate (∅ : NodeStore F)) finite_element_field in
  exists fm : NodeStore F,
    createNodes ∅ finite_element_field node_coordinate_set = Return fm
    /\ (forall j : Z, is_Some (fm !! j) <-> (0 <= j < Z.of_nat N)%Z)
    /\ createCubeElement_nodes finite_element_field node_template createFieldcache
         ∅ [] node_coordinate_set
       = (fm, seqZ 0 (Z.of_nat N))
    /\ (forall k : nat, k < N ->
          let fm_k :=
            createNodes_loop finite_element_field node_template createFieldcache
              (∅ : NodeStore F) (take k node_coordinate_set) in
          fst (createNode fm_k (-1)%Z node_template) = Some (Z.of_nat k)
          /\ fm_k !! Z.of_nat k = None
          /\ (forall j : Z, (0 <= j < Z.of_nat k)%Z -> is_Some (fm_k !! j))).
Proof.
  intros Hfe N node_template.
  assert (forall j : Z, is_Some ((∅ : NodeStore F) !! j) <-> (0 <= j < Z.of_nat 0)%Z)
    as Hempty.
  { intros j. rewrite lookup_empty. split; [intros [? ?]; discriminate|lia]. }
  destruct (createNodes_loops finite_element_field node_template node_coordinate_set
              ∅ 0 [] createFieldcache Hempty) as [Hcube Hloop].
  eexists. split; [|split; [|split]].
  - unfold createNodes, castFiniteElement. rewrite Hfe. reflexivity.
  - exact Hloop.
  - exact Hcube.
  - intros k Hk fm_k.
    destruct (createNodes_loops finite_element_field node_template
                (take k node_coordinate_set) ∅ 0 [] createFieldcache Hempty)
      as [_ Hdom].
    fold fm_k in Hdom. rewrite length_take, Nat.add_0_l in Hdom.
    replace (k `min` length node_coordinate_set) with k in Hdom by (subst N; lia).
    destruct (createNode_next fm_k node_template k Hdom) as [data ->].
    split; [reflexivity|]. split.
    + apply eq_None_not_Some. rewrite Hdom. lia.
    + intros j Hj. apply Hdom. exact Hj.
Qed.

End CreateNodes.

(** ** The properties on sample data *)

Import MemZinc.

(** The canonical rationals obey the laws of exact arithmetic. *)
#[export] Instance Qc_ExactScalar : ExactScalar Qc.
Proof.
  split; intros x; cbn.
  - apply Qcplus_0_l.
  - apply Qcplus_0_r.
  - apply Qcmult_1_l.
  - apply Qcmult_0_l.
Qed.

(** The swap of the two components followed by a shift is a valid
    transformation of a two-component field. *)
Lemma swapAndShift_valid :
  validArguments (Sample.coordinatesField 2)
    [[Sample.q 0; Sample.q 1]; [Sample.q 1; Sample.q 0]]
    [Sample.q 10; Sample.q 20].
Proof.
  unfold validArguments. cbn.
  split; [left; reflexivity|]. split; [reflexivity|]. split.
  { intros matRow Hin. apply list_elem_of_In in Hin.
    destruct Hin as [<-|[<-|[]]]; reflexivity. }
  split; [reflexivity|]. split; reflexivity.
Qed.

(** C2 on a field of four components. *)
Lemma transformCoordinates_invalid_unchanged_witness :
  transformCoordinates Sample.twoNodes (Sample.coordinatesField 4)
    [[Sample.q 1]] [Sample.q 1] (Sample.q 0)
  = {| success := false; store := Sample.twoNodes; calls := [] |}.
Proof.
  apply transformCoordinates_invalid_unchanged.
  left. split; cbn; lia.
Defined.




(** C9 on a region whose second node cannot be read: nothing is
    written to its value, which stays as it was. *)
Lemma transformCoordinates_frame_witness :
  let field := Sample.coordinatesField 2 in
  let r :=
    transformCoordinates Sample.oddNodes field
      [[Sample.q 0; Sample.q 1]; [Sample.q 1; Sample.q 0]]
      [Sample.q 10; Sample.q 20] (Sample.q 0) in
  (forall values' result',
      CallSet 1%Z field VALUE_LABEL_VALUE 1 values' result' ∉ calls r)
  /\ slot (store r) 1%Z "coordinates" VALUE_LABEL_VALUE 1
     = Some [Sample.q 3; Sample.q 4; Sample.q 5].
Proof.
  intros field r.
  destruct (transformCoordinates_frame field
              [[Sample.q 0; Sample.q 1]; [Sample.q 1; Sample.q 0]]
              [Sample.q 10; Sample.q 20] Sample.oddNodes (Sample.q 0))
    as (_ & Hfailed & _).
  destruct (Hfailed 1%Z VALUE_LABEL_VALUE 1 RESULT_ERROR_INVALID_COMPONENT_COUNT [])
    as [Hnone Hkept].
  - apply list_elem_of_In. vm_compute. right. right. right. right. left. reflexivity.
  - discriminate.
  - split; [exact Hnone|]. fold r in Hkept. cbn [getName field Sample.coordinatesField] in Hkept.
    rewrite Hkept. reflexivity.
Defined.

(** C8 for three coordinates. *)
Lemma createNodes_identifiers_witness :
  exists fm : NodeStore Qc,
    createNodes ∅ (Sample.coordinatesField 2)
      [[Sample.q 1; Sample.q 2]; [Sample.q 3; Sample.q 4]; [Sample.q 5; Sample.q 6]]
    = Return fm
    /\ (forall j : Z, is_Some (fm !! j) <-> (0 <= j < 3)%Z).
Proof.
  destruct (createNodes_identifiers (Sample.coordinatesField 2)
      [[Sample.q 1; Sample.q 2]; [Sample.q 3; Sample.q 4]; [Sample.q 5; Sample.q 6]]
      eq_refl) as (fm & Hcreate & Hdom & _).
  exists fm. split; [exact Hcreate|exact Hdom].
Defined.

(** C10 on nodes named A, the empty string, nothing, and B without
    coordinates: only A is returned. *)
Lemma getNodeNameCentres_excludes_witness :
  let names := Sample.names [Some "A"; Some ""; None; Some "B"]%string in
  let coordinates :=
    Sample.coordinates
      [(RESULT_OK, [Sample.q 1; Sample.q 2]); (RESULT_OK, [Sample.q 3; Sample.q 4]);
       (RESULT_OK, [Sample.q 5; Sample.q 6]); (RESULT_ERROR_NOT_EVALUABLE, [])] in
  getNodeNameCentres names coordinates [0; 1; 2; 3] (Sample.coordinatesField 2)
    Sample.nameField
  = Return [("A"%string, [Sample.q 1; Sample.q 2])]
  /\ dict_get [("A"%string, [Sample.q 1; Sample.q 2])] "B" = None.
Proof.
  intros names coordinates.
  assert (getNodeNameCentres names coordinates [0; 1; 2; 3]
            (Sample.coordinatesField 2) Sample.nameField
          = Return [("A"%string, [Sample.q 1; Sample.q 2])]) as Hret
    by (vm_compute; reflexivity).
  split; [exact Hret|].
  apply (proj2 (getNodeNameCentres_excludes names coordinates
                  (Sample.coordinatesField 2) Sample.nameField [0; 1; 2; 3])
           "B"%string _ Hret).
  intros node Hin Hname. apply list_elem_of_In in Hin.
  destruct Hin as [<-|[<-|[<-|[<-|[]]]]];
    first [discriminate Hname | vm_compute; reflexivity].
Defined.

(** * Further properties *)

(** ** The in-memory engine: the region after a sweep *)

Section SweepClosedForm.
Context {F : Type} `{Scalar F}.
Variable field : Field.
Variable rotationScale : list (list F).
Variable offset : list F.
Variable fm : NodeStore F.
Hypothesis Hvalid : validArguments field rotationScale offset.

Local Abbreviation ncomp := (getNumberOfComponents field).
Local Abbreviation name := (getName field).
Local Abbreviation progress := (sweepProgress field rotationScale offset fm).

Lemma transformValues_length (derivative : ValueLabel) (values : list F) :
  length (transformValues rotationScale offset derivative values) = ncomp.
Proof.
  destruct Hvalid as (_ & Hm & _ & Ho & _).
  unfold transformValues, vectorops.matrixvectormult, vectorops.add.
  destruct (decide (derivative = VALUE_LABEL_VALUE)).
  - rewrite length_zip_with, length_map, Hm, Ho. lia.
  - rewrite length_map. exact Hm.
Qed.

Lemma writeSlot_stored (st : NodeStore F) node nm derivative index values (k : Z) :
  is_Some (writeSlot st node nm derivative index values !! k) <-> is_Some (st !! k).
Proof.
  unfold writeSlot.
  destruct (st !! node) as [data|] eqn:Hnode; [|reflexivity].
  destruct (data !! (nm, derivative)); [|reflexivity].
  destruct (decide (k = node)) as [->|Hne].
  - rewrite lookup_insert_eq, Hnode. split; intros _; eexists; reflexivity.
  - rewrite lookup_insert_ne by congruence. reflexivity.
Qed.

(** Slots that [fm] does not store do not matter to the progress. *)
Lemma sweepProgress_ext (done done' : Z -> ValueLabel -> nat -> bool)
    (s : Sweep F (NodeStore F) Z) :
  (forall node derivative version,
      is_Some (slot fm node name derivative version) ->
      done node derivative version = done' node derivative version) ->
  progress done s -> progress done' s.
Proof.
  intros Hext [Hslots Hnodes Hsuccess]. split.
  - intros node derivative version. rewrite Hslots.
    destruct (slot fm node name derivative version) as [values|] eqn:Hfm.
    + rewrite (Hext node derivative version) by (rewrite Hfm; eexists; reflexivity).
      reflexivity.
    + destruct (done node derivative version), (done' node derivative version);
        reflexivity.
  - exact Hnodes.
  - rewrite Hsuccess. split; intros Hall node derivative version values Hdone Hfm;
      apply (Hall node derivative version values); try exact Hfm.
    + rewrite Hext; [exact Hdone|]. rewrite Hfm. eexists. reflexivity.
    + rewrite <- Hext; [exact Hdone|]. rewrite Hfm. eexists. reflexivity.
Qed.

Lemma sweepProgress_stored (done : Z -> ValueLabel -> nat -> bool)
    (s : Sweep F (NodeStore F) Z) node derivative version :
  progress done s ->
  is_Some (slot (store s) node name derivative version)
  <-> is_Some (slot fm node name derivative version).
Proof.
  intros [Hslots _ _]. rewrite Hslots.
  destruct (done node derivative version); [|reflexivity].
  destruct (slot fm node name derivative version); simpl; split;
    intros [x Hx]; try discriminate; eexists; reflexivity.
Qed.

Lemma sweepProgress_version (cache : Fieldcache F Z) (node : Z)
    (derivative : ValueLabel) (s : Sweep F (NodeStore F) Z) (v : nat)
    (done : Z -> ValueLabel -> nat -> bool) :
  cacheNode cache = Some node ->
  done node derivative (S v) = false ->
  is_Some (slot fm node name derivative (S v)) ->
  progress done s ->
  progress
    (fun node' derivative' version' =>
       done node' derivative' version'
       || bool_decide (node' = node /\ derivative' = derivative /\ version' = S v))
    (transformCoordinates_version field rotationScale offset ncomp cache node
       derivative s v).
Proof.
  intros Hcache Hnew [values Hfm] [Hslots Hnodes Hsuccess].
  assert (slot (store s) node name derivative (S v) = Some values) as Hst.
  { rewrite Hslots, Hnew. exact Hfm. }
  unfold transformCoordinates_version.
  cbn [getNodeParameters setNodeParameters MemZinc_Zinc].
  replace (v + 1) with (S v) by lia.
  unfold nodeParameters. rewrite Hcache, Hst.
  destruct (decide (length values = ncomp)) as [Hlen|Hlen].
  - (* read and written *)
    cbn [success store calls].
    rewrite decide_False by (intros Hne; apply Hne; reflexivity).
    unfold assignNodeParameters. rewrite Hcache, Hst.
    rewrite decide_True by apply transformValues_length.
    rewrite decide_False by (intros Hne; apply Hne; reflexivity).
    cbn [pred]. split; cbn [success store calls].
    + intros node' derivative' version'.
      rewrite (slot_writeSlot (store s) node name derivative v values _
                 node' name derivative' version' Hst).
      destruct (decide (node' = node /\ name = name /\ derivative' = derivative
                        /\ version' = S v)) as [(-> & _ & -> & ->)|Hne].
      * rewrite bool_decide_eq_true_2 by tauto. rewrite orb_true_r.
        rewrite Hfm. simpl. unfold transformSlot.
        rewrite decide_True by exact Hlen. reflexivity.
      * rewrite bool_decide_eq_false_2 by tauto. rewrite orb_false_r.
        apply Hslots.
    + intros k. rewrite writeSlot_stored. apply Hnodes.
    + rewrite Hsuccess. split; intros Hall node' derivative' version' values' Hdone Hfm'.
      * apply orb_true_iff in Hdone. destruct Hdone as [Hdone|Hdone].
        -- apply (Hall _ _ _ _ Hdone Hfm').
        -- apply bool_decide_eq_true in Hdone. destruct Hdone as (-> & -> & ->).
           congruence.
      * apply (Hall node' derivative' version' values'); [|exact Hfm'].
        rewrite Hdone. reflexivity.
  - (* the read fails *)
    cbn [success store calls].
    rewrite decide_True by discriminate.
    split; cbn [success store calls].
    + intros node' derivative' version'. rewrite Hslots.
      destruct (decide (node' = node /\ derivative' = derivative /\ version' = S v))
        as [(-> & -> & ->)|Hne].
      * rewrite bool_decide_eq_true_2 by tauto. rewrite orb_true_r, Hnew.
        rewrite Hfm. simpl. unfold transformSlot.
        rewrite decide_False by exact Hlen. reflexivity.
      * rewrite bool_decide_eq_false_2 by tauto. rewrite orb_false_r. reflexivity.
    + exact Hnodes.
    + split; [discriminate|]. intros Hall. exfalso. apply Hlen.
      apply (Hall node derivative (S v) values); [|exact Hfm].
      rewrite bool_decide_eq_true_2 by tauto. apply orb_true_r.
Qed.

Lemma foldl_seq_progress {State : Type} (P : nat -> State -> Prop)
    (f : State -> nat -> State) (n : nat) :
  (forall k s, k < n -> P k s -> P (S k) (f s k)) ->
  forall s, P 0 s -> P n (foldl f s (seq 0 n)).
Proof.
  intros Hf.
  assert (forall m a s, a + m = n -> P a s -> P n (foldl f s (seq a m))) as Hgen.
  { induction m as [|m IH]; intros a s Ham Hs; simpl.
    - replace n with a by lia. exact Hs.
    - apply IH; [lia|]. apply Hf; [lia|exact Hs]. }
  intros s Hs. apply (Hgen n 0 s); [reflexivity|exact Hs].
Qed.

Lemma valueLabels_complete (derivative : ValueLabel) : derivative ∈ valueLabels.
Proof. destruct derivative; apply (bool_decide_unpack _); vm_compute; exact I. Qed.

Lemma fieldFromNode_versions (st : NodeStore F) (template : MemNodetemplate)
    (node : Z) (data : NodeData F)
    (derivative : ValueLabel) :
  st !! node = Some data ->
  fieldFromNode st template field node !! (name, derivative)
  = (fun versions : list (list F) => (ncomp, length versions))
      <$> data !! (name, derivative).
Proof.
  intros Hnode. unfold fieldFromNode. rewrite Hnode.
  pose proof (valueLabels_complete derivative) as Hin.
  induction valueLabels as [|d l IH]; [inversion Hin|].
  cbn [foldr].
  destruct (decide (d = derivative)) as [->|Hne].
  - destruct (data !! (name, derivative)) as [versions|]; simpl.
    + apply lookup_insert_eq.
    + apply lookup_delete_eq.
  - apply elem_of_cons in Hin. destruct Hin as [Heq|Hin]; [congruence|].
    destruct (data !! (name, d)) as [versions|].
    + rewrite lookup_insert_ne by congruence. apply IH. exact Hin.
    + rewrite lookup_delete_ne by congruence. apply IH. exact Hin.
Qed.

(** The number of versions a template taken from a node reports is
    that of the slots the node stores. *)
Lemma valueNumberOfVersions_stored (st : NodeStore F)
    (template : MemNodetemplate) (node : Z)
    (derivative : ValueLabel) (v : nat) :
  is_Some (st !! node) ->
  v < Z.to_nat (valueNumberOfVersions (fieldFromNode st template field node) field
                  (-1)%Z derivative)
  <-> is_Some (slot st node name derivative (S v)).
Proof.
  intros [data Hdata]. unfold valueNumberOfVersions.
  rewrite (fieldFromNode_versions st template node data derivative Hdata).
  unfold slot. rewrite Hdata. simpl.
  destruct (data !! (name, derivative)) as [versions|]; simpl.
  - rewrite Nat2Z.id. symmetry. apply lookup_lt_is_Some.
  - split; [lia|]. intros [x Hx]. discriminate.
Qed.

Lemma sweepProgress_derivative (nodetemplate : MemNodetemplate)
    (cache : Fieldcache F Z) (node : Z) (derivative : ValueLabel)
    (s : Sweep F (NodeStore F) Z) (done : Z -> ValueLabel -> nat -> bool) :
  cacheNode cache = Some node ->
  (forall version, done node derivative version = false) ->
  (forall v,
      v < Z.to_nat (valueNumberOfVersions nodetemplate field (-1)%Z derivative)
      <-> is_Some (slot fm node name derivative (S v))) ->
  progress done s ->
  progress (doneLabels done node [derivative])
    (transformCoordinates_derivative field rotationScale offset ncomp nodetemplate
       cache node s derivative).
Proof.
  intros Hcache Hnew Hcount Hs. unfold transformCoordinates_derivative.
  cbn [getValueNumberOfVersions MemZinc_Zinc].
  set (n := Z.to_nat (valueNumberOfVersions nodetemplate field (-1)%Z derivative))
    in *.
  apply (sweepProgress_ext (doneVersions done node derivative n)).
  { intros node' derivative' version' Hstored. unfold doneVersions, doneLabels.
    f_equal. apply bool_decide_ext. rewrite list_elem_of_singleton.
    split; [tauto|]. intros [-> ->].
    split; [reflexivity|]. split; [reflexivity|].
    destruct version' as [|v]; [destruct Hstored as [x Hx]; discriminate|].
    apply Hcount in Hstored. lia. }
  apply (foldl_seq_progress (fun k s' => progress (doneVersions done node derivative k) s')).
  - intros k s' Hk Hs'.
    eapply sweepProgress_ext;
      [|apply (sweepProgress_version cache node derivative s' k
                 (doneVersions done node derivative k) Hcache);
        [| |exact Hs']].
    + intros node' derivative' version' _. unfold doneVersions.
      rewrite <- orb_assoc. f_equal.
      destruct (decide (node' = node /\ derivative' = derivative)) as [[-> ->]|Hne].
      * destruct (decide (version' = S k)) as [->|Hv].
        -- rewrite (bool_decide_eq_true_2 (node = node /\ derivative = derivative
                                           /\ S k = S k)) by tauto.
           rewrite orb_true_r. symmetry. apply bool_decide_eq_true_2.
           split; [reflexivity|]. split; [reflexivity|]. lia.
        -- rewrite (bool_decide_eq_false_2 (node = node /\ derivative = derivative
                                            /\ version' = S k)) by tauto.
           rewrite orb_false_r. apply bool_decide_ext.
           split; intros (Hn & Hd & Hr); (split; [exact Hn|]; split; [exact Hd|]; lia).
      * rewrite !bool_decide_eq_false_2 by tauto. reflexivity.
    + unfold doneVersions. rewrite Hnew.
      rewrite bool_decide_eq_false_2 by lia. reflexivity.
    + apply Hcount. exact Hk.
  - eapply sweepProgress_ext; [|exact Hs].
    intros node' derivative' version' _. unfold doneVersions.
    rewrite bool_decide_eq_false_2 by lia. rewrite orb_false_r. reflexivity.
Qed.

Lemma sweepProgress_labels (nodetemplate : MemNodetemplate) (cache : Fieldcache F Z)
    (node : Z) (labels : list ValueLabel) :
  cacheNode cache = Some node ->
  (forall derivative v,
      v < Z.to_nat (valueNumberOfVersions nodetemplate field (-1)%Z derivative)
      <-> is_Some (slot fm node name derivative (S v))) ->
  NoDup labels ->
  forall (s : Sweep F (NodeStore F) Z) (done : Z -> ValueLabel -> nat -> bool),
    (forall derivative version,
        derivative ∈ labels -> done node derivative version = false) ->
    progress done s ->
    progress (doneLabels done node labels)
      (foldl (transformCoordinates_derivative field rotationScale offset ncomp
                nodetemplate cache node) s labels).
Proof.
  intros Hcache Hcount Hnodup. induction Hnodup as [|derivative labels Hnotin _ IH];
    intros s done Hnew Hs; cbn [foldl].
  - eapply sweepProgress_ext; [|exact Hs].
    intros node' derivative' version' _. unfold doneLabels.
    rewrite bool_decide_eq_false_2; [rewrite orb_false_r; reflexivity|].
    intros [_ Hin]. inversion Hin.
  - apply (sweepProgress_ext (doneLabels (doneLabels done node [derivative]) node labels)).
    + intros node' derivative' version' _. unfold doneLabels.
      rewrite <- orb_assoc. f_equal.
      destruct (decide (node' = node)) as [->|Hne].
      * rewrite <- bool_decide_or. apply bool_decide_ext.
        rewrite list_elem_of_singleton, elem_of_cons. tauto.
      * rewrite !bool_decide_eq_false_2 by tauto. reflexivity.
    + apply IH.
      * intros derivative' version' Hin. unfold doneLabels.
        rewrite (Hnew derivative' version') by (right; exact Hin).
        rewrite bool_decide_eq_false_2; [reflexivity|].
        rewrite list_elem_of_singleton. intros [_ ->]. contradiction.
      * apply sweepProgress_derivative.
        -- exact Hcache.
        -- intros version. apply Hnew. left.
        -- apply Hcount.
        -- exact Hs.
Qed.

Lemma valueLabels_NoDup : NoDup valueLabels.
Proof.
  apply (bool_decide_unpack _). vm_compute. exact I.
Qed.

Lemma sweepProgress_nodes (nodeIter : list Z) :
  NoDup nodeIter ->
  (forall node, node ∈ nodeIter -> is_Some (fm !! node)) ->
  forall (nodetemplate : MemNodetemplate) (cache : Fieldcache F Z)
         (s : Sweep F (NodeStore F) Z) (done : Z -> ValueLabel -> nat -> bool),
    (forall node derivative version,
        node ∈ nodeIter -> done node derivative version = false) ->
    progress done s ->
    progress (doneNodes done nodeIter)
      (transformCoordinates_nodes field rotationScale offset ncomp nodetemplate
         cache s nodeIter).
Proof.
  intros Hnodup. induction Hnodup as [|node nodeIter Hnotin _ IH];
    intros Hstored nodetemplate cache s done Hnew Hs;
    cbn [transformCoordinates_nodes].
  - eapply sweepProgress_ext; [|exact Hs].
    intros node' derivative' version' _. unfold doneNodes.
    rewrite bool_decide_eq_false_2; [rewrite orb_false_r; reflexivity|].
    intros Hin. inversion Hin.
  - apply (sweepProgress_ext (doneNodes (doneLabels done node valueLabels) nodeIter)).
    + intros node' derivative' version' _. unfold doneNodes, doneLabels.
      rewrite <- orb_assoc. f_equal.
      rewrite <- bool_decide_or. apply bool_decide_ext.
      rewrite elem_of_cons. pose proof (valueLabels_complete derivative'). tauto.
    + apply IH.
      * intros node' Hin. apply Hstored. right. exact Hin.
      * intros node' derivative' version' Hin. unfold doneLabels.
        rewrite (Hnew node' derivative' version') by (right; exact Hin).
        rewrite bool_decide_eq_false_2; [reflexivity|].
        intros [-> _]. contradiction.
      * apply sweepProgress_labels.
        -- reflexivity.
        -- intros derivative v.
           cbn [defineFieldFromNode MemZinc_Zinc store].
           rewrite valueNumberOfVersions_stored.
           ++ apply (sweepProgress_stored done s node derivative (S v) Hs).
           ++ apply (progress_nodes _ _ _ _ _ _ Hs). apply Hstored. left.
        -- apply valueLabels_NoDup.
        -- intros derivative version _. apply Hnew. left.
        -- destruct Hs as [Hslots Hnodes Hsuccess]. split; assumption.
Qed.

Lemma nodeIdentifiers_NoDup (st : NodeStore F) : NoDup (nodeIdentifiers st).
Proof.
  unfold nodeIdentifiers. rewrite merge_sort_Permutation. apply NoDup_elements.
Qed.

Lemma nodeIdentifiers_complete (st : NodeStore F) (node : Z) :
  is_Some (st !! node) -> node ∈ nodeIdentifiers st.
Proof.
  unfold nodeIdentifiers. rewrite merge_sort_Permutation.
  rewrite elem_of_elements. apply elem_of_dom.
Qed.

Lemma slot_Some_stored (st : NodeStore F) node nm derivative version values :
  slot st node nm derivative version = Some values -> is_Some (st !! node).
Proof.
  unfold slot. destruct version; [discriminate|].
  destruct (st !! node); [eexists; reflexivity|discriminate].
Qed.

Lemma sweepProgress_transformCoordinates (time : F) :
  progress (doneNodes (fun _ _ _ => false) (nodeIdentifiers fm))
    (transformCoordinates fm field rotationScale offset time).
Proof.
  rewrite (transformCoordinates_valid field rotationScale offset fm time Hvalid).
  cbn [nodesetNodes createNodetemplate MemZinc_Zinc].
  apply sweepProgress_nodes.
  - apply nodeIdentifiers_NoDup.
  - intros node. apply nodeIdentifiers_stored.
  - reflexivity.
  - split; cbn [success store].
    + reflexivity.
    + reflexivity.
    + split; [discriminate|reflexivity].
Qed.

(** The slots after the sweep, for the proofs that follow. *)
Lemma sweep_region (time : F) (node : Z) (derivative : ValueLabel) (version : nat) :
  slot (store (transformCoordinates fm field rotationScale offset time)) node name
    derivative version
  = transformSlot field rotationScale offset derivative
      <$> slot fm node name derivative version.
Proof.
  rewrite (progress_slots _ _ _ _ _ _ (sweepProgress_transformCoordinates time)).
  unfold doneNodes. cbn [orb].
  destruct (slot fm node name derivative version) as [values|] eqn:Hfm.
  - rewrite bool_decide_eq_true_2; [reflexivity|].
    apply nodeIdentifiers_complete. eapply slot_Some_stored. exact Hfm.
  - destruct (bool_decide _); reflexivity.
Qed.

(** X1. On valid arguments, after [transformCoordinates] every slot of
    the field holds the transformed parameters it held before:
    [rotationScale · values], plus [offset] for the value label; a slot
    whose component count is not that of the field is left as it was. *)
Theorem transformCoordinates_region (time : F) (node : Z) (derivative : ValueLabel)
    (version : nat) :
  slot (store (transformCoordinates fm field rotationScale offset time)) node name
    derivative version
  = (fun values =>
       if decide (length values = ncomp)
       then (if decide (derivative = VALUE_LABEL_VALUE)
             then vectorops.add (vectorops.matrixvectormult rotationScale values)
                    offset
             else vectorops.matrixvectormult rotationScale values)
       else values)
      <$> slot fm node name derivative version.
Proof.
  rewrite (progress_slots _ _ _ _ _ _ (sweepProgress_transformCoordinates time)).
  unfold doneNodes. cbn [orb].
  destruct (slot fm node name derivative version) as [values|] eqn:Hfm.
  - rewrite bool_decide_eq_true_2; [reflexivity|].
    apply nodeIdentifiers_complete. eapply slot_Some_stored. exact Hfm.
  - destruct (bool_decide _); reflexivity.
Qed.

Lemma storeConforms_slots :
  storeConforms field fm
  <-> forall node derivative version values,
        slot fm node name derivative version = Some values ->
        length values = ncomp.
Proof.
  unfold storeConforms, slot. split.
  - intros Hconf node derivative version values Hslot.
    destruct version as [|index]; [discriminate|].
    destruct (fm !! node) as [data|] eqn:Hnode; [|discriminate].
    simpl in Hslot.
    destruct (data !! (name, derivative)) as [versions|] eqn:Hdata; [|discriminate].
    simpl in Hslot.
    apply (Hconf node data derivative versions values Hnode Hdata).
    apply list_elem_of_lookup. exists index. exact Hslot.
  - intros Hall node data derivative versions values Hnode Hdata Hin.
    apply list_elem_of_lookup in Hin. destruct Hin as [index Hindex].
    apply (Hall node derivative (S index) values).
    rewrite Hnode. simpl. rewrite Hdata. simpl. exact Hindex.
Qed.

(** When the sweep succeeds, for the proofs that follow. *)
Lemma sweep_success (time : F) :
  success (transformCoordinates fm field rotationScale offset time) = true
  <-> storeConforms field fm.
Proof.
  rewrite (progress_success _ _ _ _ _ _ (sweepProgress_transformCoordinates time)).
  rewrite storeConforms_slots.
  split; intros Hall node derivative version values.
  - intros Hfm. apply (Hall node derivative version values); [|exact Hfm].
    unfold doneNodes. cbn [orb]. apply bool_decide_eq_true_2.
    apply nodeIdentifiers_complete. eapply slot_Some_stored. exact Hfm.
  - intros _ Hfm. apply (Hall node derivative version values Hfm).
Qed.


(** *** The calls of the sweep and the region it started on *)

Local Abbreviation called := (sweepCalls field rotationScale offset fm).

Lemma sweepCalls_ext (done done' : Z -> ValueLabel -> nat -> bool)
    (s : Sweep F (NodeStore F) Z) :
  (forall node derivative version,
      is_Some (slot fm node name derivative version) ->
      done node derivative version = done' node derivative version) ->
  called done s -> called done' s.
Proof.
  intros Hext [Hread Hwritten Hbehind Hfailed].
  split; [exact Hread|exact Hwritten| |].
  - intros node derivative version stored Hdone Hfm.
    apply Hbehind; [|exact Hfm].
    rewrite Hext; [exact Hdone|]. rewrite Hfm. eexists. reflexivity.
  - intros node derivative version stored Hdone Hfm.
    apply Hfailed; [|exact Hfm].
    rewrite Hext; [exact Hdone|]. rewrite Hfm. eexists. reflexivity.
Qed.

(** More calls keep what the log says of the slots behind. *)
Lemma sweepCalls_more (done : Z -> ValueLabel -> nat -> bool)
    (s s' : Sweep F (NodeStore F) Z) (l : list (Call F Z)) :
  calls s' = calls s ++ l ->
  (forall node field' derivative version result values,
      CallGet node field' derivative version result values ∈ l ->
      field' = field
      /\ exists stored,
           slot fm node name derivative version = Some stored
           /\ ((length stored = ncomp /\ result = RESULT_OK /\ values = stored)
               \/ (length stored <> ncomp /\ result <> RESULT_OK))) ->
  (forall node field' derivative version values result,
      CallSet node field' derivative version values result ∈ l ->
      field' = field
      /\ result = RESULT_OK
      /\ exists stored,
           slot fm node name derivative version = Some stored
           /\ length stored = ncomp
           /\ values = transformValues rotationScale offset derivative stored) ->
  called done s ->
  called done s'
  /\ forall c, c ∈ l -> c ∈ calls s'.
Proof.
  intros Hcalls Hreads Hwrites [Hread Hwritten Hbehind Hfailed].
  assert (forall c, c ∈ calls s -> c ∈ calls s') as Hold
    by (intros c Hc; rewrite Hcalls; apply elem_of_app; left; exact Hc).
  split; [split|].
  - intros node field' derivative version result values Hin.
    rewrite Hcalls in Hin. apply elem_of_app in Hin.
    destruct Hin as [Hin|Hin]; [eapply Hread|eapply Hreads]; exact Hin.
  - intros node field' derivative version values result Hin.
    rewrite Hcalls in Hin. apply elem_of_app in Hin.
    destruct Hin as [Hin|Hin]; [eapply Hwritten|eapply Hwrites]; exact Hin.
  - intros node derivative version stored Hdone Hfm Hlen.
    destruct (Hbehind node derivative version stored Hdone Hfm Hlen) as [Hget Hset].
    split; apply Hold; assumption.
  - intros node derivative version stored Hdone Hfm Hlen.
    destruct (Hfailed node derivative version stored Hdone Hfm Hlen)
      as (result & values & Hne & Hin).
    exists result, values. split; [exact Hne|]. apply Hold. exact Hin.
  - intros c Hc. rewrite Hcalls. apply elem_of_app. right. exact Hc.
Qed.

Lemma sweepCalls_bind (done : Z -> ValueLabel -> nat -> bool)
    (s : Sweep F (NodeStore F) Z) (node : Z) :
  called done s ->
  called done {| success := success s; store := store s;
                 calls := calls s ++ [CallSetNode node] |}.
Proof.
  intros Hs.
  apply (sweepCalls_more done s _ [CallSetNode node]); [reflexivity| | |exact Hs].
  - intros node' field' derivative version result values Hin.
    apply list_elem_of_singleton in Hin. discriminate.
  - intros node' field' derivative version values result Hin.
    apply list_elem_of_singleton in Hin. discriminate.
Qed.

Lemma sweepCalls_version (cache : Fieldcache F Z) (node : Z)
    (derivative : ValueLabel) (s : Sweep F (NodeStore F) Z) (v : nat)
    (done : Z -> ValueLabel -> nat -> bool) :
  cacheNode cache = Some node ->
  done node derivative (S v) = false ->
  is_Some (slot fm node name derivative (S v)) ->
  progress done s ->
  called done s ->
  called
    (fun node' derivative' version' =>
       done node' derivative' version'
       || bool_decide (node' = node /\ derivative' = derivative /\ version' = S v))
    (transformCoordinates_version field rotationScale offset ncomp cache node
       derivative s v).
Proof.
  intros Hcache Hnew [stored Hfm] [Hslots _ _] Hs.
  assert (slot (store s) node name derivative (S v) = Some stored) as Hst.
  { rewrite Hslots, Hnew. exact Hfm. }
  unfold transformCoordinates_version.
  cbn [getNodeParameters setNodeParameters MemZinc_Zinc].
  replace (v + 1) with (S v) by lia.
  unfold nodeParameters. rewrite Hcache, Hst.
  destruct (decide (length stored = ncomp)) as [Hlen|Hlen].
  - (* read and written *)
    cbn [success store calls].
    rewrite decide_False by (intros Hne; apply Hne; reflexivity).
    unfold assignNodeParameters. rewrite Hcache, Hst.
    rewrite decide_True by apply transformValues_length.
    rewrite decide_False by (intros Hne; apply Hne; reflexivity).
    set (read := CallGet node field derivative (S v) RESULT_OK stored).
    set (written := CallSet node field derivative (S v)
                      (transformValues rotationScale offset derivative stored)
                      RESULT_OK).
    match goal with
    | |- called _ ?s' =>
        destruct (sweepCalls_more done s s' [read; written]) as [Hs' Hin];
          [cbn [calls]; rewrite <- app_assoc; reflexivity| | |exact Hs|]
    end.
    + intros node' field' derivative' version' result values Hc.
      apply elem_of_cons in Hc. destruct Hc as [Hc|Hc].
      * injection Hc as -> -> -> -> -> ->. split; [reflexivity|].
        exists stored. split; [exact Hfm|]. left. tauto.
      * apply list_elem_of_singleton in Hc. discriminate.
    + intros node' field' derivative' version' values result Hc.
      apply elem_of_cons in Hc. destruct Hc as [Hc|Hc]; [discriminate|].
      apply list_elem_of_singleton in Hc.
      injection Hc as -> -> -> -> -> ->. split; [reflexivity|].
      split; [reflexivity|]. exists stored. tauto.
    + destruct Hs' as [Hread Hwritten Hbehind Hfailed].
      split; [exact Hread|exact Hwritten| |].
      * intros node' derivative' version' stored' Hdone Hfm' Hlen'.
        apply orb_true_iff in Hdone. destruct Hdone as [Hdone|Hdone].
        -- apply (Hbehind _ _ _ _ Hdone Hfm' Hlen').
        -- apply bool_decide_eq_true in Hdone. destruct Hdone as (-> & -> & ->).
           rewrite Hfm in Hfm'. injection Hfm' as <-.
           split; apply Hin; [left|right; left].
      * intros node' derivative' version' stored' Hdone Hfm' Hlen'.
        apply orb_true_iff in Hdone. destruct Hdone as [Hdone|Hdone].
        -- apply (Hfailed _ _ _ _ Hdone Hfm' Hlen').
        -- apply bool_decide_eq_true in Hdone. destruct Hdone as (-> & -> & ->).
           rewrite Hfm in Hfm'. injection Hfm' as <-. contradiction.
  - (* the read fails *)
    cbn [success store calls].
    rewrite decide_True by discriminate.
    set (read := CallGet node field derivative (S v)
                   RESULT_ERROR_INVALID_COMPONENT_COUNT []).
    match goal with
    | |- called _ ?s' =>
        destruct (sweepCalls_more done s s' [read]) as [Hs' Hin];
          [reflexivity| | |exact Hs|]
    end.
    + intros node' field' derivative' version' result values Hc.
      apply list_elem_of_singleton in Hc.
      injection Hc as -> -> -> -> -> ->. split; [reflexivity|].
      exists stored. split; [exact Hfm|]. right. split; [exact Hlen|discriminate].
    + intros node' field' derivative' version' values result Hc.
      apply list_elem_of_singleton in Hc. discriminate.
    + destruct Hs' as [Hread Hwritten Hbehind Hfailed].
      split; [exact Hread|exact Hwritten| |].
      * intros node' derivative' version' stored' Hdone Hfm' Hlen'.
        apply orb_true_iff in Hdone. destruct Hdone as [Hdone|Hdone].
        -- apply (Hbehind _ _ _ _ Hdone Hfm' Hlen').
        -- apply bool_decide_eq_true in Hdone. destruct Hdone as (-> & -> & ->).
           rewrite Hfm in Hfm'. injection Hfm' as <-. contradiction.
      * intros node' derivative' version' stored' Hdone Hfm' Hlen'.
        apply orb_true_iff in Hdone. destruct Hdone as [Hdone|Hdone].
        -- apply (Hfailed _ _ _ _ Hdone Hfm' Hlen').
        -- apply bool_decide_eq_true in Hdone. destruct Hdone as (-> & -> & ->).
           exists RESULT_ERROR_INVALID_COMPONENT_COUNT, [].
           split; [discriminate|]. apply Hin. left.
Qed.

(** *** Induction over the sweep *)

Section SweepInduction.
Variable P : (Z -> ValueLabel -> nat -> bool) -> Sweep F (NodeStore F) Z -> Prop.
Hypothesis P_ext :
  forall (done done' : Z -> ValueLabel -> nat -> bool) (s : Sweep F (NodeStore F) Z),
    (forall node derivative version,
        is_Some (slot fm node name derivative version) ->
        done node derivative version = done' node derivative version) ->
    P done s -> P done' s.
Hypothesis P_progress :
  forall (done : Z -> ValueLabel -> nat -> bool) (s : Sweep F (NodeStore F) Z),
    P done s -> progress done s.
Hypothesis P_bind :
  forall (done : Z -> ValueLabel -> nat -> bool) (s : Sweep F (NodeStore F) Z)
         (node : Z),
    P done s ->
    P done {| success := success s; store := store s;
              calls := calls s ++ [CallSetNode node] |}.
Hypothesis P_version :
  forall (cache : Fieldcache F Z) (node : Z) (derivative : ValueLabel)
         (s : Sweep F (NodeStore F) Z) (v : nat)
         (done : Z -> ValueLabel -> nat -> bool),
    cacheNode cache = Some node ->
    done node derivative (S v) = false ->
    is_Some (slot fm node name derivative (S v)) ->
    P done s ->
    P (fun node' derivative' version' =>
         done node' derivative' version'
         || bool_decide (node' = node /\ derivative' = derivative /\ version' = S v))
      (transformCoordinates_version field rotationScale offset ncomp cache node
         derivative s v).

Lemma sweep_derivative_ind (nodetemplate : MemNodetemplate)
    (cache : Fieldcache F Z) (node : Z) (derivative : ValueLabel)
    (s : Sweep F (NodeStore F) Z) (done : Z -> ValueLabel -> nat -> bool) :
  cacheNode cache = Some node ->
  (forall version, done node derivative version = false) ->
  (forall v,
      v < Z.to_nat (valueNumberOfVersions nodetemplate field (-1)%Z derivative)
      <-> is_Some (slot fm node name derivative (S v))) ->
  P done s ->
  P (doneLabels done node [derivative])
    (transformCoordinates_derivative field rotationScale offset ncomp nodetemplate
       cache node s derivative).
Proof.
  intros Hcache Hnew Hcount Hs. unfold transformCoordinates_derivative.
  cbn [getValueNumberOfVersions MemZinc_Zinc].
  set (n := Z.to_nat (valueNumberOfVersions nodetemplate field (-1)%Z derivative))
    in *.
  apply (P_ext (doneVersions done node derivative n)).
  { intros node' derivative' version' Hstored. unfold doneVersions, doneLabels.
    f_equal. apply bool_decide_ext. rewrite list_elem_of_singleton.
    split; [tauto|]. intros [-> ->].
    split; [reflexivity|]. split; [reflexivity|].
    destruct version' as [|v]; [destruct Hstored as [x Hx]; discriminate|].
    apply Hcount in Hstored. lia. }
  apply (foldl_seq_progress (fun k s' => P (doneVersions done node derivative k) s')).
  - intros k s' Hk Hs'.
    eapply P_ext;
      [|apply (P_version cache node derivative s' k
                 (doneVersions done node derivative k) Hcache);
        [| |exact Hs']].
    + intros node' derivative' version' _. unfold doneVersions.
      rewrite <- orb_assoc. f_equal.
      destruct (decide (node' = node /\ derivative' = derivative)) as [[-> ->]|Hne].
      * destruct (decide (version' = S k)) as [->|Hv].
        -- rewrite (bool_decide_eq_true_2 (node = node /\ derivative = derivative
                                           /\ S k = S k)) by tauto.
           rewrite orb_true_r. symmetry. apply bool_decide_eq_true_2.
           split; [reflexivity|]. split; [reflexivity|]. lia.
        -- rewrite (bool_decide_eq_false_2 (node = node /\ derivative = derivative
                                            /\ version' = S k)) by tauto.
           rewrite orb_false_r. apply bool_decide_ext.
           split; intros (Hn & Hd & Hr); (split; [exact Hn|]; split; [exact Hd|]; lia).
      * rewrite !bool_decide_eq_false_2 by tauto. reflexivity.
    + unfold doneVersions. rewrite Hnew.
      rewrite bool_decide_eq_false_2 by lia. reflexivity.
    + apply Hcount. exact Hk.
  - eapply P_ext; [|exact Hs].
    intros node' derivative' version' _. unfold doneVersions.
    rewrite bool_decide_eq_false_2 by lia. rewrite orb_false_r. reflexivity.
Qed.

Lemma sweep_labels_ind (nodetemplate : MemNodetemplate) (cache : Fieldcache F Z)
    (node : Z) (labels : list ValueLabel) :
  cacheNode cache = Some node ->
  (forall derivative v,
      v < Z.to_nat (valueNumberOfVersions nodetemplate field (-1)%Z derivative)
      <-> is_Some (slot fm node name derivative (S v))) ->
  NoDup labels ->
  forall (s : Sweep F (NodeStore F) Z) (done : Z -> ValueLabel -> nat -> bool),
    (forall derivative version,
        derivative ∈ labels -> done node derivative version = false) ->
    P done s ->
    P (doneLabels done node labels)
      (foldl (transformCoordinates_derivative field rotationScale offset ncomp
                nodetemplate cache node) s labels).
Proof.
  intros Hcache Hcount Hnodup. induction Hnodup as [|derivative labels Hnotin _ IH];
    intros s done Hnew Hs; cbn [foldl].
  - eapply P_ext; [|exact Hs].
    intros node' derivative' version' _. unfold doneLabels.
    rewrite bool_decide_eq_false_2; [rewrite orb_false_r; reflexivity|].
    intros [_ Hin]. inversion Hin.
  - apply (P_ext (doneLabels (doneLabels done node [derivative]) node labels)).
    + intros node' derivative' version' _. unfold doneLabels.
      rewrite <- orb_assoc. f_equal.
      destruct (decide (node' = node)) as [->|Hne].
      * rewrite <- bool_decide_or. apply bool_decide_ext.
        rewrite list_elem_of_singleton, elem_of_cons. tauto.
      * rewrite !bool_decide_eq_false_2 by tauto. reflexivity.
    + apply IH.
      * intros derivative' version' Hin. unfold doneLabels.
        rewrite (Hnew derivative' version') by (right; exact Hin).
        rewrite bool_decide_eq_false_2; [reflexivity|].
        rewrite list_elem_of_singleton. intros [_ ->]. contradiction.
      * apply sweep_derivative_ind.
        -- exact Hcache.
        -- intros version. apply Hnew. left.
        -- apply Hcount.
        -- exact Hs.
Qed.

Lemma sweep_nodes_ind (nodeIter : list Z) :
  NoDup nodeIter ->
  (forall node, node ∈ nodeIter -> is_Some (fm !! node)) ->
  forall (nodetemplate : MemNodetemplate) (cache : Fieldcache F Z)
         (s : Sweep F (NodeStore F) Z) (done : Z -> ValueLabel -> nat -> bool),
    (forall node derivative version,
        node ∈ nodeIter -> done node derivative version = false) ->
    P done s ->
    P (doneNodes done nodeIter)
      (transformCoordinates_nodes field rotationScale offset ncomp nodetemplate
         cache s nodeIter).
Proof.
  intros Hnodup. induction Hnodup as [|node nodeIter Hnotin _ IH];
    intros Hstored nodetemplate cache s done Hnew Hs;
    cbn [transformCoordinates_nodes].
  - eapply P_ext; [|exact Hs].
    intros node' derivative' version' _. unfold doneNodes.
    rewrite bool_decide_eq_false_2; [rewrite orb_false_r; reflexivity|].
    intros Hin. inversion Hin.
  - apply (P_ext (doneNodes (doneLabels done node valueLabels) nodeIter)).
    + intros node' derivative' version' _. unfold doneNodes, doneLabels.
      rewrite <- orb_assoc. f_equal.
      rewrite <- bool_decide_or. apply bool_decide_ext.
      rewrite elem_of_cons. pose proof (valueLabels_complete derivative'). tauto.
    + apply IH.
      * intros node' Hin. apply Hstored. right. exact Hin.
      * intros node' derivative' version' Hin. unfold doneLabels.
        rewrite (Hnew node' derivative' version') by (right; exact Hin).
        rewrite bool_decide_eq_false_2; [reflexivity|].
        intros [-> _]. contradiction.
      * apply sweep_labels_ind.
        -- reflexivity.
        -- intros derivative v.
           cbn [defineFieldFromNode MemZinc_Zinc store].
           rewrite valueNumberOfVersions_stored.
           ++ apply (sweepProgress_stored done s node derivative (S v)
                       (P_progress done s Hs)).
           ++ apply (progress_nodes _ _ _ _ _ _ (P_progress done s Hs)).
              apply Hstored. left.
        -- apply valueLabels_NoDup.
        -- intros derivative version _. apply Hnew. left.
        -- apply P_bind. exact Hs.
Qed.

Lemma sweep_ind (time : F) :
  P (fun _ _ _ => false) {| success := true; store := fm; calls := [] |} ->
  P (doneNodes (fun _ _ _ => false) (nodeIdentifiers fm))
    (transformCoordinates fm field rotationScale offset time).
Proof.
  intros Hstart.
  rewrite (transformCoordinates_valid field rotationScale offset fm time Hvalid).
  cbn [nodesetNodes createNodetemplate MemZinc_Zinc].
  apply sweep_nodes_ind.
  - apply nodeIdentifiers_NoDup.
  - intros node. apply nodeIdentifiers_stored.
  - reflexivity.
  - exact Hstart.
Qed.

End SweepInduction.

Lemma sweepCalls_transformCoordinates (time : F) :
  called (doneNodes (fun _ _ _ => false) (nodeIdentifiers fm))
    (transformCoordinates fm field rotationScale offset time).
Proof.
  apply (sweep_ind (fun done s => progress done s /\ called done s)).
  - intros done done' s Hext [Hp Hc].
    split; [eapply sweepProgress_ext|eapply sweepCalls_ext]; eassumption.
  - intros done s [Hp _]. exact Hp.
  - intros done s node [Hp Hc]. split.
    + destruct Hp as [Hslots Hnodes Hsuccess]. split; assumption.
    + apply sweepCalls_bind. exact Hc.
  - intros cache node derivative s v done Hcache Hnew Hstored [Hp Hc].
    split; [apply sweepProgress_version|apply sweepCalls_version]; assumption.
  - split.
    + split; cbn [success store].
      * reflexivity.
      * reflexivity.
      * split; [discriminate|reflexivity].
    + split; cbn [calls].
      * intros node field' derivative version result values Hin. inversion Hin.
      * intros node field' derivative version values result Hin. inversion Hin.
      * discriminate.
      * discriminate.
Qed.

(** Every stored slot is behind the sweep at its end. *)
Lemma doneNodes_stored (node : Z) (derivative : ValueLabel) (version : nat)
    (stored : list F) :
  slot fm node name derivative version = Some stored ->
  doneNodes (fun _ _ _ => false) (nodeIdentifiers fm) node derivative version = true.
Proof.
  intros Hfm. unfold doneNodes. cbn [orb]. apply bool_decide_eq_true_2.
  apply nodeIdentifiers_complete. eapply slot_Some_stored. exact Hfm.
Qed.

(** C1. On valid arguments (the call passes validation): over any
    engine, a read of the sweep that returns [RESULT_OK] with [values]
    is followed at once by the write, to the same node, label and
    version, of [rotationScale · values], plus [offset] if and only if
    the label is [VALUE_LABEL_VALUE].  On the in-memory engine, the
    reads that succeed are the reads of the parameter sets that the
    region stores for the field with the component count of the field,
    each returning the set stored; the write that follows returns
    [RESULT_OK], and when [transformCoordinates] returns the node holds
    the parameters written. *)
Theorem transformCoordinates_parameters_written (time : F) (node : Z)
    (derivative : ValueLabel) (version : nat) (values : list F) :
  let newValues :=
    if decide (derivative = VALUE_LABEL_VALUE)
    then vectorops.add (vectorops.matrixvectormult rotationScale values) offset
    else vectorops.matrixvectormult rotationScale values in
  (forall (Store Node Nodetemplate : Type)
          (engine : Zinc F Store Node Nodetemplate) (region : Store)
          (node' : Node) (l1 l2 : list (Call F Node)),
      calls (transformCoordinates region field rotationScale offset time)
      = l1 ++ CallGet node' field derivative version RESULT_OK values :: l2 ->
      exists result l3,
        l2 = CallSet node' field derivative version newValues result :: l3)
  /\ let r := transformCoordinates fm field rotationScale offset time in
     (CallGet node field derivative version RESULT_OK values ∈ calls r
      <-> slot fm node name derivative version = Some values
          /\ length values = ncomp)
     /\ (CallGet node field derivative version RESULT_OK values ∈ calls r ->
         (forall l1 l2,
             calls r
             = l1 ++ CallGet node field derivative version RESULT_OK values :: l2 ->
             exists l3,
               l2 = CallSet node field derivative version newValues RESULT_OK :: l3)
         /\ slot (store r) node name derivative version = Some newValues).
Proof.
  intros newValues. split.
  { intros Store Node Nodetemplate engine region node' l1 l2 Hcalls.
    exact (sweep_read_then_written field rotationScale offset region time l1 l2
             node' field derivative version values Hvalid Hcalls). }
  intros r.
  pose proof (sweepCalls_transformCoordinates time) as [Hread Hwritten Hbehind _].
  fold r in Hread, Hwritten, Hbehind.
  assert (CallGet node field derivative version RESULT_OK values ∈ calls r ->
          slot fm node name derivative version = Some values /\ length values = ncomp)
    as Hstored.
  { intros Hin.
    destruct (Hread _ _ _ _ _ _ Hin) as (_ & stored & Hfm & [(Hlen & _ & ->)|[_ Hne]]).
    - split; assumption.
    - contradiction. }
  split; [split; [exact Hstored|]|].
  - intros [Hfm Hlen].
    apply (Hbehind node derivative version values); [|exact Hfm|exact Hlen].
    apply (doneNodes_stored node derivative version values Hfm).
  - intros Hin. destruct (Hstored Hin) as [Hfm Hlen]. split.
    + intros l1 l2 Hcalls.
      destruct (sweep_read_then_written field rotationScale offset fm time l1 l2 node
                  field derivative version values Hvalid Hcalls)
        as (result & l3 & ->).
      fold newValues in Hcalls |- *.
      assert (CallSet node field derivative version newValues result ∈ calls r)
        as Hset.
      { rewrite Hcalls. apply elem_of_app. right. right. left. }
      destruct (Hwritten _ _ _ _ _ _ Hset) as (_ & -> & _).
      exists l3. reflexivity.
    + subst r. rewrite (sweep_region time node derivative version), Hfm.
      cbn [fmap option_fmap option_map]. unfold transformSlot.
      rewrite decide_True by exact Hlen. reflexivity.
Qed.


End SweepClosedForm.

(** ** Translations *)

Section Translation.
Context {F : Type} `{ExactScalar F}.




End Translation.

(** ** What a sweep never changes *)

Section Shape.
Context {F : Type} `{Scalar F}.

Lemma assignNodeParameters_stored (st : NodeStore F) (cache : Fieldcache F Z)
    (field : Field) (component : Z) (derivative : ValueLabel) (version : nat)
    (values : list F) (k : Z) :
  is_Some (snd (assignNodeParameters st cache field component derivative version
                  values) !! k)
  <-> is_Some (st !! k).
Proof.
  unfold assignNodeParameters.
  destruct (cacheNode cache) as [node|]; [|reflexivity].
  destruct (decide (length values = getNumberOfComponents field)); [|reflexivity].
  destruct (slot st node (getName field) derivative version); [|reflexivity].
  cbn [snd]. apply writeSlot_stored.
Qed.

Lemma transformCoordinates_version_stored (fm : NodeStore F) (field : Field)
    (rotationScale : list (list F)) (offset : list F) (ncomp : nat)
    (cache : Fieldcache F Z) (node : Z) (derivative : ValueLabel)
    (s : Sweep F (NodeStore F) Z) (v : nat) :
  (forall k : Z, is_Some (store s !! k) <-> is_Some (fm !! k)) ->
  forall k : Z,
    is_Some (store (transformCoordinates_version field rotationScale offset ncomp
                      cache node derivative s v) !! k)
    <-> is_Some (fm !! k).
Proof.
  intros Hs k. unfold transformCoordinates_version.
  cbn [getNodeParameters setNodeParameters MemZinc_Zinc].
  destruct (nodeParameters (store s) cache field (-1)%Z derivative (v + 1) ncomp)
    as [result values].
  cbn [success store calls].
  destruct (decide (result <> RESULT_OK)); cbn [store]; [apply Hs|].
  pose proof (assignNodeParameters_stored (store s) cache field (-1)%Z derivative
                (v + 1) (transformValues rotationScale offset derivative values) k)
    as Hassign.
  destruct (assignNodeParameters (store s) cache field (-1)%Z derivative (v + 1)
              (transformValues rotationScale offset derivative values))
    as [result' store'].
  cbn [snd store] in *. rewrite Hassign. apply Hs.
Qed.

Lemma transformCoordinates_nodes_stored (fm : NodeStore F) (field : Field)
    (rotationScale : list (list F)) (offset : list F) (ncomp : nat)
    (nodeIter : list Z) :
  forall (nodetemplate : MemNodetemplate) (cache : Fieldcache F Z)
         (s : Sweep F (NodeStore F) Z),
    (forall k : Z, is_Some (store s !! k) <-> is_Some (fm !! k)) ->
    forall k : Z,
      is_Some (store (transformCoordinates_nodes field rotationScale offset ncomp
                        nodetemplate cache s nodeIter) !! k)
      <-> is_Some (fm !! k).
Proof.
  induction nodeIter as [|node nodeIter IH]; intros nodetemplate cache s Hs;
    cbn [transformCoordinates_nodes].
  - exact Hs.
  - apply IH.
    apply (foldl_preserves
             (fun s' : Sweep F (NodeStore F) Z =>
                forall k : Z, is_Some (store s' !! k) <-> is_Some (fm !! k)));
      [|exact Hs].
    intros s' derivative _ Hs'. unfold transformCoordinates_derivative.
    apply (foldl_preserves
             (fun s' : Sweep F (NodeStore F) Z =>
                forall k : Z, is_Some (store s' !! k) <-> is_Some (fm !! k)));
      [|exact Hs'].
    intros s'' v _ Hs''. apply transformCoordinates_version_stored. exact Hs''.
Qed.

(** X4. Whatever its arguments, [transformCoordinates] keeps the nodes
    of the region and the shape of what they store: every slot of every
    field that was stored is stored, with as many components as before,
    and no slot is added. *)
Theorem transformCoordinates_keeps_shape (field : Field)
    (rotationScale : list (list F)) (offset : list F) (fm : NodeStore F) (time : F) :
  let r := transformCoordinates fm field rotationScale offset time in
  dom (store r) = dom fm
  /\ forall node name derivative version,
       length <$> slot (store r) node name derivative version
       = length <$> slot fm node name derivative version.
Proof.
  intros r. split.
  - apply set_eq. intros k. rewrite !elem_of_dom. subst r.
    destruct (transformCoordinates_cases field rotationScale offset fm time)
      as [-> | ->]; [reflexivity|].
    apply transformCoordinates_nodes_stored. reflexivity.
  - intros node name derivative version.
    destruct (sweepInvariant_transformCoordinates field rotationScale offset fm time)
      as [Hu Hr Ho _ _].
    fold r in Hu, Hr, Ho.
    destruct (decide (name = getName field)) as [->|Hname];
      [|rewrite Ho by exact Hname; reflexivity].
    destruct (readable_decide fm (getName field) (getNumberOfComponents field) node
                derivative version) as [Hyes|Hno];
      [|rewrite Hu by exact Hno; reflexivity].
    pose proof (Hr _ _ _ Hyes) as Hafter. unfold readable in Hyes, Hafter.
    destruct (slot fm node (getName field) derivative version); [|contradiction].
    destruct (slot (store r) node (getName field) derivative version);
      [|contradiction].
    simpl. congruence.
Qed.

End Shape.

(** ** The sweep over any engine: writes follow reads *)

Section WritesFollowReads.
Context {F : Type} `{Scalar F} {Store Node Nodetemplate : Type}
  `{Zinc F Store Node Nodetemplate}.

Lemma sweepLog_written_after_read (field : Field) (rotationScale : list (list F))
    (offset : list F) (l : list (Call F Node)) :
  sweepLog field rotationScale offset l ->
  forall l1 l2 node field' derivative version values result,
    l = l1 ++ CallSet node field' derivative version values result :: l2 ->
    exists l0 read,
      l1 = l0 ++ [CallGet node field derivative version RESULT_OK read]
      /\ field' = field
      /\ values = transformValues rotationScale offset derivative read.
Proof.
  induction 1 as [|node0 l Hl IH|node0 d0 v0 r0 vals0 l Hr Hl IH
                  |node0 d0 v0 vals0 r0 l Hl IH];
    intros l1 l2 node field' derivative version values result Heq.
  - destruct l1; discriminate.
  - destruct l1 as [|c l1]; [discriminate|].
    injection Heq as Hc Heq. subst c.
    destruct (IH _ _ _ _ _ _ _ _ Heq) as (l0 & read & -> & Hf & Hv).
    exists (CallSetNode node0 :: l0), read. repeat split; assumption.
  - destruct l1 as [|c l1]; [discriminate|].
    injection Heq as Hc Heq. subst c.
    destruct (IH _ _ _ _ _ _ _ _ Heq) as (l0 & read & -> & Hf & Hv).
    exists (CallGet node0 field d0 v0 r0 vals0 :: l0), read.
    repeat split; assumption.
  - destruct l1 as [|c l1]; [discriminate|].
    injection Heq as Hc Heq. subst c.
    destruct l1 as [|c' l1].
    + injection Heq as <- <- <- <- <- <-.
      exists [], vals0. repeat split.
    + injection Heq as Hc' Heq. subst c'.
      destruct (IH _ _ _ _ _ _ _ _ Heq) as (l0 & read & -> & Hf & Hv).
      exists (CallGet node0 field d0 v0 RESULT_OK vals0
              :: CallSet node0 field d0 v0
                   (transformValues rotationScale offset d0 vals0) r0 :: l0), read.
      repeat split; assumption.
Qed.

(** X5. Over any engine and whatever the arguments, every
    [setNodeParameters] call of [transformCoordinates] is on the field
    given and comes straight after a [getNodeParameters] call that
    returned [RESULT_OK] for the same node, label and version; what it
    writes is the transformation of what that call read. *)
Theorem transformCoordinates_writes_follow_reads (fm : Store) (field : Field)
    (rotationScale : list (list F)) (offset : list F) (time : F)
    (l1 l2 : list (Call F Node)) (node : Node) (field' : Field)
    (derivative : ValueLabel) (version : nat) (values : list F) (result : Result) :
  calls (transformCoordinates fm field rotationScale offset time)
  = l1 ++ CallSet node field' derivative version values result :: l2 ->
  exists l0 read,
    l1 = l0 ++ [CallGet node field derivative version RESULT_OK read]
    /\ field' = field
    /\ values = transformValues rotationScale offset derivative read.
Proof.
  intros Hcalls.
  destruct (transformCoordinates_cases field rotationScale offset fm time)
    as [Hfail|Hsweep].
  - rewrite Hfail in Hcalls. destruct l1; discriminate.
  - rewrite Hsweep in Hcalls.
    destruct (transformCoordinates_nodes_continues field rotationScale offset
                (nodesetNodes fm) (createNodetemplate fm)
                (setTime createFieldcache time)
                {| success := true; store := fm; calls := [] |})
      as (l & Hl & Hlog & _ & _).
    simpl in Hl. rewrite Hl in Hcalls.
    apply (sweepLog_written_after_read field rotationScale offset l Hlog
             _ _ _ _ _ _ _ _ Hcalls).
Qed.

End WritesFollowReads.

(** ** Name centres: when they are returned *)

Lemma dict_get_None {V : Type} (d : list (string * V)) (k : string) :
  dict_get d k = None <-> k ∉ map fst d.
Proof.
  induction d as [|[k' v'] d IH]; simpl.
  - split; [intros _ Hin; inversion Hin|reflexivity].
  - rewrite not_elem_of_cons. destruct (decide (k' = k)) as [->|Hne].
    + split; [discriminate|]. intros [Hk _]. contradiction.
    + rewrite IH. split; [intros Hd; split; [congruence|exact Hd]|tauto].
Qed.

Lemma dict_set_fresh {V : Type} (d : list (string * V)) (k : string) (v : V) :
  dict_get d k = None -> dict_set d k v = d ++ [(k, v)].
Proof.
  induction d as [|[k' v'] d IH]; simpl; [reflexivity|].
  destruct (decide (k' = k)); [discriminate|].
  intros Hget. rewrite IH by exact Hget. reflexivity.
Qed.

Section NameCentresReturned.
Context {F : Type} `{Scalar F} {Node : Type}.
Variable evaluateString : Field -> Fieldcache F Node -> option string.
Variable evaluateReal : Field -> Fieldcache F Node -> nat -> Result * list F.
Variables coordinatesField nameField : Field.

Local Abbreviation componentsCount := (getNumberOfComponents coordinatesField).
Local Abbreviation counts :=
  (namedAndEvaluable evaluateString evaluateReal coordinatesField nameField).
Local Abbreviation name := (nodeName evaluateString nameField).
Local Abbreviation coordinates := (nodeCoordinates evaluateReal coordinatesField).
Local Abbreviation step :=
  (getNodeNameCentres_node evaluateString evaluateReal coordinatesField nameField
     componentsCount).
Local Abbreviation loop :=
  (getNodeNameCentres_nodes evaluateString evaluateReal coordinatesField nameField
     componentsCount).

Lemma counts_name (node : Node) :
  counts node = true ->
  evaluateString nameField (setNode createFieldcache node) = Some (name node).
Proof.
  unfold namedAndEvaluable, nodeName. intros Hc.
  apply andb_true_iff in Hc. destruct Hc as [Hc _].
  destruct (evaluateString nameField (setNode createFieldcache node));
    [reflexivity|discriminate].
Qed.

(** The first node of a name makes its record. *)
Lemma getNodeNameCentres_node_first (c : Fieldcache F Node)
    (nameRecords : list (string * (list F * nat))) (node : Node) :
  cacheTime c = fzero ->
  counts node = true ->
  dict_get nameRecords (name node) = None ->
  step c nameRecords node
  = Return (nameRecords ++ [(name node, (coordinates node, 1))]).
Proof.
  intros Ht Hc Hget. pose proof (counts_name node Hc) as Hname.
  unfold getNodeNameCentres_node.
  rewrite (setNode_time c createFieldcache node Ht).
  unfold namedAndEvaluable in Hc. unfold nodeCoordinates.
  destruct (evaluateReal coordinatesField (setNode createFieldcache node)
              componentsCount) as [result values].
  cbn [fst snd] in *. rewrite Hc, Hname. cbn [default from_option id].
  change (from_option id ""%string (Some (name node))) with (name node).
  rewrite Hget. rewrite dict_set_fresh by exact Hget. reflexivity.
Qed.

Lemma add_components_raises (cs : list nat) (nameCentre values : list F) (e : PyExn) :
  add_components cs nameCentre values = Raise e -> e = IndexError.
Proof.
  revert nameCentre. induction cs as [|i cs IH]; intros nameCentre; simpl.
  - discriminate.
  - unfold py_getitem, py_setitem.
    destruct (nameCentre !! i); simpl; [|congruence].
    destruct (values !! i); simpl; [|congruence].
    destruct (decide (i < length nameCentre)); simpl; [apply IH|congruence].
Qed.

(** A later node of the name raises. *)
Lemma getNodeNameCentres_node_later (c : Fieldcache F Node)
    (nameRecords : list (string * (list F * nat))) (node : Node) :
  cacheTime c = fzero ->
  counts node = true ->
  dict_get nameRecords (name node) <> None ->
  exists e, step c nameRecords node = Raise e /\ (e = TypeError \/ e = IndexError).
Proof.
  intros Ht Hc Hget. pose proof (counts_name node Hc) as Hname.
  unfold getNodeNameCentres_node.
  rewrite (setNode_time c createFieldcache node Ht).
  unfold namedAndEvaluable in Hc.
  destruct (evaluateReal coordinatesField (setNode createFieldcache node)
              componentsCount) as [result values].
  cbn [fst snd] in *. rewrite Hc, Hname.
  change (default ""%string (Some (name node))) with (name node).
  destruct (dict_get nameRecords (name node)) as [nameRecord|]; [|contradiction].
  destruct (add_components (seq 0 componentsCount) (fst nameRecord) values)
    as [nameCentre|e] eqn:Hadd; simpl.
  - exists TypeError. split; [reflexivity|left; reflexivity].
  - exists e. split; [reflexivity|]. right. eapply add_components_raises. exact Hadd.
Qed.

Lemma getNodeNameCentres_nodes_distinct (nodeiter : list Node) :
  forall (c : Fieldcache F Node) (nameRecords : list (string * (list F * nat))),
    cacheTime c = fzero ->
    Forall (fun node => counts node = true) nodeiter ->
    NoDup (map fst nameRecords ++ map name nodeiter) ->
    loop c nameRecords nodeiter
    = Return (nameRecords
              ++ map (fun node => (name node, (coordinates node, 1))) nodeiter).
Proof.
  induction nodeiter as [|node nodeiter IH]; intros c nameRecords Ht Hall Hnodup.
  - simpl. rewrite app_nil_r. reflexivity.
  - inversion Hall as [|? ? Hc Hall']; subst.
    cbn [getNodeNameCentres_nodes].
    rewrite getNodeNameCentres_node_first; [|exact Ht|exact Hc|].
    + cbn [bindPy]. rewrite IH; [|exact Ht|exact Hall'|].
      * rewrite <- app_assoc. reflexivity.
      * rewrite map_app. cbn [map fst]. rewrite <- app_assoc. exact Hnodup.
    + apply dict_get_None. apply NoDup_app in Hnodup.
      destruct Hnodup as (_ & Hdisjoint & _).
      intros Hin. apply (Hdisjoint _ Hin). left.
Qed.

Lemma getNodeNameCentres_nodes_repeated (nodeiter : list Node) :
  forall (c : Fieldcache F Node) (nameRecords : list (string * (list F * nat))),
    cacheTime c = fzero ->
    Forall (fun node => counts node = true) nodeiter ->
    NoDup (map fst nameRecords) ->
    ~ NoDup (map fst nameRecords ++ map name nodeiter) ->
    exists e,
      loop c nameRecords nodeiter = Raise e /\ (e = TypeError \/ e = IndexError).
Proof.
  induction nodeiter as [|node nodeiter IH];
    intros c nameRecords Ht Hall Hkeys Hrepeat.
  - exfalso. apply Hrepeat. cbn [map]. rewrite app_nil_r. exact Hkeys.
  - inversion Hall as [|? ? Hc Hall']; subst.
    cbn [getNodeNameCentres_nodes].
    destruct (decide (name node ∈ map fst nameRecords)) as [Hin|Hnotin].
    + destruct (getNodeNameCentres_node_later c nameRecords node Ht Hc)
        as (e & -> & He).
      * intros Hnone. apply dict_get_None in Hnone. contradiction.
      * exists e. split; [reflexivity|exact He].
    + rewrite getNodeNameCentres_node_first;
        [|exact Ht|exact Hc|apply dict_get_None; exact Hnotin].
      cbn [bindPy]. apply IH; [exact Ht|exact Hall'| |].
      * rewrite map_app. cbn [map fst]. apply NoDup_app.
        split; [exact Hkeys|]. split; [|apply NoDup_singleton].
        intros k Hk Hk'. apply list_elem_of_singleton in Hk'. subst k. contradiction.
      * rewrite map_app. cbn [map fst]. rewrite <- app_assoc. exact Hrepeat.
Qed.

Lemma getNodeNameCentres_divide_single (count : nat)
    (nameRecords : list (string * (list F * nat))) :
  forall nameCentres : list (string * list F),
    Forall (fun nameRecord => snd (snd nameRecord) = 1) nameRecords ->
    NoDup (map fst nameCentres ++ map fst nameRecords) ->
    getNodeNameCentres_divide count nameRecords nameCentres
    = Return (nameCentres
              ++ map (fun nameRecord => (fst nameRecord, fst (snd nameRecord)))
                   nameRecords).
Proof.
  induction nameRecords as [|[k [centre n]] nameRecords IH];
    intros nameCentres Hall Hnodup.
  - simpl. rewrite app_nil_r. reflexivity.
  - inversion Hall as [|? ? Hn Hall']; subst. cbn [snd fst] in Hn. subst n.
    cbn [getNodeNameCentres_divide snd fst].
    rewrite decide_False by lia. cbn [bindPy].
    rewrite dict_set_fresh.
    + rewrite IH; [|exact Hall'|].
      * rewrite <- app_assoc. reflexivity.
      * rewrite map_app. cbn [map fst]. rewrite <- app_assoc. exact Hnodup.
    + apply dict_get_None. apply NoDup_app in Hnodup.
      destruct Hnodup as (_ & Hdisjoint & _).
      intros Hin. apply (Hdisjoint _ Hin). left.
Qed.

(** X6. When the nodes that count carry distinct names,
    [getNodeNameCentres] returns, in iteration order, each of these
    names with the coordinates of its node. *)
Theorem getNodeNameCentres_distinct_names (nodeset : list Node) :
  let counted := filter (fun node => counts node = true) nodeset in
  NoDup (map name counted) ->
  getNodeNameCentres evaluateString evaluateReal nodeset coordinatesField nameField
  = Return (map (fun node => (name node, coordinates node)) counted).
Proof.
  intros counted Hnodup. unfold getNodeNameCentres.
  rewrite (getNodeNameCentres_nodes_filter evaluateString evaluateReal
             coordinatesField nameField nodeset createFieldcache [] eq_refl).
  fold counted.
  rewrite getNodeNameCentres_nodes_distinct; [|reflexivity| |exact Hnodup].
  - cbn [bindPy app].
    rewrite getNodeNameCentres_divide_single.
    + cbn [app]. rewrite map_map. reflexivity.
    + apply Forall_forall. intros nameRecord Hin.
      apply list_elem_of_fmap in Hin. destruct Hin as (node & -> & _). reflexivity.
    + cbn [map app]. rewrite map_map. exact Hnodup.
  - apply Forall_forall. intros node Hin.
    apply list_elem_of_filter in Hin. tauto.
Qed.

(** X7. When two nodes that count carry the same name,
    [getNodeNameCentres] returns nothing: it raises [TypeError] at the
    second of them ([IndexError] if a coordinate list is too short). *)
Theorem getNodeNameCentres_same_name_raises (nodeset : list Node) :
  let counted := filter (fun node => counts node = true) nodeset in
  ~ NoDup (map name counted) ->
  exists e,
    getNodeNameCentres evaluateString evaluateReal nodeset coordinatesField
      nameField = Raise e
    /\ (e = TypeError \/ e = IndexError).
Proof.
  intros counted Hrepeat. unfold getNodeNameCentres.
  rewrite (getNodeNameCentres_nodes_filter evaluateString evaluateReal
             coordinatesField nameField nodeset createFieldcache [] eq_refl).
  fold counted.
  destruct (getNodeNameCentres_nodes_repeated counted createFieldcache [] eq_refl)
    as (e & -> & He).
  - apply Forall_forall. intros node Hin.
    apply list_elem_of_filter in Hin. tauto.
  - apply NoDup_nil. exact I.
  - exact Hrepeat.
  - exists e. split; [reflexivity|exact He].
Qed.

End NameCentresReturned.

(** ** Searching: the order of the nodes does not matter *)

Section FindOrder.
Context {F : Type} `{Scalar F} {Node : Type}.
Variable evaluateString : Field -> Fieldcache F Node -> option string.

(** X8. [findNodeWithName] does not depend on the order in which the
    nodes of the nodeset are iterated. *)
Theorem findNodeWithName_order (nodeset nodeset' : list Node) (nameField : Field)
    (name : option string) :
  nodeset ≡ₚ nodeset' ->
  findNodeWithName evaluateString nodeset nameField name
  = findNodeWithName evaluateString nodeset' nameField name.
Proof.
  intros Hperm. unfold findNodeWithName.
  rewrite !findNodeWithName_loop_spec by reflexivity.
  assert (nodesNamed evaluateString nameField name nodeset
          ≡ₚ nodesNamed evaluateString nameField name nodeset') as Hfilter.
  { unfold nodesNamed. rewrite Hperm. reflexivity. }
  pose proof (Permutation_length Hfilter) as Hlength.
  destruct (nodesNamed evaluateString nameField name nodeset) as [|a [|b l]],
    (nodesNamed evaluateString nameField name nodeset') as [|a' [|b' l']];
    simpl in Hlength; try lia; try reflexivity.
  apply Permutation_singleton_inj in Hfilter. rewrite Hfilter. reflexivity.
Qed.

End FindOrder.

(** ** Creating nodes: what the region holds afterwards *)

Section CreatedNodes.
Context {F : Type} `{Scalar F}.

Lemma assignReal_others (st : NodeStore F) (cache : Fieldcache F Z)
    (field : Field) (values : list F) (node k : Z) :
  cacheNode cache = Some node ->
  k <> node ->
  snd (assignReal st cache field values) !! k = st !! k.
Proof.
  intros Hcache Hne. unfold assignReal. rewrite Hcache.
  destruct (decide (getNumberOfComponents field <= length values)); [|reflexivity].
  destruct (slot st node (getName field) VALUE_LABEL_VALUE 1); [|reflexivity].
  cbn [snd]. unfold writeSlot.
  destruct (st !! node) as [data|]; [|reflexivity].
  destruct (data !! (getName field, VALUE_LABEL_VALUE)); [|reflexivity].
  apply lookup_insert_ne. congruence.
Qed.

(** One turn of the loop of [createNodes]: the new node has an
    identifier that was not in use, and the other nodes are kept. *)
Lemma createNodes_turn (fm : NodeStore F) (template : MemNodetemplate)
    (cache : Fieldcache F Z) (field : Field) (coordinate : list F) :
  exists (identifier : Z) (fm1 fm2 : NodeStore F) (result : Result),
    createNode fm (-1)%Z template = (Some identifier, fm1)
    /\ assignReal fm1 {| cacheTime := cacheTime cache; cacheNode := Some identifier |}
         field coordinate = (result, fm2)
    /\ fm !! identifier = None
    /\ is_Some (fm2 !! identifier)
    /\ (forall k, k <> identifier -> fm2 !! k = fm !! k).
Proof.
  destruct (createNode_smallest_unused fm template)
    as (identifier & data & Hcreate & _ & Hfree & _).
  set (cache' := {| cacheTime := cacheTime cache; cacheNode := Some identifier |}).
  destruct (assignReal (<[identifier := data]> fm) cache' field coordinate)
    as [result fm2] eqn:Hassign.
  exists identifier, (<[identifier := data]> fm), fm2, result.
  split; [exact Hcreate|]. split; [exact Hassign|]. split; [exact Hfree|].
  split.
  - pose proof (assignReal_stored (<[identifier := data]> fm) cache' field coordinate
                  identifier) as Hstored.
    rewrite Hassign in Hstored. cbn [snd] in Hstored. apply Hstored.
    rewrite lookup_insert_eq. eexists. reflexivity.
  - intros k Hne.
    pose proof (assignReal_others (<[identifier := data]> fm) cache' field coordinate
                  identifier k eq_refl Hne) as Hothers.
    rewrite Hassign in Hothers. cbn [snd] in Hothers. rewrite Hothers.
    apply lookup_insert_ne. congruence.
Qed.

Lemma createNodes_loop_grows (field : Field) (template : MemNodetemplate)
    (coordinates : list (list F)) :
  forall (fm : NodeStore F) (cache : Fieldcache F Z),
    fm ⊆ createNodes_loop field template cache fm coordinates
    /\ size (createNodes_loop field template cache fm coordinates)
       = size fm + length coordinates.
Proof.
  induction coordinates as [|coordinate coordinates IH]; intros fm cache.
  - cbn [createNodes_loop length]. split; [reflexivity|lia].
  - cbn [createNodes_loop length].
    destruct (createNodes_turn fm template cache field coordinate)
      as (identifier & fm1 & fm2 & result & -> & -> & Hfree & Hnew & Hothers).
    destruct (IH fm2 {| cacheTime := cacheTime cache; cacheNode := Some identifier |})
      as [Hsub Hsize].
    split.
    + etransitivity; [|exact Hsub].
      apply map_subseteq_spec. intros k data Hk.
      rewrite Hothers; [exact Hk|]. intros ->. congruence.
    + rewrite Hsize.
      assert (size fm2 = S (size fm)) as ->; [|lia].
      rewrite <- !size_dom.
      assert (dom fm2 = {[identifier]} ∪ dom fm) as ->.
      { apply set_eq. intros k. rewrite elem_of_union, elem_of_singleton.
        rewrite !elem_of_dom.
        destruct (decide (k = identifier)) as [->|Hne]; [tauto|].
        rewrite Hothers by exact Hne. tauto. }
      rewrite size_union by (apply disjoint_singleton_l, not_elem_of_dom; exact Hfree).
      rewrite size_singleton. reflexivity.
Qed.

(** X9. On any region, [createNodes] with a finite element field
    returns a region that holds every node it held, unchanged, and one
    more node for each coordinate. *)
Theorem createNodes_keeps_nodes (fm : NodeStore F) (finite_element_field : Field)
    (node_coordinate_set : list (list F)) :
  isFiniteElement finite_element_field = true ->
  exists fm' : NodeStore F,
    createNodes fm finite_element_field node_coordinate_set = Return fm'
    /\ fm ⊆ fm'
    /\ size fm' = size fm + length node_coordinate_set.
Proof.
  intros Hfe. unfold createNodes, castFiniteElement. rewrite Hfe.
  cbn [isValid py_assert bindPy].
  eexists. split; [reflexivity|]. apply createNodes_loop_grows.
Qed.

Lemma defineField_created (field : Field) :
  isFiniteElement field = true ->
  (fun '(components, versions) => replicate versions (replicate components fzero))
    <$> defineField (newNodetemplate (∅ : NodeStore F)) field
  = ({[ (getName field, VALUE_LABEL_VALUE) :=
          [replicate (getNumberOfComponents field) (fzero : F)] ]} : NodeData F).
Proof.
  intros Hfe. unfold defineField, newNodetemplate. rewrite Hfe.
  rewrite insert_empty, map_fmap_singleton. reflexivity.
Qed.

(** One turn of the node loops with the template of [createNodes]: the
    new node stores one version of the value of the field and nothing
    else, and this version is the coordinate when the coordinate has
    the component count of the field. *)
Lemma createNodes_turn_stored (fm : NodeStore F) (cache : Fieldcache F Z)
    (field : Field) (coordinate : list F) :
  isFiniteElement field = true ->
  exists (identifier : Z) (fm1 : NodeStore F) (result : Result) (values : list F),
    createNode fm (-1)%Z (defineField (newNodetemplate (∅ : NodeStore F)) field)
    = (Some identifier, fm1)
    /\ assignReal fm1 {| cacheTime := cacheTime cache; cacheNode := Some identifier |}
         field coordinate
       = (result,
          <[identifier := {[ (getName field, VALUE_LABEL_VALUE) := [values] ]}]> fm)
    /\ fm !! identifier = None
    /\ length values = getNumberOfComponents field
    /\ (length coordinate = getNumberOfComponents field -> values = coordinate).
Proof.
  intros Hfe.
  set (template := defineField (newNodetemplate (∅ : NodeStore F)) field).
  destruct (createNode_smallest_unused fm template)
    as (identifier & data & Hcreate & _ & Hfree & _).
  set (zeros := replicate (getNumberOfComponents field) (fzero : F)).
  assert (createNode fm (-1)%Z template
          = (Some identifier,
             <[identifier :=
                 ({[ (getName field, VALUE_LABEL_VALUE) := [zeros] ]} : NodeData F)]>
               fm)) as Hcreate'.
  { unfold createNode in Hcreate |- *.
    rewrite decide_True in Hcreate |- * by reflexivity.
    injection Hcreate as Hid _. rewrite Hid.
    subst template. rewrite (defineField_created field Hfe). reflexivity. }
  clear Hcreate data.
  set (fm1 := <[identifier := _]> fm) in Hcreate'.
  assert (slot fm1 identifier (getName field) VALUE_LABEL_VALUE 1 = Some zeros)
    as Hslot.
  { unfold slot, fm1. rewrite lookup_insert_eq. simpl.
    rewrite lookup_singleton_eq. reflexivity. }
  destruct (decide (getNumberOfComponents field <= length coordinate)) as [Hle|Hlt].
  - exists identifier, fm1, RESULT_OK, (take (getNumberOfComponents field) coordinate).
    split; [exact Hcreate'|]. split; [|split; [exact Hfree|split]].
    + unfold assignReal. cbn [cacheNode]. rewrite decide_True by exact Hle.
      rewrite Hslot. f_equal.
      unfold writeSlot, fm1. rewrite lookup_insert_eq, lookup_singleton_eq.
      rewrite insert_insert_eq, insert_singleton_eq. reflexivity.
    + rewrite length_take. lia.
    + intros Hlen. apply take_ge. lia.
  - exists identifier, fm1, RESULT_ERROR_ARGUMENT, zeros.
    split; [exact Hcreate'|]. split; [|split; [exact Hfree|split]].
    + unfold assignReal. cbn [cacheNode]. rewrite decide_False by exact Hlt.
      reflexivity.
    + apply length_replicate.
    + intros Hlen. lia.
Qed.

(** The node loop of [createCubeElement], with the template of
    [createNodes]: the identifier collected at position [k] is the one
    [createNode] gives once the coordinates before position [k] have
    their nodes, and its node is made for the coordinate at position
    [k]. *)
Lemma createCubeElement_nodes_stored (field : Field)
    (coordinates : list (list F)) :
  isFiniteElement field = true ->
  let template := defineField (newNodetemplate (∅ : NodeStore F)) field in
  forall (fm : NodeStore F) (identifiers : list Z) (cache : Fieldcache F Z),
    exists new : list Z,
      createCubeElement_nodes field template cache fm identifiers coordinates
      = (createNodes_loop field template cache fm coordinates, identifiers ++ new)
      /\ forall (k : nat) (coordinate : list F),
           coordinates !! k = Some coordinate ->
           exists (i : Z) (values : list F),
             new !! k = Some i
             /\ fst (createNode
                       (createNodes_loop field template cache fm (take k coordinates))
                       (-1)%Z template) = Some i
             /\ createNodes_loop field template cache fm coordinates !! i
                = Some {[ (getName field, VALUE_LABEL_VALUE) := [values] ]}
             /\ length values = getNumberOfComponents field
             /\ (length coordinate = getNumberOfComponents field ->
                 values = coordinate).
Proof.
  intros Hfe template.
  induction coordinates as [|coordinate coordinates IH]; intros fm identifiers cache.
  - exists []. cbn [createCubeElement_nodes createNodes_loop]. rewrite app_nil_r.
    split; [reflexivity|]. intros k c Hk. rewrite lookup_nil in Hk. discriminate.
  - destruct (createNodes_turn_stored fm cache field coordinate Hfe)
      as (identifier & fm1 & result & values & Hcreate & Hassign & Hfree & Hlen & Heq).
    fold template in Hcreate.
    set (cache' := {| cacheTime := cacheTime cache; cacheNode := Some identifier |})
      in *.
    set (fm2 := <[identifier := _]> fm) in *.
    destruct (IH fm2 (identifiers ++ [identifier]) cache') as (new & Hnew & Hin).
    destruct (createNodes_loop_grows field template coordinates fm2 cache')
      as [Hsub _].
    exists (identifier :: new). split.
    + cbn [createCubeElement_nodes createNodes_loop]. rewrite Hcreate.
      change (getIdentifier (Some identifier)) with identifier.
      fold cache'. rewrite Hassign, Hnew, <- app_assoc. reflexivity.
    + intros k c Hk. destruct k as [|k].
      * cbn [lookup list_lookup] in Hk. injection Hk as <-.
        exists identifier, values. split; [reflexivity|].
        split; [cbn [take createNodes_loop]; rewrite Hcreate; reflexivity|].
        split; [|split; [exact Hlen|exact Heq]].
        cbn [createNodes_loop]. rewrite Hcreate. fold cache'. rewrite Hassign.
        eapply lookup_weaken; [|exact Hsub]. apply lookup_insert_eq.
      * cbn [lookup list_lookup] in Hk.
        destruct (Hin k c Hk) as (i & values' & Hi & Hgiven & Hstored & Hlen' & Heq').
        exists i, values'. split; [exact Hi|].
        cbn [take createNodes_loop]. rewrite Hcreate. fold cache'. rewrite Hassign.
        split; [exact Hgiven|]. split; [exact Hstored|]. split; assumption.
Qed.

(** What [createNodes] makes of a region without nodes. *)
Lemma createNodes_made (field : Field) (coordinates : list (list F)) :
  isFiniteElement field = true ->
  exists fm : NodeStore F,
    createNodes ∅ field coordinates = Return fm
    /\ (forall (k : nat) (coordinate : list F),
          coordinates !! k = Some coordinate ->
          exists values : list F,
            fm !! Z.of_nat k = Some {[ (getName field, VALUE_LABEL_VALUE) := [values] ]}
            /\ length values = getNumberOfComponents field
            /\ (length coordinate = getNumberOfComponents field ->
                values = coordinate))
    /\ (forall j : Z, is_Some (fm !! j) <-> (0 <= j < Z.of_nat (length coordinates))%Z).
Proof.
  intros Hfe. unfold createNodes, castFiniteElement. rewrite Hfe.
  cbn [isValid py_assert bindPy].
  assert (forall j : Z, is_Some ((∅ : NodeStore F) !! j) <-> (0 <= j < Z.of_nat 0)%Z)
    as Hempty.
  { intros j. rewrite lookup_empty. split; [intros [? ?]; discriminate|lia]. }
  set (template := defineField (newNodetemplate (∅ : NodeStore F)) field).
  destruct (createNodes_loops field template coordinates ∅ 0 [] createFieldcache Hempty)
    as [Hcube Hdom].
  destruct (createCubeElement_nodes_stored field coordinates Hfe ∅ [] createFieldcache)
    as (new & Hnew & Hin).
  fold template in Hnew, Hin. rewrite Hcube in Hnew.
  injection Hnew as Hnew. cbn [app] in Hnew. subst new.
  eexists. split; [reflexivity|]. split; [|exact Hdom].
  intros k coordinate Hk.
  destruct (Hin k coordinate Hk) as (i & values & Hi & _ & Hstored & Hlen & Heq).
  apply lookup_seqZ in Hi. destruct Hi as [-> _].
  exists values. rewrite Z.add_0_l in Hstored. split; [exact Hstored|].
  split; assumption.
Qed.

(** X10. On a region without nodes, [createNodes] with a finite
    element field makes the node [k] for the coordinate at position
    [k]: when the coordinate has the component count of the field, the
    node stores it as the one version of the value of the field, and
    nothing else; no node is made beyond the coordinates. *)
Theorem createNodes_stores_coordinates (finite_element_field : Field)
    (node_coordinate_set : list (list F)) :
  isFiniteElement finite_element_field = true ->
  exists fm : NodeStore F,
    createNodes ∅ finite_element_field node_coordinate_set = Return fm
    /\ (forall (k : nat) (node_coordinate : list F),
          node_coordinate_set !! k = Some node_coordinate ->
          length node_coordinate = getNumberOfComponents finite_element_field ->
          fm !! Z.of_nat k
          = Some {[ (getName finite_element_field, VALUE_LABEL_VALUE) :=
                      [node_coordinate] ]}
          /\ slot fm (Z.of_nat k) (getName finite_element_field) VALUE_LABEL_VALUE 1
             = Some node_coordinate)
    /\ (forall k : nat,
          node_coordinate_set !! k = None -> fm !! Z.of_nat k = None).
Proof.
  intros Hfe.
  destruct (createNodes_made finite_element_field node_coordinate_set Hfe)
    as (fm & Hcreate & Hcreated & Hdom).
  exists fm. split; [exact Hcreate|]. split.
  - intros k node_coordinate Hk Hlen.
    destruct (Hcreated k node_coordinate Hk) as (values & Hstored & _ & Heq).
    rewrite (Heq Hlen) in Hstored. split; [exact Hstored|].
    unfold slot. rewrite Hstored. simpl. rewrite lookup_singleton_eq. reflexivity.
  - intros k Hk. apply eq_None_not_Some. rewrite Hdom.
    apply lookup_ge_None in Hk. lia.
Qed.

Lemma created_conforms (field : Field) (coordinates : list (list F))
    (fm : NodeStore F) :
  (forall j : Z, is_Some (fm !! j) <-> (0 <= j < Z.of_nat (length coordinates))%Z) ->
  (forall (k : nat) (coordinate : list F),
      coordinates !! k = Some coordinate ->
      exists values : list F,
        fm !! Z.of_nat k = Some {[ (getName field, VALUE_LABEL_VALUE) := [values] ]}
        /\ length values = getNumberOfComponents field
        /\ (length coordinate = getNumberOfComponents field -> values = coordinate)) ->
  storeConforms field fm.
Proof.
  intros Hdom Hcreated node data derivative versions values Hnode Hdata Hin.
  assert (0 <= node < Z.of_nat (length coordinates))%Z as Hrange
    by (apply Hdom; rewrite Hnode; eexists; reflexivity).
  destruct (lookup_lt_is_Some_2 coordinates (Z.to_nat node)) as [coordinate Hk];
    [lia|].
  destruct (Hcreated (Z.to_nat node) coordinate Hk) as (stored & Hstored & Hlen & _).
  rewrite Z2Nat.id in Hstored by lia. rewrite Hnode in Hstored.
  injection Hstored as ->.
  apply lookup_singleton_Some in Hdata. destruct Hdata as [_ <-].
  apply list_elem_of_singleton in Hin. subst values. exact Hlen.
Qed.

(** X11. [createNodes] and then [transformCoordinates]: on the region
    that [createNodes] makes from no nodes, [transformCoordinates] with
    valid arguments returns [True], and the node of a coordinate that
    has the component count of the field then holds
    [rotationScale · coordinate + offset]. *)
Theorem createNodes_then_transformCoordinates (field : Field)
    (node_coordinate_set : list (list F)) (rotationScale : list (list F))
    (offset : list F) (time : F) (fm : NodeStore F) :
  validArguments field rotationScale offset ->
  createNodes ∅ field node_coordinate_set = Return fm ->
  let r := transformCoordinates fm field rotationScale offset time in
  success r = true
  /\ forall (k : nat) (coordinate : list F),
       node_coordinate_set !! k = Some coordinate ->
       length coordinate = getNumberOfComponents field ->
       slot (store r) (Z.of_nat k) (getName field) VALUE_LABEL_VALUE 1
       = Some (vectorops.add (vectorops.matrixvectormult rotationScale coordinate)
                 offset).
Proof.
  intros Hvalid Hcreate r.
  assert (isFiniteElement field = true) as Hfe by apply Hvalid.
  destruct (createNodes_made field node_coordinate_set Hfe)
    as (fm0 & Hcreate0 & Hcreated & Hdom).
  rewrite Hcreate in Hcreate0. injection Hcreate0 as <-.
  split.
  - apply (sweep_success field rotationScale offset fm Hvalid).
    apply (created_conforms field node_coordinate_set fm); [exact Hdom|exact Hcreated].
  - intros k coordinate Hk Hlen. subst r.
    rewrite (sweep_region field rotationScale offset fm Hvalid).
    destruct (Hcreated k coordinate Hk) as (values & Hstored & _ & Heq).
    rewrite (Heq Hlen) in Hstored.
    unfold slot. rewrite Hstored. simpl.
    rewrite lookup_singleton_eq. simpl.
    unfold transformSlot, transformValues.
    rewrite decide_True by exact Hlen. rewrite decide_True by reflexivity.
    reflexivity.
Qed.

End CreatedNodes.

(** ** Creating elements *)

Section SmallestUnused.
Context {V : Type}.

Lemma smallestUnused_spec (m : gmap Z V) (fuel : nat) :
  forall i : Z,
    let j := smallestUnused m fuel i in
    (i <= j <= i + Z.of_nat fuel)%Z
    /\ (forall k, (i <= k < j)%Z -> is_Some (m !! k))
    /\ ((j < i + Z.of_nat fuel)%Z -> m !! j = None).
Proof.
  induction fuel as [|fuel IH]; intros i; cbn [smallestUnused].
  - split; [lia|]. split; [intros k Hk; lia|lia].
  - destruct (decide (is_Some (m !! i))) as [Hused|Hfree].
    + destruct (IH (i + 1)%Z) as (Hrange & Hbelow & Hj).
      split; [lia|]. split.
      * intros k Hk. destruct (decide (k = i)) as [->|Hne]; [exact Hused|].
        apply Hbelow. lia.
      * intros Hlt. apply Hj. lia.
    + split; [lia|]. split; [intros k Hk; lia|].
      intros _. apply eq_None_not_Some. exact Hfree.
Qed.

(** The identifier searched through the whole map is not in use, and
    every identifier from 0 below it is. *)
Lemma smallestUnused_free (m : gmap Z V) :
  let j := smallestUnused m (size m) 0%Z in
  (0 <= j)%Z /\ m !! j = None /\ (forall k, (0 <= k < j)%Z -> is_Some (m !! k)).
Proof.
  destruct (smallestUnused_spec m (size m) 0%Z) as (Hrange & Hbelow & Hj).
  set (j := smallestUnused m (size m) 0%Z) in *.
  split; [lia|]. split; [|exact Hbelow].
  destruct (decide (j < 0 + Z.of_nat (size m))%Z) as [Hlt|Hge]; [apply Hj, Hlt|].
  apply not_elem_of_dom.
  assert ((list_to_set (seqZ 0 j) : gset Z) = dom m) as <-.
  { apply set_subseteq_size_eq.
    - intros k Hk. apply elem_of_list_to_set, elem_of_seqZ in Hk.
      apply elem_of_dom, Hbelow. lia.
    - rewrite size_dom, size_list_to_set by apply NoDup_seqZ.
      rewrite length_seqZ. lia. }
  rewrite elem_of_list_to_set, elem_of_seqZ. lia.
Qed.

End SmallestUnused.

Section ElementsCreated.
Context {F : Type} `{Scalar F}.

(** One element made with hint -1 and bound to nodes of the region. *)
Lemma createElement_bound (mesh : Mesh) (nodes : NodeStore F)
    (template : Elementtemplate) (eft : Elementfieldtemplate)
    (nodeIdentifiers : list Z) :
  exists identifier : Z,
    (let '(element, mesh1) := createElement mesh (-1)%Z template in
     let '(_, mesh2) := setNodesByIdentifier mesh1 nodes element eft nodeIdentifiers in
     mesh2)
    = {| getDimension := getDimension mesh;
         meshElements :=
           <[identifier :=
               {| elementShape := templateShape template;
                  elementFields := templateFields template;
                  elementNodes :=
                    if decide (length nodeIdentifiers
                               = basisNumberOfNodes (eftBasis eft)
                               /\ Forall (fun node => is_Some (nodes !! node))
                                    nodeIdentifiers)
                    then nodeIdentifiers
                    else [] |}]> (meshElements mesh) |}
    /\ (0 <= identifier)%Z
    /\ meshElements mesh !! identifier = None
    /\ (forall k, (0 <= k < identifier)%Z -> is_Some (meshElements mesh !! k)).
Proof.
  destruct (smallestUnused_free (meshElements mesh)) as (Hpos & Hfree & Hbelow).
  exists (smallestUnused (meshElements mesh) (size (meshElements mesh)) 0%Z).
  split; [|split; [exact Hpos|split; [exact Hfree|exact Hbelow]]].
  unfold createElement. rewrite decide_True by reflexivity.
  unfold setNodesByIdentifier. cbn [meshElements getDimension].
  rewrite lookup_insert_eq. cbn [elementShape elementFields].
  destruct (decide (length nodeIdentifiers = basisNumberOfNodes (eftBasis eft)))
    as [Hlen|Hlen].
  - destruct (decide (Forall (fun node => is_Some (nodes !! node)) nodeIdentifiers))
      as [Hall|Hall].
    + rewrite decide_True by tauto. rewrite insert_insert_eq. reflexivity.
    + rewrite decide_False by tauto. reflexivity.
  - rewrite decide_False by tauto. reflexivity.
Qed.

(** The node loop of [createCubeElement] makes the nodes that the loop
    of [createNodes] makes, and collects their identifiers: distinct
    identifiers, none of which was in use. *)
Lemma createCubeElement_nodes_new (field : Field) (template : MemNodetemplate)
    (coordinates : list (list F)) :
  forall (fm : NodeStore F) (identifiers : list Z) (cache : Fieldcache F Z),
    exists new : list Z,
      createCubeElement_nodes field template cache fm identifiers coordinates
      = (createNodes_loop field template cache fm coordinates, identifiers ++ new)
      /\ length new = length coordinates
      /\ NoDup new
      /\ (forall i, i ∈ new ->
            fm !! i = None
            /\ is_Some (createNodes_loop field template cache fm coordinates !! i)).
Proof.
  induction coordinates as [|coordinate coordinates IH]; intros fm identifiers cache.
  - exists []. cbn [createCubeElement_nodes createNodes_loop]. rewrite app_nil_r.
    split; [reflexivity|]. split; [reflexivity|]. split; [apply NoDup_nil; exact I|].
    intros i Hin. inversion Hin.
  - cbn [createCubeElement_nodes createNodes_loop].
    destruct (createNodes_turn fm template cache field coordinate)
      as (identifier & fm1 & fm2 & result & -> & -> & Hfree & Hnew & Hothers).
    change (getIdentifier (Some identifier)) with identifier.
    set (cache' := {| cacheTime := cacheTime cache; cacheNode := Some identifier |}).
    destruct (IH fm2 (identifiers ++ [identifier]) cache')
      as (new & -> & Hlength & Hnodup & Hin).
    destruct (createNodes_loop_grows field template coordinates fm2 cache')
      as [Hsub _].
    exists (identifier :: new). split; [rewrite <- app_assoc; reflexivity|].
    split; [cbn [length]; rewrite Hlength; reflexivity|]. split.
    + apply NoDup_cons. split; [|exact Hnodup].
      intros Hmember. destruct (Hin identifier Hmember) as [Hnone _].
      rewrite Hnone in Hnew. destruct Hnew; discriminate.
    + intros i Hi. apply elem_of_cons in Hi. destruct Hi as [->|Hi].
      * split; [exact Hfree|]. destruct Hnew as [data Hdata].
        exists data. eapply lookup_weaken; [exact Hdata|exact Hsub].
      * destruct (Hin i Hi) as [Hnone Hsome]. split; [|exact Hsome].
        rewrite <- Hothers; [exact Hnone|].
        intros ->. rewrite Hnone in Hnew. destruct Hnew; discriminate.
Qed.

(** X12. [createCubeElement] on a mesh of dimension 3, with a finite
    element field and 8 coordinates: the nodes afterwards are those
    that [createNodes] makes, and the mesh has one more element, a cube
    whose local nodes are the 8 new nodes in the order of the
    coordinates: local node [k] is the node that [createNode] makes
    once the coordinates before position [k] have their nodes, and it
    stores the coordinate at position [k] when that has the component
    count of the field; the elements the mesh had are kept. *)
Theorem createCubeElement_makes_cube (mesh : Mesh) (nodes : NodeStore F)
    (finite_element_field : Field) (node_coordinate_set : list (list F)) :
  getDimension mesh = 3 ->
  isFiniteElement finite_element_field = true ->
  length node_coordinate_set = 8 ->
  let node_template := defineField (newNodetemplate nodes) finite_element_field in
  exists (mesh' : Mesh) (nodes' : NodeStore F) (identifier : Z)
         (node_identifiers : list Z),
    createCubeElement mesh nodes finite_element_field node_coordinate_set
    = Return (mesh', nodes')
    /\ createNodes nodes finite_element_field node_coordinate_set = Return nodes'
    /\ length node_identifiers = 8
    /\ NoDup node_identifiers
    /\ (forall i, i ∈ node_identifiers -> nodes !! i = None /\ is_Some (nodes' !! i))
    /\ (forall (k : nat) (node_coordinate : list F),
          node_coordinate_set !! k = Some node_coordinate ->
          exists i : Z,
            node_identifiers !! k = Some i
            /\ fst (createNode
                      (createNodes_loop finite_element_field node_template
                         createFieldcache nodes (take k node_coordinate_set))
                      (-1)%Z node_template) = Some i
            /\ (length node_coordinate = getNumberOfComponents finite_element_field ->
                nodes' !! i
                = Some {[ (getName finite_element_field, VALUE_LABEL_VALUE) :=
                            [node_coordinate] ]}))
    /\ getDimension mesh' = 3
    /\ meshElements mesh !! identifier = None
    /\ meshElements mesh'
       = <[identifier :=
             {| elementShape := SHAPE_TYPE_CUBE;
                elementFields :=
                  [(finite_element_field, (-1)%Z,
                    createElementfieldtemplate
                      (createElementbasis 3 FUNCTION_TYPE_LINEAR_LAGRANGE))];
                elementNodes := node_identifiers |}]> (meshElements mesh).
Proof.
  intros Hdim Hfe Hlen node_template.
  unfold createCubeElement, createNodes, castFiniteElement.
  rewrite Hfe, Hdim, Hlen. cbn [isValid py_assert bool_decide bindPy].
  rewrite !bool_decide_eq_true_2 by reflexivity. cbn [py_assert bindPy].
  fold node_template.
  destruct (createCubeElement_nodes_new finite_element_field node_template
              node_coordinate_set nodes [] createFieldcache)
    as (new & Hnew & Hlength & Hnodup & Hin).
  destruct (createCubeElement_nodes_stored finite_element_field node_coordinate_set
              Hfe nodes [] createFieldcache)
    as (new' & Hnew' & Hordered).
  change (defineField (newNodetemplate (∅ : NodeStore F)) finite_element_field)
    with node_template in Hnew', Hordered.
  rewrite Hnew in Hnew'. injection Hnew' as Hnew'. cbn [app] in Hnew'. subst new'.
  rewrite Hnew. cbn [app].
  set (nodes' := createNodes_loop finite_element_field node_template createFieldcache
                   nodes node_coordinate_set) in *.
  set (eft := createElementfieldtemplate
                (createElementbasis 3 FUNCTION_TYPE_LINEAR_LAGRANGE)).
  set (element_template :=
         elementDefineField (setElementShapeType createElementtemplate SHAPE_TYPE_CUBE)
           finite_element_field (-1)%Z eft).
  destruct (createElement_bound mesh nodes' element_template eft new)
    as (identifier & Hmesh & _ & Hfree & _).
  rewrite decide_True in Hmesh.
  2:{ split; [rewrite Hlength, Hlen; reflexivity|].
      apply Forall_forall. intros i Hi. apply (Hin i Hi). }
  destruct (createElement mesh (-1)%Z element_template) as [element mesh1].
  destruct (setNodesByIdentifier mesh1 nodes' element eft new) as [result mesh2].
  subst mesh2.
  eexists _, nodes', identifier, new.
  split; [reflexivity|]. split; [reflexivity|].
  split; [rewrite Hlength; exact Hlen|]. split; [exact Hnodup|].
  split; [exact Hin|]. split.
  - intros k node_coordinate Hk.
    destruct (Hordered k node_coordinate Hk)
      as (i & values & Hi & Hgiven & Hstored & _ & Heq).
    exists i. split; [exact Hi|]. split; [exact Hgiven|].
    intros Hcount. rewrite <- (Heq Hcount). exact Hstored.
  - split; [exact Hdim|]. split; [exact Hfree|]. reflexivity.
Qed.

(** X13. [createSquareElement] on a mesh of dimension 2, with a finite
    element field and 4 coordinates: the nodes afterwards are those
    that [createNodes] makes, and the mesh has one more element, a
    square whose local nodes are the 4 new nodes in the order of the
    coordinates: local node [k] is the node that [createNode] makes
    once the coordinates before position [k] have their nodes, and it
    stores the coordinate at position [k] when that has the component
    count of the field; the elements the mesh had are kept. *)
Theorem createSquareElement_makes_square (mesh : Mesh) (nodes : NodeStore F)
    (finite_element_field : Field) (node_coordinate_set : list (list F)) :
  getDimension mesh = 2 ->
  isFiniteElement finite_element_field = true ->
  length node_coordinate_set = 4 ->
  let node_template := defineField (newNodetemplate nodes) finite_element_field in
  exists (mesh' : Mesh) (nodes' : NodeStore F) (identifier : Z)
         (node_identifiers : list Z),
    createSquareElement mesh nodes finite_element_field node_coordinate_set
    = Return (mesh', nodes')
    /\ createNodes nodes finite_element_field node_coordinate_set = Return nodes'
    /\ length node_identifiers = 4
    /\ NoDup node_identifiers
    /\ (forall i, i ∈ node_identifiers -> nodes !! i = None /\ is_Some (nodes' !! i))
    /\ (forall (k : nat) (node_coordinate : list F),
          node_coordinate_set !! k = Some node_coordinate ->
          exists i : Z,
            node_identifiers !! k = Some i
            /\ fst (createNode
                      (createNodes_loop finite_element_field node_template
                         createFieldcache nodes (take k node_coordinate_set))
                      (-1)%Z node_template) = Some i
            /\ (length node_coordinate = getNumberOfComponents finite_element_field ->
                nodes' !! i
                = Some {[ (getName finite_element_field, VALUE_LABEL_VALUE) :=
                            [node_coordinate] ]}))
    /\ getDimension mesh' = 2
    /\ meshElements mesh !! identifier = None
    /\ meshElements mesh'
       = <[identifier :=
             {| elementShape := SHAPE_TYPE_SQUARE;
                elementFields :=
                  [(finite_element_field, (-1)%Z,
                    createElementfieldtemplate
                      (createElementbasis 2 FUNCTION_TYPE_LINEAR_LAGRANGE))];
                elementNodes := node_identifiers |}]> (meshElements mesh).
Proof.
  intros Hdim Hfe Hlen node_template.
  unfold createSquareElement, createNodes, castFiniteElement.
  rewrite Hfe, Hdim, Hlen. cbn [isValid py_assert bool_decide bindPy].
  rewrite !bool_decide_eq_true_2 by reflexivity. cbn [py_assert bindPy].
  fold node_template.
  destruct (createCubeElement_nodes_new finite_element_field node_template
              node_coordinate_set nodes [] createFieldcache)
    as (new & Hnew & Hlength & Hnodup & Hin).
  destruct (createCubeElement_nodes_stored finite_element_field node_coordinate_set
              Hfe nodes [] createFieldcache)
    as (new' & Hnew' & Hordered).
  change (defineField (newNodetemplate (∅ : NodeStore F)) finite_element_field)
    with node_template in Hnew', Hordered.
  rewrite Hnew in Hnew'. injection Hnew' as Hnew'. cbn [app] in Hnew'. subst new'.
  rewrite Hnew. cbn [app].
  set (nodes' := createNodes_loop finite_element_field node_template createFieldcache
                   nodes node_coordinate_set) in *.
  set (eft := createElementfieldtemplate
                (createElementbasis 2 FUNCTION_TYPE_LINEAR_LAGRANGE)).
  set (element_template :=
         elementDefineField
           (setElementShapeType createElementtemplate SHAPE_TYPE_SQUARE)
           finite_element_field (-1)%Z eft).
  destruct (createElement_bound mesh nodes' element_template eft new)
    as (identifier & Hmesh & _ & Hfree & _).
  rewrite decide_True in Hmesh.
  2:{ split; [rewrite Hlength, Hlen; reflexivity|].
      apply Forall_forall. intros i Hi. apply (Hin i Hi). }
  destruct (createElement mesh (-1)%Z element_template) as [element mesh1].
  destruct (setNodesByIdentifier mesh1 nodes' element eft new) as [result mesh2].
  subst mesh2.
  eexists _, nodes', identifier, new.
  split; [reflexivity|]. split; [reflexivity|].
  split; [rewrite Hlength; exact Hlen|]. split; [exact Hnodup|].
  split; [exact Hin|]. split.
  - intros k node_coordinate Hk.
    destruct (Hordered k node_coordinate Hk)
      as (i & values & Hi & Hgiven & Hstored & _ & Heq).
    exists i. split; [exact Hi|]. split; [exact Hgiven|].
    intros Hcount. rewrite <- (Heq Hcount). exact Hstored.
  - split; [exact Hdim|]. split; [exact Hfree|]. reflexivity.
Qed.

Lemma createTriangleElements_loop_created (nodes : NodeStore F) (field : Field)
    (element_node_set : list (list Z)) :
  let eft :=
    createElementfieldtemplate (createElementbasis 2 FUNCTION_TYPE_LINEAR_SIMPLEX) in
  let element_template :=
    elementDefineField (setElementShapeType createElementtemplate SHAPE_TYPE_TRIANGLE)
      field (-1)%Z eft in
  forall (mesh : Mesh) (k0 : nat),
    (forall j : Z, is_Some (meshElements mesh !! j) <-> (0 <= j < Z.of_nat k0)%Z) ->
    forall k : nat,
      meshElements
        (createTriangleElements_loop nodes element_template eft mesh element_node_set)
        !! Z.of_nat (k0 + k)
      = triangleElement nodes field <$> element_node_set !! k.
Proof.
  intros eft element_template.
  induction element_node_set as [|element_nodes element_node_set IH];
    intros mesh k0 Hdom k.
  - cbn [createTriangleElements_loop]. rewrite lookup_nil.
    cbn [fmap option_fmap option_map].
    apply eq_None_not_Some. rewrite Hdom. lia.
  - cbn [createTriangleElements_loop].
    destruct (createElement_bound mesh nodes element_template eft element_nodes)
      as (identifier & Hmesh & Hpos & Hfree & Hbelow).
    assert (identifier = Z.of_nat k0) as ->.
    { destruct (Z.lt_trichotomy identifier (Z.of_nat k0)) as [Hlt|[Heq|Hgt]].
      - assert (is_Some (meshElements mesh !! identifier)) as Hused
          by (apply Hdom; lia).
        rewrite Hfree in Hused. destruct Hused; discriminate.
      - exact Heq.
      - assert (is_Some (meshElements mesh !! Z.of_nat k0)) as Hused
          by (apply Hbelow; lia).
        apply Hdom in Hused. lia. }
    destruct (createElement mesh (-1)%Z element_template) as [element mesh1].
    destruct (setNodesByIdentifier mesh1 nodes element eft element_nodes)
      as [result mesh2].
    subst mesh2.
    set (mesh2 := {| getDimension := getDimension mesh; meshElements := _ |}).
    assert (forall j : Z,
               is_Some (meshElements mesh2 !! j) <-> (0 <= j < Z.of_nat (S k0))%Z)
      as Hdom2.
    { intros j. cbn [mesh2 meshElements].
      destruct (decide (j = Z.of_nat k0)) as [->|Hne].
      - rewrite lookup_insert_eq. split; [lia|]. intros _. eexists. reflexivity.
      - rewrite lookup_insert_ne by congruence. rewrite Hdom. lia. }
    destruct k as [|k].
    + rewrite Nat.add_0_r. cbn [lookup list_lookup fmap option_fmap option_map].
      assert (forall (l : list (list Z)) (m : Mesh) (e : Element),
                 meshElements m !! Z.of_nat k0 = Some e ->
                 meshElements (createTriangleElements_loop nodes element_template eft
                                 m l) !! Z.of_nat k0 = Some e) as Hkept.
      { induction l as [|x l IHl]; intros m e He; cbn [createTriangleElements_loop];
          [exact He|].
        destruct (createElement_bound m nodes element_template eft x)
          as (i & Hm & _ & Hi & _).
        destruct (createElement m (-1)%Z element_template) as [el m1].
        destruct (setNodesByIdentifier m1 nodes el eft x) as [r m2].
        subst m2. apply IHl. cbn [meshElements].
        rewrite lookup_insert_ne; [exact He|]. intros ->. congruence. }
      apply Hkept. cbn [mesh2 meshElements]. rewrite lookup_insert_eq.
      reflexivity.
    + replace (k0 + S k) with (S k0 + k) by lia.
      exact (IH mesh2 (S k0) Hdom2 k).
Qed.

(** X14. [createTriangleElements] on a mesh of dimension 2 without
    elements, with a finite element field: the element [k] is made for
    the node identifiers at position [k]; it is a triangle on these
    nodes when they are three nodes of the region; otherwise the
    failure of [setNodesByIdentifier] is ignored and a triangle without
    nodes stays in the mesh. *)
Theorem createTriangleElements_makes_triangles (mesh : Mesh) (nodes : NodeStore F)
    (finite_element_field : Field) (element_node_set : list (list Z)) :
  getDimension mesh = 2 ->
  meshElements mesh = ∅ ->
  isFiniteElement finite_element_field = true ->
  exists mesh' : Mesh,
    createTriangleElements mesh nodes finite_element_field element_node_set
    = Return mesh'
    /\ forall k : nat,
         meshElements mesh' !! Z.of_nat k
         = triangleElement nodes finite_element_field <$> element_node_set !! k.
Proof.
  intros Hdim Hempty Hfe.
  unfold createTriangleElements, castFiniteElement. rewrite Hfe, Hdim.
  rewrite bool_decide_eq_true_2 by reflexivity.
  cbn [isValid py_assert bindPy].
  eexists. split; [reflexivity|]. intros k.
  apply (createTriangleElements_loop_created nodes finite_element_field
           element_node_set mesh 0).
  intros j. rewrite Hempty, lookup_empty. split; [intros [? ?]; discriminate|lia].
Qed.

(** X15. The assertions of the element functions: each of them raises
    [AssertionError], before it creates anything, when the mesh has not
    the dimension of its shape, when the field is not a finite element
    field, or (cube and square) when the number of coordinates is not
    that of the corners. *)
Theorem createElements_assertions (mesh : Mesh) (nodes : NodeStore F)
    (finite_element_field : Field) (element_node_set : list (list Z))
    (node_coordinate_set : list (list F)) :
  (getDimension mesh <> 2 \/ isFiniteElement finite_element_field = false ->
   createTriangleElements mesh nodes finite_element_field element_node_set
   = Raise AssertionError)
  /\ (getDimension mesh <> 3 \/ isFiniteElement finite_element_field = false
      \/ length node_coordinate_set <> 8 ->
      createCubeElement mesh nodes finite_element_field node_coordinate_set
      = Raise AssertionError)
  /\ (getDimension mesh <> 2 \/ isFiniteElement finite_element_field = false
      \/ length node_coordinate_set <> 4 ->
      createSquareElement mesh nodes finite_element_field node_coordinate_set
      = Raise AssertionError).
Proof.
  unfold createTriangleElements, createCubeElement, createSquareElement,
    castFiniteElement.
  split; [|split].
  - intros [Hdim|Hfe].
    + rewrite bool_decide_eq_false_2 by exact Hdim. reflexivity.
    + rewrite Hfe. destruct (bool_decide (getDimension mesh = 2)); reflexivity.
  - intros [Hdim|[Hfe|Hlen]].
    + rewrite bool_decide_eq_false_2 by exact Hdim. reflexivity.
    + rewrite Hfe. destruct (bool_decide (getDimension mesh = 3)); reflexivity.
    + rewrite (bool_decide_eq_false_2 (length node_coordinate_set = 8)) by exact Hlen.
      destruct (bool_decide (getDimension mesh = 3)); [|reflexivity].
      destruct (isFiniteElement finite_element_field); reflexivity.
  - intros [Hdim|[Hfe|Hlen]].
    + rewrite bool_decide_eq_false_2 by exact Hdim. reflexivity.
    + rewrite Hfe. destruct (bool_decide (getDimension mesh = 2)); reflexivity.
    + rewrite (bool_decide_eq_false_2 (length node_coordinate_set = 4)) by exact Hlen.
      destruct (bool_decide (getDimension mesh = 2)); [|reflexivity].
      destruct (isFiniteElement finite_element_field); reflexivity.
Qed.

End ElementsCreated.

(** ** Range and mean over a nodeset that evaluates *)

Section AggregatesReturned.
Context {F : Type} `{Scalar F} {Node : Type}.
Variable evaluateReal : Field -> Fieldcache F Node -> nat -> Result * list F.
Variable coordinates : Field.

Local Abbreviation componentsCount := (getNumberOfComponents coordinates).
Local Abbreviation values := (nodeCoordinates evaluateReal coordinates).

Lemma aggregate_pass_evaluates (op : F -> F -> F) (nodes : list Node) :
  forall (fieldcache : Fieldcache F Node) (running : list F),
    cacheTime fieldcache = fzero ->
    Forall (fun node =>
              fst (evaluateReal coordinates (setNode createFieldcache node)
                     componentsCount) = RESULT_OK) nodes ->
    aggregate_pass evaluateReal op coordinates fieldcache componentsCount
      (Some running) nodes
    = (RESULT_OK, Some (foldl (zip_with op) running (map values nodes))).
Proof.
  induction nodes as [|node nodes IH]; intros fieldcache running Ht Hall.
  - reflexivity.
  - inversion Hall as [|? ? Hnode Hall']; subst.
    cbn [aggregate_pass map foldl]. unfold nodeCoordinates.
    rewrite (setNode_time fieldcache createFieldcache node Ht).
    destruct (evaluateReal coordinates (setNode createFieldcache node) componentsCount)
      as [result x].
    cbn [fst snd] in *. subst result. rewrite decide_True by reflexivity.
    apply IH; [reflexivity|exact Hall'].
Qed.

Lemma evaluateRealAggregate_evaluates (kind : AggregateKind) (node : Node)
    (nodes : list Node) :
  Forall (fun node =>
            fst (evaluateReal coordinates (setNode createFieldcache node)
                   componentsCount) = RESULT_OK) (node :: nodes) ->
  evaluateRealAggregate evaluateReal
    {| aggregateKind := kind; aggregateSource := coordinates;
       aggregateNodeset := node :: nodes |} createFieldcache componentsCount
  = (RESULT_OK,
     match kind with
     | NodesetMinimum => foldl (zip_with fmin) (values node) (map values nodes)
     | NodesetMaximum => foldl (zip_with fmax) (values node) (map values nodes)
     | NodesetMean =>
         map (fun s => fdiv s (fofnat (S (length nodes))))
           (foldl (zip_with fadd) (values node) (map values nodes))
     end).
Proof.
  intros Hall. inversion Hall as [|? ? Hnode Hall']; subst.
  unfold evaluateRealAggregate.
  cbn [aggregateNodeset aggregateKind aggregateSource aggregate_pass].
  unfold nodeCoordinates.
  destruct (evaluateReal coordinates (setNode createFieldcache node) componentsCount)
    as [result x] eqn:Hx.
  cbn [fst snd] in *. subst result. rewrite decide_True by reflexivity.
  rewrite aggregate_pass_evaluates by (reflexivity || exact Hall').
  destruct kind; reflexivity.
Qed.

(** X16. Over a nodeset that is not empty and at every node of which
    the coordinates evaluate, [evaluateNodesetCoordinatesRange] returns
    the componentwise minimum and maximum of the coordinates of the
    nodes, and [evaluateNodesetMeanCoordinates] their componentwise sum
    divided by the number of nodes. *)
Theorem evaluateNodeset_returns (node : Node) (nodes : list Node) :
  Forall (fun node =>
            fst (evaluateReal coordinates (setNode createFieldcache node)
                   componentsCount) = RESULT_OK) (node :: nodes) ->
  evaluateNodesetCoordinatesRange evaluateReal coordinates (node :: nodes)
  = Return (foldl (zip_with fmin) (values node) (map values nodes),
            foldl (zip_with fmax) (values node) (map values nodes))
  /\ evaluateNodesetMeanCoordinates evaluateReal coordinates (node :: nodes)
     = Return (map (fun s => fdiv s (fofnat (S (length nodes))))
                 (foldl (zip_with fadd) (values node) (map values nodes))).
Proof.
  intros Hall.
  unfold evaluateNodesetCoordinatesRange, evaluateNodesetMeanCoordinates,
    createFieldNodesetMinimum, createFieldNodesetMaximum, createFieldNodesetMean.
  rewrite !(evaluateRealAggregate_evaluates _ node nodes Hall).
  split; reflexivity.
Qed.

End AggregatesReturned.

(** ** The further properties on sample data *)

(** C1 on the first derivative of node 1 of the two sample nodes: it
    is read, and the node then holds the product with the matrix,
    without the offset. *)
Lemma transformCoordinates_parameters_written_witness :
  let r :=
    transformCoordinates Sample.twoNodes (Sample.coordinatesField 2)
      [[Sample.q 0; Sample.q 1]; [Sample.q 1; Sample.q 0]]
      [Sample.q 10; Sample.q 20] (Sample.q 0) in
  CallGet 1%Z (Sample.coordinatesField 2) VALUE_LABEL_D_DS1 1 RESULT_OK
    [Sample.q 0; Sample.q 1] ∈ calls r
  /\ slot (store r) 1%Z "coordinates" VALUE_LABEL_D_DS1 1
     = Some (vectorops.matrixvectormult
               [[Sample.q 0; Sample.q 1]; [Sample.q 1; Sample.q 0]]
               [Sample.q 0; Sample.q 1]).
Proof.
  intros r.
  destruct (transformCoordinates_parameters_written (Sample.coordinatesField 2)
              [[Sample.q 0; Sample.q 1]; [Sample.q 1; Sample.q 0]]
              [Sample.q 10; Sample.q 20] Sample.twoNodes swapAndShift_valid
              (Sample.q 0) 1%Z VALUE_LABEL_D_DS1 1 [Sample.q 0; Sample.q 1])
    as [_ [Hread Hwritten]].
  assert (CallGet 1%Z (Sample.coordinatesField 2) VALUE_LABEL_D_DS1 1 RESULT_OK
            [Sample.q 0; Sample.q 1] ∈ calls r) as Hin.
  { apply (proj2 Hread). split; reflexivity. }
  split; [exact Hin|]. exact (proj2 (Hwritten Hin)).
Defined.


(** X1 on the value of node 0 of the two sample nodes. *)
Lemma transformCoordinates_region_witness :
  slot (store (transformCoordinates Sample.twoNodes (Sample.coordinatesField 2)
                 [[Sample.q 0; Sample.q 1]; [Sample.q 1; Sample.q 0]]
                 [Sample.q 10; Sample.q 20] (Sample.q 0)))
    0%Z "coordinates" VALUE_LABEL_VALUE 1
  = Some (vectorops.add
            (vectorops.matrixvectormult
               [[Sample.q 0; Sample.q 1]; [Sample.q 1; Sample.q 0]]
               [Sample.q 1; Sample.q 2])
            [Sample.q 10; Sample.q 20]).
Proof.
  rewrite (transformCoordinates_region (Sample.coordinatesField 2)
             [[Sample.q 0; Sample.q 1]; [Sample.q 1; Sample.q 0]]
             [Sample.q 10; Sample.q 20] Sample.twoNodes swapAndShift_valid
             (Sample.q 0) 0%Z VALUE_LABEL_VALUE 1).
  reflexivity.
Defined.



(** X5 on the first write of the sweep of the two sample nodes. *)
Lemma transformCoordinates_writes_follow_reads_witness :
  let r :=
    transformCoordinates Sample.twoNodes (Sample.coordinatesField 2)
      [[Sample.q 0; Sample.q 1]; [Sample.q 1; Sample.q 0]]
      [Sample.q 10; Sample.q 20] (Sample.q 0) in
  exists l0 read,
    take 2 (calls r)
    = l0 ++ [CallGet 0%Z (Sample.coordinatesField 2) VALUE_LABEL_VALUE 1 RESULT_OK
               read].
Proof.
  intros r.
  destruct (transformCoordinates_writes_follow_reads Sample.twoNodes
              (Sample.coordinatesField 2)
              [[Sample.q 0; Sample.q 1]; [Sample.q 1; Sample.q 0]]
              [Sample.q 10; Sample.q 20] (Sample.q 0)
              (take 2 (calls r)) (drop 3 (calls r)) 0%Z (Sample.coordinatesField 2)
              VALUE_LABEL_VALUE 1
              (transformValues [[Sample.q 0; Sample.q 1]; [Sample.q 1; Sample.q 0]]
                 [Sample.q 10; Sample.q 20] VALUE_LABEL_VALUE
                 [Sample.q 1; Sample.q 2])
              RESULT_OK) as (l0 & read & Hl0 & _ & _).
  - vm_compute. reflexivity.
  - exists l0, read. exact Hl0.
Defined.

(** X6 on nodes named A, C, B. *)
Lemma getNodeNameCentres_distinct_names_witness :
  getNodeNameCentres
    (Sample.names [Some "A"; Some "C"; Some "B"]%string)
    (Sample.coordinates
       [(RESULT_OK, [Sample.q 0; Sample.q 0]);
        (RESULT_OK, [Sample.q 2; Sample.q 0]);
        (RESULT_OK, [Sample.q 5; Sample.q 5])])
    [0; 1; 2] (Sample.coordinatesField 2) Sample.nameField
  = Return [("A"%string, [Sample.q 0; Sample.q 0]);
            ("C"%string, [Sample.q 2; Sample.q 0]);
            ("B"%string, [Sample.q 5; Sample.q 5])].
Proof.
  rewrite getNodeNameCentres_distinct_names.
  - reflexivity.
  - apply (bool_decide_unpack _). vm_compute. exact I.
Defined.

(** X7 on nodes named A, B, A. *)
Lemma getNodeNameCentres_same_name_raises_witness :
  exists e,
    getNodeNameCentres
      (Sample.names [Some "A"; Some "B"; Some "A"]%string)
      (Sample.coordinates
         [(RESULT_OK, [Sample.q 0; Sample.q 0]);
          (RESULT_OK, [Sample.q 2; Sample.q 0]);
          (RESULT_OK, [Sample.q 5; Sample.q 5])])
      [0; 1; 2] (Sample.coordinatesField 2) Sample.nameField
    = Raise e
    /\ (e = TypeError \/ e = IndexError).
Proof.
  apply getNodeNameCentres_same_name_raises.
  apply (bool_decide_unpack _). vm_compute. exact I.
Defined.

(** X8 on three nodes iterated in two orders. *)
Lemma findNodeWithName_order_witness :
  findNodeWithName (Sample.names [Some "A"; Some "C"; Some "B"]%string)
    [0; 1; 2] Sample.nameField (Some "C"%string)
  = findNodeWithName (Sample.names [Some "A"; Some "C"; Some "B"]%string)
      [1; 0; 2] Sample.nameField (Some "C"%string).
Proof.
  apply findNodeWithName_order. apply perm_swap.
Defined.

(** X9 on the two sample nodes and one coordinate. *)
Lemma createNodes_keeps_nodes_witness :
  exists fm' : NodeStore Qc,
    createNodes Sample.twoNodes (Sample.coordinatesField 2)
      [[Sample.q 7; Sample.q 8]] = Return fm'
    /\ Sample.twoNodes ⊆ fm'
    /\ size fm' = size Sample.twoNodes + 1.
Proof.
  apply (createNodes_keeps_nodes Sample.twoNodes (Sample.coordinatesField 2)
           [[Sample.q 7; Sample.q 8]]).
  reflexivity.
Defined.

(** X10 on two coordinates of two components. *)
Lemma createNodes_stores_coordinates_witness :
  exists fm : NodeStore Qc,
    createNodes ∅ (Sample.coordinatesField 2)
      [[Sample.q 7; Sample.q 8]; [Sample.q 3; Sample.q 4]] = Return fm
    /\ fm !! 0%Z
       = Some {[ ("coordinates"%string, VALUE_LABEL_VALUE) :=
                   [[Sample.q 7; Sample.q 8]] ]}
    /\ fm !! 1%Z
       = Some {[ ("coordinates"%string, VALUE_LABEL_VALUE) :=
                   [[Sample.q 3; Sample.q 4]] ]}
    /\ fm !! 2%Z = None.
Proof.
  destruct (createNodes_stores_coordinates (Sample.coordinatesField 2)
              [[Sample.q 7; Sample.q 8]; [Sample.q 3; Sample.q 4]] eq_refl)
    as (fm & Hcreate & Hstored & Hnone).
  exists fm. split; [exact Hcreate|].
  split; [exact (proj1 (Hstored 0 [Sample.q 7; Sample.q 8] eq_refl eq_refl))|].
  split; [exact (proj1 (Hstored 1 [Sample.q 3; Sample.q 4] eq_refl eq_refl))|].
  exact (Hnone 2 eq_refl).
Defined.

(** X11 on two coordinates, swapped and shifted. *)
Lemma createNodes_then_transformCoordinates_witness :
  let fm : NodeStore Qc :=
    match createNodes ∅ (Sample.coordinatesField 2)
            [[Sample.q 1; Sample.q 2]; [Sample.q 3; Sample.q 4]] with
    | Return fm => fm
    | Raise _ => ∅
    end in
  success (transformCoordinates fm (Sample.coordinatesField 2)
             [[Sample.q 0; Sample.q 1]; [Sample.q 1; Sample.q 0]]
             [Sample.q 10; Sample.q 20] (Sample.q 0)) = true.
Proof.
  intros fm.
  apply (createNodes_then_transformCoordinates (Sample.coordinatesField 2)
           [[Sample.q 1; Sample.q 2]; [Sample.q 3; Sample.q 4]]
           [[Sample.q 0; Sample.q 1]; [Sample.q 1; Sample.q 0]]
           [Sample.q 10; Sample.q 20] (Sample.q 0) fm swapAndShift_valid).
  vm_compute. reflexivity.
Defined.

(** X12 on an empty mesh of dimension 3 and the corners of the unit
    cube: local nodes 1 and 6 of the element are the nodes that hold
    the corners at positions 1 and 6. *)
Lemma createCubeElement_makes_cube_witness :
  exists (mesh' : Mesh) (nodes' : NodeStore Qc) (identifier : Z)
         (node_identifiers : list Z) (i j : Z),
    createCubeElement {| getDimension := 3; meshElements := ∅ |} ∅
      (Sample.coordinatesField 3) Sample.cubeCorners
    = Return (mesh', nodes')
    /\ elementNodes <$> meshElements mesh' !! identifier = Some node_identifiers
    /\ node_identifiers !! 1 = Some i
    /\ nodes' !! i
       = Some {[ ("coordinates"%string, VALUE_LABEL_VALUE) :=
                   [[Sample.q 1; Sample.q 0; Sample.q 0]] ]}
    /\ node_identifiers !! 6 = Some j
    /\ nodes' !! j
       = Some {[ ("coordinates"%string, VALUE_LABEL_VALUE) :=
                   [[Sample.q 0; Sample.q 1; Sample.q 1]] ]}.
Proof.
  destruct (createCubeElement_makes_cube {| getDimension := 3; meshElements := ∅ |}
              (∅ : NodeStore Qc) (Sample.coordinatesField 3) Sample.cubeCorners
              eq_refl eq_refl eq_refl)
    as (mesh' & nodes' & identifier & node_identifiers & Hcube & _ & _ & _ & _
        & Hordered & _ & _ & Helements).
  destruct (Hordered 1 [Sample.q 1; Sample.q 0; Sample.q 0] eq_refl)
    as (i & Hi & _ & Hstored_i).
  destruct (Hordered 6 [Sample.q 0; Sample.q 1; Sample.q 1] eq_refl)
    as (j & Hj & _ & Hstored_j).
  exists mesh', nodes', identifier, node_identifiers, i, j.
  split; [exact Hcube|].
  split; [rewrite Helements, lookup_insert_eq; reflexivity|].
  split; [exact Hi|]. split; [exact (Hstored_i eq_refl)|].
  split; [exact Hj|exact (Hstored_j eq_refl)].
Defined.

(** X13 on an empty mesh of dimension 2 and the corners of the unit
    square: local nodes 1 and 2 of the element are the nodes that hold
    the corners at positions 1 and 2. *)
Lemma createSquareElement_makes_square_witness :
  exists (mesh' : Mesh) (nodes' : NodeStore Qc) (identifier : Z)
         (node_identifiers : list Z) (i j : Z),
    createSquareElement {| getDimension := 2; meshElements := ∅ |} ∅
      (Sample.coordinatesField 2) Sample.squareCorners
    = Return (mesh', nodes')
    /\ elementNodes <$> meshElements mesh' !! identifier = Some node_identifiers
    /\ node_identifiers !! 1 = Some i
    /\ nodes' !! i
       = Some {[ ("coordinates"%string, VALUE_LABEL_VALUE) :=
                   [[Sample.q 1; Sample.q 0]] ]}
    /\ node_identifiers !! 2 = Some j
    /\ nodes' !! j
       = Some {[ ("coordinates"%string, VALUE_LABEL_VALUE) :=
                   [[Sample.q 0; Sample.q 1]] ]}.
Proof.
  destruct (createSquareElement_makes_square
              {| getDimension := 2; meshElements := ∅ |}
              (∅ : NodeStore Qc) (Sample.coordinatesField 2) Sample.squareCorners
              eq_refl eq_refl eq_refl)
    as (mesh' & nodes' & identifier & node_identifiers & Hsquare & _ & _ & _ & _
        & Hordered & _ & _ & Helements).
  destruct (Hordered 1 [Sample.q 1; Sample.q 0] eq_refl)
    as (i & Hi & _ & Hstored_i).
  destruct (Hordered 2 [Sample.q 0; Sample.q 1] eq_refl)
    as (j & Hj & _ & Hstored_j).
  exists mesh', nodes', identifier, node_identifiers, i, j.
  split; [exact Hsquare|].
  split; [rewrite Helements, lookup_insert_eq; reflexivity|].
  split; [exact Hi|]. split; [exact (Hstored_i eq_refl)|].
  split; [exact Hj|exact (Hstored_j eq_refl)].
Defined.

(** X14 on the two sample nodes: a triangle cannot be bound to two
    nodes, nor to a node that does not exist. *)
Lemma createTriangleElements_makes_triangles_witness :
  exists mesh' : Mesh,
    createTriangleElements {| getDimension := 2; meshElements := ∅ |}
      Sample.twoNodes (Sample.coordinatesField 2) [[0; 1]; [0; 1; 5]]%Z
    = Return mesh'
    /\ forall k : nat,
         meshElements mesh' !! Z.of_nat k
         = triangleElement Sample.twoNodes (Sample.coordinatesField 2)
             <$> [[0; 1]; [0; 1; 5]]%Z !! k.
Proof.
  apply (createTriangleElements_makes_triangles
           {| getDimension := 2; meshElements := ∅ |} Sample.twoNodes
           (Sample.coordinatesField 2) [[0; 1]; [0; 1; 5]]%Z);
    reflexivity.
Defined.

(** X15 on a mesh of dimension 2, which takes no cube. *)
Lemma createElements_assertions_witness :
  createCubeElement {| getDimension := 2; meshElements := ∅ |} Sample.twoNodes
    (Sample.coordinatesField 2) []
  = Raise AssertionError.
Proof.
  apply (proj1 (proj2 (createElements_assertions
                         {| getDimension := 2; meshElements := ∅ |} Sample.twoNodes
                         (Sample.coordinatesField 2) [] []))).
  left. cbn. lia.
Defined.

(** X16 on two nodes at (0,0) and (3,4). *)
Lemma evaluateNodeset_returns_witness :
  let coordinates :=
    Sample.coordinates
      [(RESULT_OK, [Sample.q 0; Sample.q 0]); (RESULT_OK, [Sample.q 3; Sample.q 4])] in
  evaluateNodesetCoordinatesRange coordinates (Sample.coordinatesField 2) [0; 1]
  = Return ([fmin (Sample.q 0) (Sample.q 3); fmin (Sample.q 0) (Sample.q 4)],
            [fmax (Sample.q 0) (Sample.q 3); fmax (Sample.q 0) (Sample.q 4)]).
Proof.
  intros coordinates.
  destruct (evaluateNodeset_returns coordinates (Sample.coordinatesField 2) 0 [1])
    as [Hrange _].
  - repeat constructor.
  - rewrite Hrange. reflexivity.
Defined.
